(** * pitch2play: album/artist extraction and monthly aggregation

  A shallow embedding of the extraction and aggregation pipeline of
  pitch2play, covering both the monolithic script
  [pitchfork_spotify_playlist.mjs] and the modular services under [src/]
  ([utils/text.mjs], the collection utilities, [services/email/parser.mjs],
  the playlist service and the sync service), and, further down, the
  catalog search, the moving of emails to the trash
  ([services/email/fetch.mjs], [services/email/trash-mover.mjs]), the
  command line ([cli.mjs]) and the retry utility.

  JavaScript strings are sequences of UTF-16 code units; they are modelled
  as lists of code units so that [length], [trim] and the regular
  expressions count what the engine counts. Calls into libraries of the
  host (the markup parser, [Buffer], [toLowerCase]) are parameters of the
  model; the markup parser may throw. The call of [Buffer] sits in a [try]
  and is typed accordingly; module [Node] gives the decoder of Node, which
  returns on every text. *)

From Stdlib Require Import NArith ZArith List Bool Ascii String DecimalString Lia.
From stdpp Require Import base decidable option list countable gmap.
From Stdlib Require DecimalPos DecimalZ.
Import ListNotations.

Local Open Scope N_scope.
Local Open Scope list_scope.

(** ** JavaScript strings *)

Module JsString.

(** An ASCII literal as a JavaScript string. *)
Definition js (s : string) : list N :=
  List.map N_of_ascii (list_ascii_of_string s).

(** [WhiteSpace] and [LineTerminator] of ECMAScript: the characters that
    [\s] matches and that [String.prototype.trim] removes. *)
Definition isSpace (c : N) : bool :=
  (c =? 9) || (c =? 10) || (c =? 11) || (c =? 12) || (c =? 13)
  || (c =? 32) || (c =? 0xA0) || (c =? 0x1680)
  || ((0x2000 <=? c) && (c <=? 0x200A))
  || (c =? 0x2028) || (c =? 0x2029) || (c =? 0x202F) || (c =? 0x205F)
  || (c =? 0x3000) || (c =? 0xFEFF).

(** [LineTerminator]: the characters that [.] refuses. *)
Definition isLineTerminator (c : N) : bool :=
  (c =? 10) || (c =? 13) || (c =? 0x2028) || (c =? 0x2029).

Fixpoint dropSpaces (s : list N) : list N :=
  match s with
  | c :: t => if isSpace c then dropSpaces t else s
  | [] => []
  end.

Fixpoint takeSpaces (s : list N) : list N :=
  match s with
  | c :: t => if isSpace c then c :: takeSpaces t else []
  | [] => []
  end.

Definition trimStart (s : list N) : list N := dropSpaces s.
Definition trimEnd (s : list N) : list N := rev (dropSpaces (rev s)).

(** [String.prototype.trim]. *)
Definition trim (s : list N) : list N := trimEnd (trimStart s).

(** Canonicalisation of the [i] flag (without [u]) restricted to what can
    equal an ASCII pattern character: a code unit above 127 never
    canonicalises to an ASCII one, so only [a-z] fold. *)
Definition asciiUpper (c : N) : N :=
  if (97 <=? c) && (c <=? 122) then c - 32 else c.

Definition eqCi (p c : N) : bool := asciiUpper p =? asciiUpper c.

Fixpoint isPrefix (pat s : list N) : bool :=
  match pat, s with
  | [], _ => true
  | p :: pat', c :: s' => (p =? c) && isPrefix pat' s'
  | _ :: _, [] => false
  end.

Fixpoint isPrefixCi (pat s : list N) : bool :=
  match pat, s with
  | [], _ => true
  | p :: pat', c :: s' => eqCi p c && isPrefixCi pat' s'
  | _ :: _, [] => false
  end.

(** Index of the first case-insensitive occurrence of [pat] in [s]. *)
Fixpoint indexOfCi (pat s : list N) : option nat :=
  if isPrefixCi pat s then Some O
  else match s with
       | [] => None
       | _ :: t => option_map S (indexOfCi pat t)
       end.

(** [String.prototype.includes]. *)
Fixpoint includes (pat s : list N) : bool :=
  if isPrefix pat s then true
  else match s with
       | [] => false
       | _ :: t => includes pat t
       end.

(** *** Global replacement

    A [matcher] answers, for the text at the current position, whether the
    pattern matches there, and if so how many code units it consumes and
    what replaces them. Every pattern of this program consumes at least one
    code unit. *)
Definition matcher := list N -> option (nat * list N).

(** [str.replace(/re/g, repl)]: scan left to right; at a match emit the
    replacement and resume after it, otherwise copy one code unit. [skip]
    counts the code units of the current match still to be dropped. *)
Fixpoint replaceFrom (m : matcher) (skip : nat) (s : list N) : list N :=
  match s with
  | [] => []
  | c :: t =>
      match skip with
      | S k => replaceFrom m k t
      | O =>
          match m s with
          | Some (n, rep) => rep ++ replaceFrom m (Nat.pred n) t
          | None => c :: replaceFrom m O t
          end
      end
  end.

Definition replaceAll (m : matcher) (s : list N) : list N := replaceFrom m O s.

(** A literal pattern. *)
Definition literal (pat rep : list N) : matcher :=
  fun s => if isPrefix pat s then Some (List.length pat, rep) else None.

(** [/\s+/]: a maximal run of white space. *)
Definition spaceRun (rep : list N) : matcher :=
  fun s => match takeSpaces s with
           | [] => None
           | run => Some (List.length run, rep)
           end.

End JsString.
Export JsString.

(** ** Exceptions

    A call into a library of the host either returns a value or throws. *)

Inductive outcome (A : Type) : Type :=
| Returns (a : A)
| Throws.
Arguments Returns {A} a.
Arguments Throws {A}.

(** ** Text utilities ([src/utils/text.mjs] and the same helpers of the
    monolithic script) *)

Module Text.

Definition lt_sign : N := 60.
Definition gt_sign : N := 62.
Definition space : N := 32.

(** [/<style[\s\S]*?<\/style>/gi] and [/<script[\s\S]*?<\/script>/gi]: the
    opening word, then lazily anything up to the first closing tag. *)
Definition block (openTag closeTag : list N) : matcher :=
  fun s =>
    if isPrefixCi openTag s then
      match indexOfCi closeTag (drop (List.length openTag) s) with
      | Some i => Some ((List.length openTag + i + List.length closeTag)%nat, [])
      | None => None
      end
    else None.

Fixpoint takeUntilGt (s : list N) : list N :=
  match s with
  | c :: t => if c =? gt_sign then [] else c :: takeUntilGt t
  | [] => []
  end.

(** [/<[^>]+>/g], replaced by one space: [<], a non-empty greedy run of code
    units other than [>], then [>]. *)
Definition tag : matcher :=
  fun s =>
    match s with
    | c :: t =>
        if c =? lt_sign then
          match takeUntilGt t with
          | [] => None
          | run =>
              match drop (List.length run) t with
              | _ :: _ => Some (S (S (List.length run)), [space])
              | [] => None
              end
          end
        else None
    | [] => None
    end.

(** [decodeHtmlEntities]: the six replacements, in the order of the table. *)
Definition decodeHtmlEntities (text : list N) : list N :=
  let r := replaceAll (literal (js "&nbsp;") [space]) text in
  let r := replaceAll (literal (js "&amp;") (js "&")) r in
  let r := replaceAll (literal (js "&quot;") [34]) r in
  let r := replaceAll (literal (js "&#39;") (js "'")) r in
  let r := replaceAll (literal (js "&lt;") (js "<")) r in
  replaceAll (literal (js "&gt;") (js ">")) r.

(** [text.replace(/\s+/g, ' ').trim()] *)
Definition normalizeSpaces (text : list N) : list N :=
  trim (replaceAll (spaceRun [space]) text).

(** [stripHtml(input)]; [None] stands for [null] or [undefined]. *)
Definition stripHtml (input : option (list N)) : list N :=
  match input with
  | None => []
  | Some [] => []
  | Some input =>
      let text := replaceAll (block (js "<style") (js "</style>")) input in
      let text := replaceAll (block (js "<script") (js "</script>")) text in
      let text := replaceAll tag text in
      let text := decodeHtmlEntities text in
      normalizeSpaces text
  end.

(** *** MIME encoded words *)

Definition question : N := 63.
Definition equals : N := 61.

Fixpoint takeUntilQuestion (s : list N) : list N :=
  match s with
  | c :: t => if c =? question then [] else c :: takeUntilQuestion t
  | [] => []
  end.

Definition isHexDigit (c : N) : bool :=
  ((48 <=? c) && (c <=? 57)) || ((65 <=? c) && (c <=? 70))
  || ((97 <=? c) && (c <=? 102)).

Definition hexValue (c : N) : N :=
  if c <=? 57 then c - 48 else if c <=? 70 then c - 55 else c - 87.

(** [/=([0-9A-Fa-f]{2})/g] with [String.fromCharCode(parseInt(h, 16))]. *)
Definition hexEscape : matcher :=
  fun s =>
    match s with
    | e :: h1 :: h2 :: _ =>
        if (e =? equals) && isHexDigit h1 && isHexDigit h2
        then Some (3%nat, [16 * hexValue h1 + hexValue h2])
        else None
    | _ => None
    end.

(** The Q branch: underscores become spaces, then [=HH] escapes. *)
Definition decodeQ (text : list N) : list N :=
  replaceAll hexEscape (replaceAll (literal (js "_") [space]) text).

Definition isEncodingTag (c : N) : bool :=
  (c =? 81) || (c =? 113) || (c =? 66) || (c =? 98).

Section Mime.

(** [Buffer.from(text, 'base64').toString('utf8')], a service of the host:
    [Node.bufferBase64Utf8] further down. *)
Variable bufferBase64Utf8 : list N -> outcome (list N).

(** The replacement callback: the [try] block, and [return text] of the
    [catch] block. *)
Definition decodeWord (enc : N) (text : list N) : list N :=
  let attempt :=
    if asciiUpper enc =? 66 then bufferBase64Utf8 text
    else Returns (decodeQ text) in
  match attempt with
  | Returns decoded => decoded
  | Throws => text
  end.

(** [/=\?([^?]+)\?([QqBb])\?([^?]+)\?=/g] *)
Definition encodedWord : matcher :=
  fun s =>
    match s with
    | e :: q :: s1 =>
        if (e =? equals) && (q =? question) then
          let charset := takeUntilQuestion s1 in
          match charset, drop (List.length charset) s1 with
          | _ :: _, _ :: enc :: q2 :: s2 =>
              if isEncodingTag enc && (q2 =? question) then
                let text := takeUntilQuestion s2 in
                match text, drop (List.length text) s2 with
                | _ :: _, _ :: e2 :: _ =>
                    if e2 =? equals
                    then Some ((List.length charset + List.length text + 7)%nat,
                               decodeWord enc text)
                    else None
                | _, _ => None
                end
              else None
          | _, _ => None
          end
        else None
    | _ => None
    end.

(** [decodeMimeEncodedWords(str)] *)
Definition decodeMimeEncodedWords (str : option (list N)) : list N :=
  match str with
  | None => []
  | Some str => replaceAll encodedWord str
  end.

End Mime.

End Text.

(** ** Computations that may throw

    [outcome] is the monad of host calls; [prog S] adds a mutable store [S]
    that survives a throw, the way the [pairs] array of the extractor keeps
    what was pushed before an exception reached the [catch]. *)

Class Monad (m : Type -> Type) : Type := {
  ret : forall {A}, A -> m A;
  bind : forall {A B}, m A -> (A -> m B) -> m B
}.

Declare Scope monad_scope.
Delimit Scope monad_scope with monad.
Notation "x <- c ;; k" := (bind c (fun x => k))
  (at level 20, c at level 99, k at level 200, only parsing) : monad_scope.
Notation "c ;; k" := (bind c (fun _ => k))
  (at level 100, k at level 200, right associativity, only parsing)
  : monad_scope.
Local Open Scope monad_scope.

#[export] Instance outcome_monad : Monad outcome := {
  ret := fun A a => Returns a;
  bind := fun A B c k => match c with Returns a => k a | Throws => Throws end
}.

Definition prog (S A : Type) : Type := S -> outcome A * S.

#[export] Instance prog_monad (S : Type) : Monad (prog S) := {
  ret := fun A a s => (Returns a, s);
  bind := fun A B c k s =>
    match c s with
    | (Returns a, s') => k a s'
    | (Throws, s') => (Throws, s')
    end
}.

(** A host call inside a stateful computation. *)
Definition call {S A : Type} (c : outcome A) : prog S A := fun s => (c, s).

Definition getState {S : Type} : prog S S := fun s => (Returns s, s).

Definition modify {S : Type} (f : S -> S) : prog S unit :=
  fun s => (Returns tt, f s).

(** [try { body } catch (_) { handler }] *)
Definition tryCatch {S A : Type} (body handler : prog S A) : prog S A :=
  fun s =>
    match body s with
    | (Returns a, s') => (Returns a, s')
    | (Throws, s') => handler s'
    end.

(** [xs.each((_, x) => { step(x) })] and [for (const x of xs) step(x)]. *)
Fixpoint forEach {S X : Type} (xs : list X) (step : X -> prog S unit)
  : prog S unit :=
  match xs with
  | [] => ret tt
  | x :: rest => step x ;; forEach rest step
  end.

(** First success of [f] along [l], in order. *)
Fixpoint firstSome {A B : Type} (f : A -> option B) (l : list A) : option B :=
  match l with
  | [] => None
  | a :: rest => match f a with Some b => Some b | None => firstSome f rest end
  end.

(** [!s] for a string: only the empty string is falsy. *)
Definition falsy (s : list N) : bool :=
  match s with [] => true | _ :: _ => false end.

(** ** Pairs and the [addPair] gate *)

Record Pair : Type := mkPair { artist : list N; album : list N }.

#[export] Instance Pair_eq_dec : EqDecision Pair.
Proof. solve_decision. Defined.

Module Gate.
Section Gate.

(** [String.prototype.toLowerCase], a service of the engine (full Unicode
    case mapping); every result below holds for any such function. *)
Variable toLowerCase : list N -> list N.

(** [`${p.artist.toLowerCase()}::${p.album.toLowerCase()}`] *)
Definition pairKey (p : Pair) : list N :=
  toLowerCase (artist p) ++ js "::" ++ toLowerCase (album p).

(** [pairs.some((p) => key(p) === key)] *)
Definition hasKey (key : list N) (pairs : list Pair) : bool :=
  existsb (fun p => bool_decide (pairKey p = key)) pairs.

(** The closure [addPair] of [extractAlbumArtistPairs], as a function of the
    [pairs] array it mutates. *)
Definition addPair (artist album : list N) (pairs : list Pair) : list Pair :=
  let a := trim artist in
  let b := trim album in
  if falsy a || falsy b || (List.length a <? 2)%nat || (List.length b <? 2)%nat
  then pairs
  else
    let key := toLowerCase a ++ js "::" ++ toLowerCase b in
    if hasKey key pairs then pairs
    else pairs ++ [mkPair a b].

End Gate.
End Gate.

(** ** The markup library

    The extractor navigates the document through cheerio. A selection is an
    ordered list of nodes; [first()], [length] and the wrapping [$(el)] are
    list operations, every other call is a service of the library and may
    throw. *)

Inductive selector : Type :=
| sel_card            (** ['table.text_block.block-2'] *)
| sel_card_artist     (** ['p strong a[rel="noopener"]'] *)
| sel_strong_a        (** ['strong a'] *)
| sel_em              (** ['em'] *)
| sel_p               (** ['p'] *)
| sel_container       (** ['table, td, div'] *)
| sel_img.            (** ['img[alt], img[title]'] *)

Inductive attribute : Type := attr_alt | attr_title.

#[export] Instance attribute_eq_dec : EqDecision attribute.
Proof. solve_decision. Defined.

Class Cheerio : Type := {
  Document : Type;
  Node : Type;
  (** [load(rawBody, { decodeEntities: true })] *)
  loadHtml : option (list N) -> outcome Document;
  (** [$(selector)] *)
  select : Document -> selector -> outcome (list Node);
  find : list Node -> selector -> outcome (list Node);
  closest : list Node -> selector -> outcome (list Node);
  nextAll : list Node -> selector -> outcome (list Node);
  next : list Node -> outcome (list Node);
  parent : list Node -> outcome (list Node);
  text : list Node -> outcome (list N);
  (** [attr(name)]; [None] is [undefined]. *)
  attr : list Node -> attribute -> outcome (option (list N))
}.

(** [selection.first()] *)
Definition first {A : Type} (sel : list A) : list A := List.firstn 1 sel.

(** ** Patterns of the extractor *)

Module Patterns.

Definition isDash (c : N) : bool := (c =? 0x2013) || (c =? 45).
Definition isSeparator (c : N) : bool := (c =? 58) || isDash c.

Definition noLineTerminator (s : list N) : bool :=
  forallb (fun c => negb (isLineTerminator c)) s.

(** The remainders a greedy [\s*] can leave, longest run first. *)
Fixpoint afterSpaces (s : list N) : list (list N) :=
  match s with
  | c :: t => if isSpace c then afterSpaces t ++ [s] else [s]
  | [] => [[]]
  end.

(** The remainders a greedy [\s+] can leave, longest run first. *)
Definition afterSpaces1 (s : list N) : list (list N) :=
  match s with
  | c :: t => if isSpace c then afterSpaces t else []
  | [] => []
  end.

(** The lengths a group [(.{lo,hi})] can take at the start of [s]: [.] stops
    at a line terminator. *)
Fixpoint dotRun (s : list N) : nat :=
  match s with
  | c :: t => if isLineTerminator c then O else S (dotRun t)
  | [] => O
  end.

(** Ascending lengths [lo..hi], the order of a lazy quantifier. *)
Definition lengthsLazy (lo hi : nat) : list nat := seq lo (S hi - lo).
(** Descending lengths [hi..lo], the order of a greedy quantifier. *)
Definition lengthsGreedy (lo hi : nat) : list nat := rev (lengthsLazy lo hi).

(** [$] after a final group [(.{lo,hi})]: the group takes the whole rest. *)
Definition restIs (lo hi : nat) (s : list N) : option (list N) :=
  if (lo <=? List.length s)%nat && (List.length s <=? hi)%nat
     && noLineTerminator s
  then Some s else None.

(** [/^(.{2,80})\s*[:–-]\s*(.{2,140})$/] on the text of an image. *)
Definition imagePattern (txt : list N) : option (list N * list N) :=
  firstSome
    (fun n1 =>
       firstSome
         (fun r1 =>
            match r1 with
            | c :: r2 =>
                if isSeparator c
                then firstSome
                       (fun r3 => option_map (fun g2 => (take n1 txt, g2))
                                             (restIs 2 140 r3))
                       (afterSpaces r2)
                else None
            | [] => None
            end)
         (afterSpaces (drop n1 txt)))
    (lengthsGreedy 2 (Nat.min 80 (dotRun txt))).

(** [/^(.*?)\s*[–-]\s*(.*?)$/] on a line. *)
Definition patternArtistDashAlbum (line : list N) : option (list N * list N) :=
  firstSome
    (fun n1 =>
       firstSome
         (fun r1 =>
            match r1 with
            | c :: r2 =>
                if isDash c
                then firstSome
                       (fun r3 => option_map (fun g2 => (take n1 line, g2))
                                             (restIs 0 (List.length r3) r3))
                       (afterSpaces r2)
                else None
            | [] => None
            end)
         (afterSpaces (drop n1 line)))
    (lengthsLazy 0 (dotRun line)).

(** [/^(.*?)\s+by\s+(.*?)$/i] on a line. *)
Definition patternAlbumByArtist (line : list N) : option (list N * list N) :=
  firstSome
    (fun n1 =>
       firstSome
         (fun r1 =>
            match r1 with
            | b :: y :: r2 =>
                if eqCi 98 b && eqCi 121 y
                then firstSome
                       (fun r3 => option_map (fun g2 => (take n1 line, g2))
                                             (restIs 0 (List.length r3) r3))
                       (afterSpaces1 r2)
                else None
            | _ => None
            end)
         (afterSpaces1 (drop n1 line)))
    (lengthsLazy 0 (dotRun line)).

(** [text.split(/\n|\r|\r\n|\u2028|\u2029/g)]: the alternatives are tried in
    order, so a carriage return is always taken alone and every line
    terminator is a separator of its own. *)
Fixpoint splitLines (s : list N) : list (list N) :=
  match s with
  | [] => [[]]
  | c :: t =>
      if isLineTerminator c then [] :: splitLines t
      else match splitLines t with
           | l :: ls => (c :: l) :: ls
           | [] => [[c]]
           end
  end.

End Patterns.

(** ** The markup strategies, common to both extractors

    [services/email/parser.mjs] and the monolithic script carry the same
    three strategies over the same [pairs] array; they differ in
    [findNearestEm] and in what follows the [try] block. *)

Module Strategies.
Section Strategies.

Context {cheerio : Cheerio}.
Variable toLowerCase : list N -> list N.

(** [addPair(artist, album)] acting on the [pairs] array. *)
Definition addPair (artist album : list N) : prog (list Pair) unit :=
  modify (Gate.addPair toLowerCase artist album).

(** [(sel.text() || '').trim()] *)
Definition trimmedText (sel : list Node) : outcome (list N) :=
  t <- text sel ;; ret (trim t).

(** The artist and album of one card, the body of the first [each] up to
    its call of [addPair]. *)
Definition cardCandidate (block : Node) : outcome (list N * list N) :=
  let root := [block] in
  links <- find root sel_card_artist ;;
  let artistLink := first links in
  linkText <- trimmedText artistLink ;;
  artist <- (if falsy linkText
             then strongLinks <- find root sel_strong_a ;;
                  trimmedText (first strongLinks)
             else ret linkText) ;;
  following <- match artistLink with
               | [] => ret []
               | _ :: _ =>
                   artistP <- closest artistLink sel_p ;;
                   match artistP with
                   | [] => ret []
                   | _ :: _ =>
                       paragraphs <- nextAll artistP sel_p ;;
                       ems <- find paragraphs sel_em ;;
                       match first ems with
                       | [] => ret []
                       | nextEm => trimmedText nextEm
                       end
                   end
               end ;;
  album <- (if falsy following
            then ems <- find root sel_em ;; trimmedText (first ems)
            else ret following) ;;
  ret (artist, album).

Definition cardStep (block : Node) : prog (list Pair) unit :=
  pairs <- getState ;;
  if (10 <=? List.length pairs)%nat then ret tt
  else
    candidate <- call (cardCandidate block) ;;
    addPair (fst candidate) (snd candidate).

(** [em = sel.find('em').first(); if (em && em.length) { const text =
    em.text().trim(); if (text) return text; }]: [Some] is the early
    return. *)
Definition emText (sel : list Node) : outcome (option (list N)) :=
  ems <- find sel sel_em ;;
  match first ems with
  | [] => ret None
  | em =>
      t <- trimmedText em ;;
      ret (if falsy t then None else Some t)
  end.

(** [for (let i = 0; i < 4 && next && next.length; i++) { ...; next =
    next.next(); }] with [remaining = 4 - i]. *)
Fixpoint siblingScan (remaining : nat) (sibling : list Node)
  : outcome (option (list N)) :=
  match remaining, sibling with
  | S remaining', _ :: _ =>
      found <- emText sibling ;;
      match found with
      | Some t => ret (Some t)
      | None => following <- next sibling ;; siblingScan remaining' following
      end
  | _, _ => ret None
  end.

(** The proximity strategy, for a given [findNearestEm]. *)
Definition linkStep (findNearestEm : Node -> outcome (list N)) (el : Node)
  : prog (list Pair) unit :=
  pairs <- getState ;;
  if (10 <=? List.length pairs)%nat then ret tt
  else
    artist <- call (trimmedText [el]) ;;
    album <- call (findNearestEm el) ;;
    addPair artist album.

(** [for (const txt of candidates) { const m = txt.match(pat); if (m) {
    addPair(m[1], m[2]); if (pairs.length >= 10) break; } }] *)
Fixpoint candidateLoop (candidates : list (list N)) : prog (list Pair) unit :=
  match candidates with
  | [] => ret tt
  | txt :: rest =>
      match Patterns.imagePattern txt with
      | Some (g1, g2) =>
          addPair g1 g2 ;;
          pairs <- getState ;;
          if (10 <=? List.length pairs)%nat then ret tt
          else candidateLoop rest
      | None => candidateLoop rest
      end
  end.

(** [($(img).attr(name) || '').trim()] *)
Definition attrText (img : Node) (name : attribute) : outcome (list N) :=
  value <- attr [img] name ;;
  ret (trim (default [] value)).

Definition imageStep (img : Node) : prog (list Pair) unit :=
  pairs <- getState ;;
  if (10 <=? List.length pairs)%nat then ret tt
  else
    alt <- call (attrText img attr_alt) ;;
    title <- call (attrText img attr_title) ;;
    candidateLoop (List.filter (fun s => negb (falsy s)) [alt; title]).

(** The statements of the [try] block up to the image strategy. *)
Definition markup (findNearestEm : Node -> outcome (list N))
    (rawBody : option (list N)) : prog (list Pair) unit :=
  doc <- call (loadHtml rawBody) ;;
  cards <- call (select doc sel_card) ;;
  forEach cards cardStep ;;
  pairs <- getState ;;
  (if (List.length pairs <? 10)%nat
   then links <- call (select doc sel_strong_a) ;;
        forEach links (linkStep findNearestEm)
   else ret tt) ;;
  pairs <- getState ;;
  if (List.length pairs <? 10)%nat
  then imgs <- call (select doc sel_img) ;;
       forEach imgs imageStep
  else ret tt.

End Strategies.
End Strategies.

(** ** [src/services/email/parser.mjs] *)

Module Parser.
Section Parser.

Context {cheerio : Cheerio}.
Variable toLowerCase : list N -> list N.

(** [_findNearestEm(startEl)] *)
Definition _findNearestEm (startEl : Node) : outcome (list N) :=
  container <- closest [startEl] sel_container ;;
  found <- Strategies.emText container ;;
  match found with
  | Some t => ret t
  | None =>
      sibling <- next container ;;
      found <- Strategies.siblingScan 4 sibling ;;
      match found with
      | Some t => ret t
      | None => ret []
      end
  end.

(** The function body over the [pairs] array; the [catch] block only logs. *)
Definition extractProgram (rawBody : option (list N))
  : prog (list Pair) (list Pair) :=
  tryCatch (Strategies.markup toLowerCase _findNearestEm rawBody) (ret tt) ;;
  pairs <- getState ;;
  ret pairs.

(** [extractAlbumArtistPairs(rawBody)]: [pairs] starts empty. *)
Definition extractAlbumArtistPairs (rawBody : option (list N))
  : outcome (list Pair) :=
  fst (extractProgram rawBody []).

End Parser.
End Parser.

(** ** [pitchfork_spotify_playlist.mjs]: the extractor *)

Module Monolith.
Section Extractor.

Context {cheerio : Cheerio}.
Variable toLowerCase : list N -> list N.

(** [stripHtml(input)], with the entity replacements written in line. *)
Definition stripHtml (input : option (list N)) : list N :=
  match input with
  | None => []
  | Some [] => []
  | Some input =>
      let text := replaceAll (Text.block (js "<style") (js "</style>")) input in
      let text := replaceAll (Text.block (js "<script") (js "</script>")) text in
      let text := replaceAll Text.tag text in
      let text := replaceAll (literal (js "&nbsp;") [Text.space]) text in
      let text := replaceAll (literal (js "&amp;") (js "&")) text in
      let text := replaceAll (literal (js "&quot;") [34]) text in
      let text := replaceAll (literal (js "&#39;") (js "'")) text in
      let text := replaceAll (literal (js "&lt;") (js "<")) text in
      let text := replaceAll (literal (js "&gt;") (js ">")) text in
      trim (replaceAll (spaceRun [Text.space]) text)
  end.

(** [findNearestEm(startEl)], with its second walk over the siblings. *)
Definition findNearestEm (startEl : Node) : outcome (list N) :=
  container <- closest [startEl] sel_container ;;
  found <- Strategies.emText container ;;
  match found with
  | Some t => ret t
  | None =>
      sibling <- next container ;;
      found <- Strategies.siblingScan 4 sibling ;;
      match found with
      | Some t => ret t
      | None =>
          up <- parent container ;;
          match up with
          | [] => ret []
          | _ :: _ =>
              sib <- next container ;;
              found <- Strategies.siblingScan 4 sib ;;
              match found with
              | Some t => ret t
              | None => ret []
              end
          end
      end
  end.

(** The [try] block: [Some result] is [return pairs.slice(0, 10)], [None]
    is falling out of the block. *)
Definition tryBlock (rawBody : option (list N))
  : prog (list Pair) (option (list Pair)) :=
  Strategies.markup toLowerCase findNearestEm rawBody ;;
  pairs <- getState ;;
  if (1 <=? List.length pairs)%nat then ret (Some (take 10 pairs))
  else ret None.

(** The loop over the plain-text lines. *)
Fixpoint lineLoop (lines : list (list N)) : prog (list Pair) unit :=
  match lines with
  | [] => ret tt
  | line :: rest =>
      pairs <- getState ;;
      if (10 <=? List.length pairs)%nat then ret tt
      else
        match Patterns.patternArtistDashAlbum line with
        | Some (g1, g2) =>
            Strategies.addPair toLowerCase (trim g1) (trim g2)
        | None =>
            match Patterns.patternAlbumByArtist line with
            | Some (g1, g2) =>
                Strategies.addPair toLowerCase (trim g2) (trim g1)
            | None => ret tt
            end
        end ;;
        lineLoop rest
  end.

(** [text.split(...).map((l) => l.trim()).filter(Boolean)] *)
Definition plainLines (text : list N) : list (list N) :=
  List.filter (fun l => negb (falsy l)) (List.map trim (Patterns.splitLines text)).

(** The plain-text fallback, the statements after the [try] block. *)
Definition fallback (rawBody : option (list N))
  : prog (list Pair) (list Pair) :=
  lineLoop (plainLines (stripHtml rawBody)) ;;
  pairs <- getState ;;
  ret (take 10 pairs).

Definition extractProgram (rawBody : option (list N))
  : prog (list Pair) (list Pair) :=
  early <- tryCatch (tryBlock rawBody) (ret None) ;;
  match early with
  | Some result => ret result
  | None => fallback rawBody
  end.

(** [extractAlbumArtistPairs(rawBody)]: [pairs] starts empty. *)
Definition extractAlbumArtistPairs (rawBody : option (list N))
  : outcome (list Pair) :=
  fst (extractProgram rawBody []).

End Extractor.
End Monolith.

(** ** [uniqueBy] ([src/utils/collections] and the monolithic script) *)

Module Collections.
Section UniqueBy.

Context {A K : Type} `{Countable K}.

(** The loop of [uniqueBy] from a given [seen] set; the result is what the
    loop pushes from here on. *)
Fixpoint uniqueByFrom (keyFn : A -> K) (seen : gset K) (array : list A)
  : list A :=
  match array with
  | [] => []
  | item :: rest =>
      let key := keyFn item in
      if decide (key ∈ seen) then uniqueByFrom keyFn seen rest
      else item :: uniqueByFrom keyFn ({[key]} ∪ seen) rest
  end.

(** [uniqueBy(array, keyFn)] *)
Definition uniqueBy (array : list A) (keyFn : A -> K) : list A :=
  uniqueByFrom keyFn ∅ array.

End UniqueBy.
End Collections.

(** ** A [Map] with insertion order *)

Module JsMap.
Section JsMap.

Context {K V : Type} `{EqDecision K}.

(** [map.get(k)]; [None] is [undefined]. *)
Fixpoint get (k : K) (m : list (K * V)) : option V :=
  match m with
  | [] => None
  | (k', v) :: rest => if decide (k = k') then Some v else get k rest
  end.

(** [map.set(k, v)]: an existing key keeps its place. *)
Fixpoint set (k : K) (v : V) (m : list (K * V)) : list (K * V) :=
  match m with
  | [] => [(k, v)]
  | (k', v') :: rest =>
      if decide (k = k') then (k, v) :: rest else (k', v') :: set k v rest
  end.

End JsMap.
End JsMap.

(** ** The aggregation loop ([main] of the monolithic script and
    [syncPlaylistsFromEmails] of the sync service) *)

(** The value of [mail.uid]: [null], an integer, or a number that is not an
    integer. *)
Inductive JsUid : Type :=
| UidNull
| UidInteger (z : Z)
| UidNotInteger.

(** [Number.isInteger(uid)] *)
Definition isInteger (u : JsUid) : bool :=
  match u with UidInteger _ => true | _ => false end.

(** A [Date] as [getFullYear()] and [getMonth()] show it. *)
Inductive JsDate : Type :=
| ValidDate (fullYear : Z) (month : Z)
| InvalidDate.

Record Email : Type := mkEmail {
  uid : JsUid;
  date : JsDate;
  from : list N;
  subject : list N;
  body : option (list N)
}.

Module Dates.

(** [String(n)] for an integer. *)
Definition numberToString (z : Z) : list N :=
  js (DecimalString.NilZero.string_of_int (Z.to_int z)).

(** [s.padStart(2, '0')] *)
Definition padStart2 (s : list N) : list N :=
  repeat 48 (2 - List.length s)%nat ++ s.

(** [formatMonthYYYYMM(date)] *)
Definition formatMonthYYYYMM (d : JsDate) : list N :=
  match d with
  | ValidDate yyyy month =>
      numberToString yyyy ++ js "-" ++ padStart2 (numberToString (month + 1))
  | InvalidDate => js "NaN-NaN"
  end.

End Dates.

Module Aggregator.

Record State : Type := mkState {
  monthToPairs : list (list N * list Pair);
  successfulEmailUids : gset Z;
  (** the UIDs reported by the warnings *)
  warnings : list JsUid
}.

Definition initial : State :=
  {| monthToPairs := []; successfulEmailUids := ∅; warnings := [] |}.

Section Loop.

Variable toLowerCase : list N -> list N.
(** The sender and subject check at the head of the loop body. *)
Variable accepts : Email -> bool.
Variable extractAlbumArtistPairs : option (list N) -> outcome (list Pair).

Definition dedupe (pairs : list Pair) : list Pair :=
  Collections.uniqueBy pairs (Gate.pairKey toLowerCase).

Definition warn (u : JsUid) (st : State) : State :=
  {| monthToPairs := monthToPairs st;
     successfulEmailUids := successfulEmailUids st;
     warnings := warnings st ++ [u] |}.

(** [monthToPairs.set(monthStr, (monthToPairs.get(monthStr) || []).concat(pairs))] *)
Definition collect (monthStr : list N) (pairs : list Pair) (st : State)
  : State :=
  let existing := default [] (JsMap.get monthStr (monthToPairs st)) in
  {| monthToPairs := JsMap.set monthStr (existing ++ pairs) (monthToPairs st);
     successfulEmailUids := successfulEmailUids st;
     warnings := warnings st |}.

(** [if (Number.isInteger(mail.uid)) successfulEmailUids.add(mail.uid)] *)
Definition markSuccessful (u : JsUid) (st : State) : State :=
  match u with
  | UidInteger z =>
      {| monthToPairs := monthToPairs st;
         successfulEmailUids := {[z]} ∪ successfulEmailUids st;
         warnings := warnings st |}
  | _ => st
  end.

(** The body of [for (const mail of emails)]. *)
Definition processMail (mail : Email) : prog State unit :=
  if negb (accepts mail) then ret tt
  else
    rawPairs <- call (extractAlbumArtistPairs (body mail)) ;;
    let pairs := dedupe rawPairs in
    match pairs with
    | [] => modify (warn (uid mail))
    | _ :: _ =>
        let monthStr := Dates.formatMonthYYYYMM (date mail) in
        modify (collect monthStr pairs) ;;
        modify (markSuccessful (uid mail))
    end.

Definition processEmails (emails : list Email) : prog State unit :=
  forEach emails processMail.

(** What [for (const [monthStr, rawPairs] of monthToPairs.entries())] hands
    to the catalog: each month with its list deduplicated once more, empty
    lists skipped. *)
Definition catalogWork (m : list (list N * list Pair))
  : list (list N * list Pair) :=
  List.filter (fun entry => negb (bool_decide (snd entry = [])))
              (List.map (fun entry => (fst entry, dedupe (snd entry))) m).

End Loop.
End Aggregator.

(** The two loops. *)

Module Main.
Section Main.

Context {cheerio : Cheerio}.
Variable toLowerCase : list N -> list N.
Variable bufferBase64Utf8 : list N -> outcome (list N).

Definition EXPECTED_FROM : list N := js "newsletter@pitchfork.com".
Definition EXPECTED_SUBJECT : list N := js "10 Best Reviewed Albums of the Week".

(** The negation of the [continue] test of [main]. *)
Definition accepts (mail : Email) : bool :=
  includes EXPECTED_FROM (toLowerCase (from mail))
  && bool_decide
       (trim (Text.decodeMimeEncodedWords bufferBase64Utf8 (Some (subject mail)))
        = EXPECTED_SUBJECT).

Definition processEmails (emails : list Email) : prog Aggregator.State unit :=
  Aggregator.processEmails toLowerCase accepts
    (Monolith.extractAlbumArtistPairs toLowerCase) emails.

End Main.
End Main.

Module Sync.
Section Sync.

Context {cheerio : Cheerio}.
Variable toLowerCase : list N -> list N.

(** The negation of the [continue] test of [syncPlaylistsFromEmails]. *)
Definition accepts (mail : Email) : bool :=
  includes (js "newsletter@pitchfork.com") (toLowerCase (from mail)).

Definition processEmails (emails : list Email) : prog Aggregator.State unit :=
  Aggregator.processEmails toLowerCase accepts
    (Parser.extractAlbumArtistPairs toLowerCase) emails.

End Sync.
End Sync.

(** ** [reorderPlaylistByDateAdded] *)

Module Playlist.

(** An entry of [data.items]: the URI of its track, if any, and the time
    [new Date(item.added_at).getTime()]. *)
Record Item : Type := mkItem { track_uri : option (list N); added_at : Z }.

(** An entry of the local [tracks] array. *)
Record Track : Type := mkTrack { uri : list N; added : Z }.

(** The body of the [PUT] request. *)
Record ReorderBody : Type := mkReorder {
  range_start : nat;
  range_length : nat;
  insert_before : nat
}.

(** The [while (url)] loop over the pages the catalog returns. *)
Fixpoint collectTracks (pages : list (list Item)) : list Track :=
  match pages with
  | [] => []
  | items :: rest =>
      omap (fun item => option_map (fun u => mkTrack u (added_at item))
                                   (track_uri item)) items
      ++ collectTracks rest
  end.

(** [tracks.sort((a, b) => b.added_at.getTime() - a.added_at.getTime())]:
    a stable sort, newest first. *)
Fixpoint insertByDate (t : Track) (sorted : list Track) : list Track :=
  match sorted with
  | [] => [t]
  | x :: rest =>
      if (added x <=? added t)%Z then t :: x :: rest
      else x :: insertByDate t rest
  end.

Fixpoint sortByDateAdded (tracks : list Track) : list Track :=
  match tracks with
  | [] => []
  | t :: rest => insertByDate t (sortByDateAdded rest)
  end.

(** The request [reorderPlaylistByDateAdded] sends, if any. *)
Definition reorderRequest (pages : list (list Item)) : option ReorderBody :=
  let tracks := collectTracks pages in
  match tracks with
  | [] => None
  | _ :: _ =>
      let tracks := sortByDateAdded tracks in
      let trackUris := List.map uri tracks in
      let rangeLength := List.length trackUris in
      Some {| range_start := 0;
              range_length := rangeLength;
              insert_before := rangeLength |}
  end.

(** The reorder endpoint of the catalog, as its documentation describes it:
    the [range_length] items from [range_start] are taken out and inserted
    before the item that stood at [insert_before]. *)
Definition applyReorder {X : Type} (b : ReorderBody) (items : list X) : list X :=
  let moved := take (range_length b) (drop (range_start b) items) in
  let remaining :=
    take (range_start b) items ++ drop (range_start b + range_length b) items in
  let position :=
    if (range_start b <? insert_before b)%nat
    then (insert_before b - range_length b)%nat
    else insert_before b in
  take position remaining ++ moved ++ drop position remaining.

(** The playlist after [reorderPlaylistByDateAdded]. *)
Definition reorderPlaylistByDateAdded (pages : list (list Item)) : list Item :=
  match reorderRequest pages with
  | Some b => applyReorder b (concat pages)
  | None => concat pages
  end.

End Playlist.

(** ** Documents to run the extractors on

    A small document model that implements the [Cheerio] interface: the
    nodes of a parsed document in document order, each with the index of
    its parent. It stands for what the markup library makes of a body. *)

Module Dom.

Record NodeRec : Type := mkNode {
  tag : string;                      (** ["#text"] for a text node *)
  parentIndex : option nat;
  classes : list string;
  attributes : list (attribute * list N);
  rel : option string;
  data : list N                      (** the characters of a text node *)
}.

Definition element (t : string) (p : option nat) : NodeRec :=
  mkNode t p [] [] None [].
Definition textNode (p : nat) (s : string) : NodeRec :=
  mkNode "#text" (Some p) [] [] None (js s).

Section Document.

Variable doc : list NodeRec.

Definition tagOf (i : nat) : string :=
  match doc !! i with Some n => tag n | None => ""%string end.

Definition parentOf (i : nat) : option nat :=
  match doc !! i with Some n => parentIndex n | None => None end.

(** The ancestors of a node, nearest first. *)
Fixpoint ancestorsFrom (fuel : nat) (i : nat) : list nat :=
  match fuel with
  | O => []
  | S fuel' =>
      match parentOf i with
      | Some p => p :: ancestorsFrom fuel' p
      | None => []
      end
  end.

Definition ancestors (i : nat) : list nat := ancestorsFrom (List.length doc) i.

Definition isElement (i : nat) : bool :=
  negb (bool_decide (tagOf i = "#text"%string))
  && bool_decide (i < List.length doc)%nat.

Definition hasTag (t : string) (i : nat) : bool := bool_decide (tagOf i = t).

(** An ancestor chain for descendant combinators, nearest tag first. *)
Fixpoint under (tags : list string) (above : list nat) : bool :=
  match tags with
  | [] => true
  | t :: tags' =>
      match above with
      | [] => false
      | a :: above' =>
          if hasTag t a then under tags' above' else under tags above'
      end
  end.

Definition matches (s : selector) (i : nat) : bool :=
  match doc !! i with
  | None => false
  | Some n =>
      match s with
      | sel_card =>
          hasTag "table" i
          && bool_decide ("text_block"%string ∈ classes n)
          && bool_decide ("block-2"%string ∈ classes n)
      | sel_card_artist =>
          hasTag "a" i && bool_decide (rel n = Some "noopener"%string)
          && under ["strong"; "p"]%string (ancestors i)
      | sel_strong_a => hasTag "a" i && under ["strong"]%string (ancestors i)
      | sel_em => hasTag "em" i
      | sel_p => hasTag "p" i
      | sel_container => hasTag "table" i || hasTag "td" i || hasTag "div" i
      | sel_img =>
          hasTag "img" i && negb (bool_decide (attributes n = []))
      end
  end.

Definition indices : list nat := seq 0 (List.length doc).

Definition isDescendantOfAny (sel : list nat) (i : nat) : bool :=
  existsb (fun a => bool_decide (a ∈ sel)) (ancestors i).

Definition domSelect (s : selector) : list nat := List.filter (matches s) indices.

Definition domFind (sel : list nat) (s : selector) : list nat :=
  List.filter (fun i => matches s i && isDescendantOfAny sel i) indices.

Definition closestOf (s : selector) (i : nat) : option nat :=
  List.find (matches s) (i :: ancestors i).

Definition domClosest (sel : list nat) (s : selector) : list nat :=
  remove_dups (omap (closestOf s) sel).

(** The element siblings after a node. *)
Definition followingSiblings (i : nat) : list nat :=
  List.filter (fun j => bool_decide (i < j)%nat && isElement j
                        && bool_decide (parentOf j = parentOf i))
              indices.

Definition domNextAll (sel : list nat) (s : selector) : list nat :=
  List.filter (fun j => matches s j
                        && existsb (fun i => bool_decide (j ∈ followingSiblings i)) sel)
              indices.

Definition domNext (sel : list nat) : list nat :=
  remove_dups (omap (fun i => head (followingSiblings i)) sel).

Definition domParent (sel : list nat) : list nat :=
  remove_dups (omap parentOf sel).

(** The text of a node: its text descendants, in document order. *)
Definition textOf (i : nat) : list N :=
  concat (List.map (fun j => match doc !! j with
                             | Some n =>
                                 if bool_decide (j = i) || isDescendantOfAny [i] j
                                 then data n else []
                             | None => []
                             end) indices).

Definition domText (sel : list nat) : list N := concat (List.map textOf sel).

Definition domAttr (sel : list nat) (name : attribute) : option (list N) :=
  match sel with
  | i :: _ =>
      match doc !! i with
      | Some n => snd <$> List.find (fun kv => bool_decide (fst kv = name)) (attributes n)
      | None => None
      end
  | [] => None
  end.

End Document.

(** A node together with the document it belongs to. *)
Definition docOf (sel : list (list NodeRec * nat)) : list NodeRec :=
  match sel with
  | (doc, _) :: _ => doc
  | [] => []
  end.

Definition within (sel : list (list NodeRec * nat))
    (f : list NodeRec -> list nat -> list nat) : list (list NodeRec * nat) :=
  List.map (pair (docOf sel)) (f (docOf sel) (List.map snd sel)).

(** The library, given what it parses each body to. *)
Definition parsedBy (parse : option (list N) -> list NodeRec) : Cheerio := {|
  Document := list NodeRec;
  Node := list NodeRec * nat;
  loadHtml := fun rawBody => Returns (parse rawBody);
  select := fun doc s => Returns (List.map (pair doc) (domSelect doc s));
  find := fun sel s => Returns (within sel (fun doc nodes => domFind doc nodes s));
  closest := fun sel s => Returns (within sel (fun doc nodes => domClosest doc nodes s));
  nextAll := fun sel s => Returns (within sel (fun doc nodes => domNextAll doc nodes s));
  next := fun sel => Returns (within sel domNext);
  parent := fun sel => Returns (within sel domParent);
  text := fun sel => Returns (domText (docOf sel) (List.map snd sel));
  attr := fun sel name => Returns (domAttr (docOf sel) (List.map snd sel) name)
|}.

(** The library, when every body parses to the same document. *)
Definition parsedAs (doc : list NodeRec) : Cheerio := parsedBy (fun _ => doc).

(** The library failing on every body. *)
Definition failing : Cheerio := {|
  Document := unit;
  Node := nat;
  loadHtml := fun _ => Throws;
  select := fun _ _ => Throws;
  find := fun _ _ => Throws;
  closest := fun _ _ => Throws;
  nextAll := fun _ _ => Throws;
  next := fun _ => Throws;
  parent := fun _ => Throws;
  text := fun _ => Throws;
  attr := fun _ _ => Throws
|}.

(** [toLowerCase] on ASCII text. *)
Definition asciiLower (s : list N) : list N :=
  List.map (fun c => if (65 <=? c) && (c <=? 90) then c + 32 else c) s.

(** One card of the newsletter as the library builds it, rooted at index
    [base] under the body (node [2]): [table.text_block.block-2] with its
    row in a [tbody], and in the cell a paragraph with the artist link and
    a paragraph with the album. *)
Definition card (base : nat) (artistName albumName : string) : list NodeRec :=
  [ mkNode "table" (Some 2%nat) ["text_block"; "block-2"]%string [] None [];
    element "tbody" (Some base);
    element "tr" (Some (base + 1)%nat);
    element "td" (Some (base + 2)%nat);
    element "p" (Some (base + 3)%nat);
    element "strong" (Some (base + 4)%nat);
    mkNode "a" (Some (base + 5)%nat) [] [] (Some "noopener"%string) [];
    textNode (base + 6) artistName;
    element "p" (Some (base + 3)%nat);
    element "em" (Some (base + 8)%nat);
    textNode (base + 9) albumName ].

Fixpoint cardsFrom (base : nat) (cs : list (string * string)) : list NodeRec :=
  match cs with
  | [] => []
  | (a, b) :: rest => card base a b ++ cardsFrom (base + 11) rest
  end.

(** A document whose body holds the given cards. *)
Definition newsletter (cs : list (string * string)) : list NodeRec :=
  element "html" None :: element "head" (Some 0%nat)
    :: element "body" (Some 0%nat) :: cardsFrom 3 cs.

End Dom.

(** ** Vocabulary of the properties *)

Module Props.

(** After [/\s+/g -> ' '] the only white space left is the space itself. *)
Definition plain (c : N) : Prop := isSpace c = false \/ c = 32.

(** [collapsed s]: every white-space character of [s] is a single space
    that no other white space follows. *)
Fixpoint collapsed (s : list N) : Prop :=
  match s with
  | [] => True
  | c :: t =>
      if isSpace c
      then c = 32 /\ match t with [] => True | d :: _ => isSpace d = false end
           /\ collapsed t
      else collapsed t
  end.

(** [nowhere m s]: the pattern [m] matches at no position of [s]. *)
Fixpoint nowhere (m : matcher) (s : list N) : Prop :=
  match s with
  | [] => True
  | _ :: t => m s = None /\ nowhere m t
  end.

(** Text in which [stripHtml] finds nothing to remove or decode: no style
    or script block, no tag, none of the six entities. *)
Definition markupFree (s : list N) : Prop :=
  nowhere (Text.block (js "<style") (js "</style>")) s
  /\ nowhere (Text.block (js "<script") (js "</script>")) s
  /\ nowhere Text.tag s
  /\ includes (js "&nbsp;") s = false
  /\ includes (js "&amp;") s = false
  /\ includes (js "&quot;") s = false
  /\ includes (js "&#39;") s = false
  /\ includes (js "&lt;") s = false
  /\ includes (js "&gt;") s = false.

(** An encoded word, as the pattern reads it. *)
Definition encoded (charset : list N) (enc : N) (text : list N) : list N :=
  js "=?" ++ charset ++ [Text.question; enc; Text.question] ++ text ++ js "?=".

Definition wellFormed (charset : list N) (enc : N) (text : list N) : Prop :=
  charset <> [] /\ Forall (fun c => c <> Text.question) charset
  /\ Text.isEncodingTag enc = true
  /\ text <> [] /\ Forall (fun c => c <> Text.question) text.

(** [keeps I c]: the computation [c] keeps the property [I] of the store,
    whether it returns or throws. *)
Definition keeps {S A : Type} (I : S -> Prop) (c : prog S A) : Prop :=
  forall s, I s -> I (snd (c s)).


(** What makes the gate let a submission through. *)
Definition admissible (toLowerCase : list N -> list N)
    (artist album : list N) (pairs : list Pair) : Prop :=
  (2 <= List.length (trim artist))%nat /\ (2 <= List.length (trim album))%nat
  /\ Gate.pairKey toLowerCase (mkPair (trim artist) (trim album))
     ∉ Gate.pairKey toLowerCase <$> pairs.

(** The entries of [pairs] with a given key. *)
Definition entriesWithKey (toLowerCase : list N -> list N) (key : list N)
    (pairs : list Pair) : list Pair :=
  List.filter (fun p => bool_decide (Gate.pairKey toLowerCase p = key)) pairs.

Definition bounded (pairs : list Pair) : Prop := (List.length pairs <= 10)%nat.


Section Loop.

Variable toLowerCase : list N -> list N.
Variable accepts : Email -> bool.
Variable extractAlbumArtistPairs : option (list N) -> outcome (list Pair).

(** The pairs an email contributes: nothing when it is skipped. *)
Definition contribution (mail : Email) : list Pair :=
  if accepts mail then
    match extractAlbumArtistPairs (body mail) with
    | Returns rawPairs => Aggregator.dedupe toLowerCase rawPairs
    | Throws => []
    end
  else [].

(** One turn of the loop, as a function of the state. *)
Definition turn (st : Aggregator.State) (mail : Email) : Aggregator.State :=
  match contribution mail with
  | [] => if accepts mail then Aggregator.warn (uid mail) st else st
  | pairs =>
      Aggregator.markSuccessful (uid mail)
        (Aggregator.collect (Dates.formatMonthYYYYMM (date mail)) pairs st)
  end.



(** An email accepted by the loop, dated in [month], whose extraction holds
    a pair with key [key]. *)
Definition mentions (month key : list N) (mail : Email) : Prop :=
  accepts mail = true
  /\ Dates.formatMonthYYYYMM (date mail) = month
  /\ exists rawPairs p,
       extractAlbumArtistPairs (body mail) = Returns rawPairs
       /\ p ∈ rawPairs /\ Gate.pairKey toLowerCase p = key.

End Loop.



End Props.

(** ** Sample inputs *)

Module Samples.

(** What the library makes of ["<html></html>"] and of plain text: no
    card, no link, no image. *)
Definition emptyPage : list Dom.NodeRec :=
  [ Dom.element "html" None;
    Dom.element "head" (Some O);
    Dom.element "body" (Some O) ].


Definition pinkFloyd : list Dom.NodeRec :=
  Dom.newsletter [("Pink Floyd", "The Dark Side of the Moon")]%string.

Definition radiohead : Pair := mkPair (js "Radiohead") (js "OK Computer").

(** Newsletters of January 2025 that name the same album in different
    letter case, as plain text and as cards. *)
Definition january (n : Z) (text : string) : Email :=
  {| uid := UidInteger n;
     date := ValidDate 2025 0;
     from := js "Pitchfork <newsletter@pitchfork.com>";
     subject := js "10 Best Reviewed Albums of the Week";
     body := Some (js text) |}.

Definition januaryMails : list Email :=
  [ january 41 "Radiohead - OK Computer"; january 42 "RADIOHEAD - ok computer" ].

(** The markup of one card as the newsletter sends it: the two paragraphs
    in a cell of the table. *)
Definition cardHtml (artistName albumName : string) : string :=
  ("<table class='text_block block-2'><tr><td><p><strong><a rel='noopener'>"
   ++ artistName ++ "</a></strong></p><p><em>" ++ albumName
   ++ "</em></p></td></tr></table>")%string.

(** The document the library builds from that markup: [html], [head] and
    [body] are supplied, and the row is put in a [tbody]. *)
Definition cardDocument (artistName albumName : string) : list Dom.NodeRec :=
  Dom.newsletter [(artistName, albumName)].

(** The library on the bodies used below. *)
Definition cardsOf (rawBody : option (list N)) : list Dom.NodeRec :=
  if bool_decide (rawBody = Some (js (cardHtml "Radiohead" "OK Computer")))
  then cardDocument "Radiohead" "OK Computer"
  else if bool_decide (rawBody = Some (js (cardHtml "RADIOHEAD" "ok computer")))
       then cardDocument "RADIOHEAD" "ok computer"
       else emptyPage.

Definition januaryCards : list Email :=
  [ january 41 (cardHtml "Radiohead" "OK Computer");
    january 42 (cardHtml "RADIOHEAD" "ok computer") ].


(** A playlist of two tracks, the older one first. *)
Definition older : Playlist.Item := Playlist.mkItem (Some (js "spotify:track:A")) 1000.
Definition newer : Playlist.Item := Playlist.mkItem (Some (js "spotify:track:B")) 2000.

(** Fifteen distinct cards. *)
Definition fifteen : list (string * string) :=
  [ ("Artist 01", "Album 01"); ("Artist 02", "Album 02");
    ("Artist 03", "Album 03"); ("Artist 04", "Album 04");
    ("Artist 05", "Album 05"); ("Artist 06", "Album 06");
    ("Artist 07", "Album 07"); ("Artist 08", "Album 08");
    ("Artist 09", "Album 09"); ("Artist 10", "Album 10");
    ("Artist 11", "Album 11"); ("Artist 12", "Album 12");
    ("Artist 13", "Album 13"); ("Artist 14", "Album 14");
    ("Artist 15", "Album 15") ]%string.

Definition asPair (names : string * string) : Pair :=
  mkPair (js (fst names)) (js (snd names)).

End Samples.

(** ** Vocabulary for the shape of results *)

Module Shape.

(** A pair as the gate lets it in: both names trimmed and of length two or
    more. *)
Definition validPair (p : Pair) : Prop :=
  trim (artist p) = artist p /\ trim (album p) = album p
  /\ (2 <= List.length (artist p))%nat /\ (2 <= List.length (album p))%nat.

(** Pairwise distinct case-insensitive keys. *)
Definition distinctKeys (toLowerCase : list N -> list N) (pairs : list Pair)
  : Prop :=
  NoDup (Gate.pairKey toLowerCase <$> pairs).

(** [x] is the first item of [array] that has its key. *)
Definition firstOfItsKey {A K : Type} `{EqDecision K} (keyFn : A -> K)
    (array : list A) (x : A) : Prop :=
  List.find (fun y => bool_decide (keyFn y = keyFn x)) array = Some x.

Section Buckets.

Variable toLowerCase : list N -> list N.
Variable accepts : Email -> bool.
Variable extractAlbumArtistPairs : option (list N) -> outcome (list Pair).

(** The emails dated in [month], in order. *)
Definition datedIn (month : list N) (emails : list Email) : list Email :=
  List.filter
    (fun mail => bool_decide (Dates.formatMonthYYYYMM (date mail) = month))
    emails.

(** What the emails of [month] contribute, in order. *)
Definition gathered (month : list N) (emails : list Email) : list Pair :=
  concat (List.map (Props.contribution toLowerCase accepts
                      extractAlbumArtistPairs)
                   (datedIn month emails)).

End Buckets.

(** The bucket of a month, [[]] when there is none. *)
Definition held (month : list N) (st : Aggregator.State) : list Pair :=
  default [] (JsMap.get month (Aggregator.monthToPairs st)).

(** Every bucket in the map holds something. *)
Definition stocked (st : Aggregator.State) : Prop :=
  forall month, JsMap.get month (Aggregator.monthToPairs st) <> Some [].

End Shape.

(** ** Arrays *)

Module Arrays.

(** The clamping of an index of [slice]: a negative index counts from the
    end. *)
Definition sliceIndex (len i : Z) : Z :=
  if (i <? 0)%Z then Z.max (len + i) 0 else Z.min i len.

(** [array.slice(start, end)] (also [String.prototype.slice]) for integer
    arguments. *)
Definition slice {A : Type} (s : list A) (start stop : Z) : list A :=
  let len := Z.of_nat (List.length s) in
  let from := sliceIndex len start in
  let to := sliceIndex len stop in
  take (Z.to_nat (to - from)) (drop (Z.to_nat from) s).

End Arrays.

(** ** The other collection utilities *)

Module CollectionsMore.

(** The loop of [chunk(array, size)], [for (let i = 0; i < array.length;
    i += size) chunks.push(array.slice(i, i + size))], from index [i]; the
    result is what the loop pushes from there on. [None]: the loop is still
    running when [fuel] turns are over. *)
Fixpoint chunkLoop {A : Type} (fuel : nat) (array : list A) (size i : Z)
  : option (list (list A)) :=
  match fuel with
  | O => None
  | S fuel' =>
      if (i <? Z.of_nat (List.length array))%Z
      then option_map (cons (Arrays.slice array i (i + size)))
                      (chunkLoop fuel' array size (i + size))
      else Some []
  end.

(** [chunk(array, size)] within [fuel] turns of the loop. *)
Definition chunk {A : Type} (fuel : nat) (array : list A) (size : Z)
  : option (list (list A)) :=
  chunkLoop fuel array size 0.

(** [flatten(array)]: [array.reduce((acc, val) => acc.concat(val), [])] on
    an array of arrays. *)
Definition flatten {A : Type} (array : list (list A)) : list A :=
  fold_left (fun acc val => acc ++ val) array [].

Section GroupBy.

Context {A K : Type} `{EqDecision K}.

(** One turn of the loop of [groupBy]: [if (!map.has(key)) map.set(key,
    []); map.get(key).push(item)]. *)
Definition groupStep (keyFn : A -> K) (map : list (K * list A)) (item : A)
  : list (K * list A) :=
  let key := keyFn item in
  let map := match JsMap.get key map with
             | Some _ => map
             | None => JsMap.set key [] map
             end in
  JsMap.set key (default [] (JsMap.get key map) ++ [item]) map.

(** [groupBy(array, keyFn)] *)
Definition groupBy (array : list A) (keyFn : A -> K) : list (K * list A) :=
  fold_left (groupStep keyFn) array [].

End GroupBy.

End CollectionsMore.

(** ** [addTracksToPlaylist] *)

Module AddTracks.
Section AddTracks.

(** The [POST] of one chunk to the playlist, a call to the catalog. *)
Variable postTracks : list (list N) -> outcome unit.

Definition CHUNK_SIZE : Z := 100.

(** The body of the loop for one chunk: the request is recorded, then
    awaited. *)
Definition sendChunk (chunk : list (list N))
  : prog (list (list (list N))) unit :=
  modify (fun sent => sent ++ [chunk]) ;;
  call (postTracks chunk).

(** The loop [for (let i = 0; i < trackUris.length; i += chunkSize)] from
    index [i]. *)
Fixpoint sendFrom (fuel : nat) (trackUris : list (list N)) (i : Z)
  : prog (list (list (list N))) unit :=
  match fuel with
  | O => ret tt
  | S fuel' =>
      if (i <? Z.of_nat (List.length trackUris))%Z
      then sendChunk (Arrays.slice trackUris i (i + CHUNK_SIZE)) ;;
           sendFrom fuel' trackUris (i + CHUNK_SIZE)
      else ret tt
  end.

(** [addTracksToPlaylist(accessToken, playlistId, trackUris)] over the
    record of requests sent; the index passes the end within
    [trackUris.length] turns. *)
Definition addTracksToPlaylist (trackUris : list (list N))
  : prog (list (list (list N))) unit :=
  sendFrom (S (List.length trackUris)) trackUris 0.

End AddTracks.
End AddTracks.

(** ** Replacement patterns *)

Module Replace.

Definition dollar : N := 36.

Definition isDigit (c : N) : bool := (48 <=? c) && (c <=? 57).

Definition digitValue (c : N) : nat := N.to_nat (c - 48).

(** What [$n] or [$nn] stands for: the capture of that number when there is
    one, the reference itself otherwise. *)
Definition reference (captures : list (list N)) (index : nat) (ref : list N)
  : list N :=
  if ((1 <=? index)%nat && (index <=? List.length captures)%nat)%bool
  then nth (index - 1) captures []
  else ref.

(** The replacement text of [str.replace(pattern, template)] for one match
    (GetSubstitution, without named groups): [$$], [$&], [$`], [$'], [$n]
    and [$nn] are expanded, every other code unit stands for itself. A
    two-digit number above the number of captures is read as one digit. *)
Fixpoint expand (captures : list (list N)) (matched before after : list N)
    (template : list N) : list N :=
  match template with
  | [] => []
  | c :: rest =>
      if negb (c =? dollar) then c :: expand captures matched before after rest
      else
        match rest with
        | [] => [dollar]
        | d :: rest1 =>
            if d =? dollar then dollar :: expand captures matched before after rest1
            else if d =? 38 then matched ++ expand captures matched before after rest1
            else if d =? 96 then before ++ expand captures matched before after rest1
            else if d =? 39 then after ++ expand captures matched before after rest1
            else if isDigit d then
              let one :=
                reference captures (digitValue d) [dollar; d]
                ++ expand captures matched before after rest1 in
              match rest1 with
              | [] => one
              | e :: rest2 =>
                  if (isDigit e
                      && (10 * digitValue d + digitValue e
                          <=? List.length captures)%nat)%bool
                  then reference captures (10 * digitValue d + digitValue e)
                                 [dollar; d; e]
                       ++ expand captures matched before after rest2
                  else one
              end
            else dollar :: expand captures matched before after rest
        end
  end.

End Replace.

(** ** [searchAlbum] of the monolithic script *)

Module Search.

Definition quote : N := 34.

(** [/[...]+/]: a run of one or more code units of a class. *)
Fixpoint takeClass (inClass : N -> bool) (s : list N) : list N :=
  match s with
  | c :: t => if inClass c then c :: takeClass inClass t else []
  | [] => []
  end.

Definition classRun (inClass : N -> bool) (rep : list N) : matcher :=
  fun s => match takeClass inClass s with
           | [] => None
           | run => Some (List.length run, rep)
           end.

(** [/[...]/]: one code unit of a class. *)
Definition classOne (inClass : N -> bool) (rep : list N) : matcher :=
  fun s => match s with
           | c :: _ => if inClass c then Some (1%nat, rep) else None
           | [] => None
           end.

Definition isBreak (c : N) : bool := (c =? 13) || (c =? 10) || (c =? 9).
Definition isDoubleCurly (c : N) : bool := (c =? 0x201C) || (c =? 0x201D).
Definition isSingleCurly (c : N) : bool := (c =? 0x2018) || (c =? 0x2019).

(** [sanitize(input)]; the empty string stands for every falsy input. *)
Definition sanitize (input : list N) : list N :=
  let r := replaceAll (classRun isBreak [32]) input in
  let r := replaceAll (spaceRun [32]) r in
  let r := replaceAll (classOne isDoubleCurly [quote]) r in
  let r := replaceAll (classOne isSingleCurly [39]) r in
  trim r.

(** [truncate(str, maxLen)]; every call passes a [maxLen] of ten or more. *)
Definition truncate (str : list N) (maxLen : nat) : list N :=
  if (List.length str <=? maxLen)%nat then str else trim (take maxLen str).

(** [str.split(sep)] for a separator of one code unit. *)
Fixpoint split (sep : N) (s : list N) : list (list N) :=
  match s with
  | [] => [[]]
  | c :: t =>
      if c =? sep then [] :: split sep t
      else match split sep t with
           | w :: ws => (c :: w) :: ws
           | [] => [[c]]
           end
  end.

(** [words.join(sep)] *)
Fixpoint join (sep : list N) (words : list (list N)) : list N :=
  match words with
  | [] => []
  | [w] => w
  | w :: rest => w ++ sep ++ join sep rest
  end.

Definition albumTerm (album : list N) : list N :=
  js "album:" ++ [quote] ++ album ++ [quote].

Definition artistTerm (artist : list N) : list N :=
  js "artist:" ++ [quote] ++ artist ++ [quote].

(** The four candidate queries, from strict to loose. *)
Definition candidates (cleanAlbum cleanArtist : list N) : list (list N) :=
  let albumShortByWords := join [32] (take 6 (split 32 cleanAlbum)) in
  [ albumTerm cleanAlbum ++ [32] ++ artistTerm cleanArtist;
    artistTerm cleanArtist ++ [32] ++ albumTerm albumShortByWords;
    albumTerm cleanAlbum;
    cleanAlbum ].

Definition isQuote (c : N) : bool := c =? quote.

(** [q.match(albumQuoted)] from the current position on, for the pattern
    [album:], a quote, a run of code units other than the quote (the
    group), a quote: the text before the leftmost match (reversed in
    [before]), the group, and the text after the match. *)
Fixpoint matchAlbumQuoted (before : list N) (q : list N)
  : option (list N * list N * list N) :=
  match q with
  | [] => None
  | c :: t =>
      let next := matchAlbumQuoted (c :: before) t in
      if isPrefix (js "album:" ++ [quote]) q
      then let body := drop 7 q in
           let group := takeClass (fun d => negb (isQuote d)) body in
           match drop (List.length group) body with
           | _ :: after => Some (rev before, group, after)
           | [] => next
           end
      else next
  end.

Definition LIMIT : nat := 230.

(** The first step of the shortening: the album part is cut. *)
Definition shortenAlbum (q : list N) : list N :=
  match matchAlbumQuoted [] q with
  | Some (before, currentAlbum, after) =>
      let overflow := (Z.of_nat (List.length q) - Z.of_nat LIMIT)%Z in
      let targetLen :=
        Z.max 10 (Z.of_nat (List.length currentAlbum) - overflow - 5) in
      let reduced := truncate currentAlbum (Z.to_nat targetLen) in
      before
      ++ Replace.expand [currentAlbum] (albumTerm currentAlbum) before after
           (albumTerm reduced)
      ++ after
  | None => q
  end.

(** The body of [if (q.length > 230) { ... }]. *)
Definition shorten (q : list N) : list N :=
  if (LIMIT <? List.length q)%nat
  then let q := shortenAlbum q in
       if (LIMIT <? List.length q)%nat then truncate q LIMIT else q
  else q.

(** An item of [data.albums.items]; an empty name stands for a missing
    one, and [artists] holds the names of the artists. *)
Record Album : Type := mkAlbum {
  albumId : list N;
  albumName : list N;
  albumArtists : list (list N)
}.

Section Search.

Variable toLowerCase : list N -> list N.

(** [encodeURIComponent], which throws on a lone surrogate. *)
Variable encodeURIComponent : list N -> outcome (list N).

(** The [GET] of a search URL: the items of the answer, none when the
    answer has no [albums.items]. *)
Variable spotifyRequest : list N -> outcome (list Album).

Definition searchUrl (encoded : list N) : list N :=
  js "https://api.spotify.com/v1/search?type=album&limit=5&q=" ++ encoded.

(** The test of [items.find]. *)
Definition isExact (cleanAlbum cleanArtist : list N) (a : Album) : bool :=
  negb (falsy (albumName a))
  && includes (toLowerCase cleanAlbum) (toLowerCase (albumName a))
  && existsb (fun name => negb (falsy name)
                          && includes (toLowerCase cleanArtist) (toLowerCase name))
             (albumArtists a).

(** [exact || data.albums.items[0]] *)
Definition choose (cleanAlbum cleanArtist : list N) (items : list Album)
  : option Album :=
  match List.find (isExact cleanAlbum cleanArtist) items with
  | Some exact => Some exact
  | None => head items
  end.

(** The loop over the candidates: the URL is built outside the [try], the
    request and the choice are inside it. *)
Fixpoint searchLoop (cleanAlbum cleanArtist : list N) (queries : list (list N))
  : outcome (option Album) :=
  match queries with
  | [] => Returns None
  | q :: rest =>
      encoded <- encodeURIComponent (shorten q) ;;
      match spotifyRequest (searchUrl encoded) with
      | Returns (item :: items) =>
          Returns (choose cleanAlbum cleanArtist (item :: items))
      | Returns [] => searchLoop cleanAlbum cleanArtist rest
      | Throws => searchLoop cleanAlbum cleanArtist rest
      end
  end.

(** [searchAlbum(accessToken, album, artist)] *)
Definition searchAlbum (album artist : list N) : outcome (option Album) :=
  let cleanAlbum := sanitize album in
  let cleanArtist := sanitize artist in
  searchLoop cleanAlbum cleanArtist (candidates cleanAlbum cleanArtist).

End Search.

End Search.

(** ** The tracks to add to a playlist (the inner loop of [main] and of
    [syncPlaylistsFromEmails]) *)

Module Tracks.
Section Tracks.

(** [searchAlbum(accessToken, album, artist)] and
    [getAlbumFirstTrackUri(accessToken, albumId)] ([None]: [null]), as the
    loop calls them; both may throw. *)
Variable searchAlbum : list N -> list N -> outcome (option Search.Album).
Variable getAlbumFirstTrackUri : list N -> outcome (option (list N)).

(** The URIs already in the playlist, a [Set]. *)
Variable existingUris : gset (list N).

(** The body of the [try] for one pair, over [toAdd]. *)
Definition lookUp (p : Pair) : prog (list (list N)) unit :=
  foundAlbum <- call (searchAlbum (album p) (artist p)) ;;
  match foundAlbum with
  | None => ret tt
  | Some found =>
      firstTrackUri <- call (getAlbumFirstTrackUri (Search.albumId found)) ;;
      match firstTrackUri with
      | None => ret tt
      | Some uri =>
          if falsy uri then ret tt
          else
            toAdd <- getState ;;
            if (negb (bool_decide (uri ∈ existingUris))
                && negb (bool_decide (uri ∈ toAdd)))%bool
            then modify (fun toAdd => toAdd ++ [uri])
            else ret tt
      end
  end.

(** One turn of [for (const { album, artist } of pairs)]: an error of the
    catalog is caught and logged. *)
Definition addStep (p : Pair) : prog (list (list N)) unit :=
  tryCatch (lookUp p) (ret tt).

(** The loop; it starts from an empty [toAdd]. *)
Definition collectTracks (pairs : list Pair) : prog (list (list N)) unit :=
  forEach pairs addStep.

End Tracks.
End Tracks.

(** ** Moving an email to the trash ([moveEmailToTrash] and the last loop
    of [main] and of [syncPlaylistsFromEmails]) *)

Module Trash.

(** The calls to the IMAP connection. *)
Inductive ImapCall : Type :=
| Connect
| OpenBox (mailbox : list N)
| Move (uid : Z) (mailbox : list N)
| EndConnection.

Section Trash.

(** [process.env.IMAP_MAILBOX || 'INBOX'] and
    [process.env.TRASH_MAILBOX || 'Deleted Messages']. *)
Variable IMAP_MAILBOX : list N.
Variable TRASH_MAILBOX : list N.

(** The answer of the server to a call, given the calls made so far. *)
Variable server : list ImapCall -> ImapCall -> outcome unit.

(** A call: it is recorded and answered. *)
Definition imap (c : ImapCall) : prog (list ImapCall) unit :=
  fun calls => (server calls c, calls ++ [c]).

(** The body of either [try]: open the box, move, end. *)
Definition moveTo (uid : Z) (mailbox : list N) : prog (list ImapCall) bool :=
  imap (OpenBox IMAP_MAILBOX) ;;
  imap (Move uid mailbox) ;;
  imap EndConnection ;;
  ret true.

(** [moveEmailToTrash(uid)] *)
Definition moveEmailToTrash (uid : JsUid) : prog (list ImapCall) bool :=
  match uid with
  | UidInteger z =>
      if (z <=? 0)%Z then call Throws
      else
        imap Connect ;;
        tryCatch (moveTo z TRASH_MAILBOX)
                 (tryCatch (moveTo z (js "Trash"))
                           (tryCatch (imap EndConnection) (ret tt) ;;
                            call Throws))
  | _ => call Throws
  end.

(** [for (const uid of successfulEmailUids)], over the UIDs in the order of
    the set: a failure is caught and logged. *)
Definition archive (uids : list Z) : prog (list ImapCall) unit :=
  forEach uids (fun uid =>
    tryCatch (moveEmailToTrash (UidInteger uid) ;; ret tt) (ret tt)).

End Trash.
End Trash.

(** ** The trash mover ([trash-mover.mjs]) *)

Module Mover.

(** What [_parseListLine] yields for a line of the [LIST] answer. *)
Record Box : Type := mkBox {
  flags : option (list N);
  name : option (list N)
}.

(** The commands sent over the IMAP connection. *)
Inductive Command : Type :=
| OpenBox (source : list N)
| ListBoxes
| CreateBox (target : list N)
| Move (uid target : list N)
| Copy (uid target : list N)
| AddFlags (uid flag : list N)
| Expunge.

(** How the library answers a command: its callback is called without an
    error, or with one, or the call itself throws. *)
Inductive Reply : Type :=
| Done
| Failed
| Thrown.

(** [!x] for a string or [null]. *)
Definition missing (x : option (list N)) : bool :=
  match x with
  | Some s => falsy s
  | None => true
  end.

Definition TRASH_KEYWORDS : list (list N) :=
  [ js "trash"; js "deleted"; js "papierkorb";
    js "gel" ++ [0x221A; 0x2202] ++ js "scht"; js "eliminados" ].

Section Mover.

Variable toLowerCase : list N -> list N.
Variable toUpperCase : list N -> list N.

(** [imap.serverCapabilities || []] *)
Variable serverCapabilities : list (list N).

(** The answer of the server to a command, given the commands sent so
    far, and the parsed lines of its answer to [LIST]. *)
Variable answer : list Command -> Command -> Reply.
Variable listed : list Command -> outcome (list Box).

(** A command in a promise that is rejected with the error of the
    callback. *)
Definition command (c : Command) : prog (list Command) unit :=
  fun sent => (match answer sent c with
               | Done => Returns tt
               | Failed | Thrown => Throws
               end, sent ++ [c]).

(** A command in a promise that is resolved with [false] on an error of
    the callback; only a call that throws rejects it. *)
Definition attempt (c : Command) : prog (list Command) bool :=
  fun sent => (match answer sent c with
               | Done => Returns true
               | Failed => Returns false
               | Thrown => Throws
               end, sent ++ [c]).

(** [_listMailboxes(imap)]: the parsed lines that have a name. *)
Definition _listMailboxes : prog (list Command) (list Box) :=
  fun sent =>
    (match listed sent with
     | Returns parsed =>
         Returns (List.filter (fun item => negb (missing (name item))) parsed)
     | Throws => Throws
     end, sent ++ [ListBoxes]).

Definition hasTrashFlag (box : Box) : bool :=
  match flags box with
  | Some f => negb (falsy f)
              && (includes (js "\Trash") f || includes (js "\Deleted") f)
  | None => false
  end.

Definition hasTrashName (box : Box) : bool :=
  let nameLower := toLowerCase (default [] (name box)) in
  existsb (fun k => includes k nameLower) TRASH_KEYWORDS.

(** The two loops of [findTrashFolder] over the boxes. *)
Definition pickTrash (boxes : list Box) : option (list N) :=
  match List.find hasTrashFlag boxes with
  | Some box => name box
  | None =>
      match List.find hasTrashName boxes with
      | Some box => name box
      | None => None
      end
  end.

(** [findTrashFolder(imap)] *)
Definition findTrashFolder : prog (list Command) (option (list N)) :=
  boxes <- _listMailboxes ;;
  ret (pickTrash boxes).

(** [ensureMailbox(imap, target)] *)
Definition ensureMailbox (target : list N) : prog (list Command) bool :=
  boxes <- _listMailboxes ;;
  if existsb (fun box => bool_decide (name box = Some target)) boxes
  then ret true
  else attempt (CreateBox target).

(** [_supportsMove(imap)] *)
Definition _supportsMove : bool :=
  existsb (fun c => bool_decide (toUpperCase c = js "MOVE")) serverCapabilities.

(** [moveUid(imap, uid, target, dryRun)] *)
Definition moveUid (uid target : list N) (dryRun : bool)
  : prog (list Command) bool :=
  if dryRun then ret true
  else if _supportsMove then attempt (Move uid target)
  else tryCatch (command (Copy uid target) ;;
                 command (AddFlags uid (js "\Deleted")) ;;
                 command Expunge ;;
                 ret true)
                (ret false).

(** The loop of [moveUidsToTrash], with [successCount] so far. *)
Fixpoint moveEach (uids : list (list N)) (trashFolder : list N) (dryRun : bool)
    (successCount : nat) : prog (list Command) nat :=
  match uids with
  | [] => ret successCount
  | uid :: rest =>
      ok <- tryCatch (moveUid uid trashFolder dryRun) (ret false) ;;
      moveEach rest trashFolder dryRun
               (if ok then S successCount else successCount)
  end.

(** The mailbox that [moveUidsToTrash] moves to. *)
Definition resolveTrash (target : option (list N))
  : prog (list Command) (list N) :=
  if negb (missing target) then ret (default [] target)
  else
    found <- findTrashFolder ;;
    if negb (missing found) then ret (default [] found)
    else
      created <- ensureMailbox (js "INBOX/Trash") ;;
      if created then ret (js "INBOX/Trash") else call Throws.

(** [moveUidsToTrash(imap, source, uids, target, dryRun)]; the empty list
    also stands for a missing [uids]. *)
Definition moveUidsToTrash (source : list N) (uids : list (list N))
    (target : option (list N)) (dryRun : bool) : prog (list Command) nat :=
  match uids with
  | [] => call Throws
  | _ :: _ =>
      command (OpenBox source) ;;
      trashFolder <- resolveTrash target ;;
      moveEach uids trashFolder dryRun 0
  end.

End Mover.
End Mover.

(** ** [truncate] of the text utilities *)

Module TextMore.

(** [truncate(str, maxLength, suffix)] for an integer [maxLength]; the
    default [suffix] is [...]. *)
Definition truncate (str : list N) (maxLength : Z) (suffix : list N) : list N :=
  if (Z.of_nat (List.length str) <=? maxLength)%Z then str
  else Arrays.slice str 0 (maxLength - Z.of_nat (List.length suffix)) ++ suffix.

End TextMore.

(** ** The command line ([cli.mjs]) *)

Module Cli.

Definition comma : N := 44.
Definition equalsSign : N := 61.

(** The validation of [args.uids] in [moveEmailsToTrashCli]: a missing or
    empty option throws, and so does a list without a UID. *)
Definition parseUids (uids : option (list N)) : outcome (list (list N)) :=
  match uids with
  | None => Throws
  | Some text =>
      if falsy text then Throws
      else
        let uids := List.filter (fun u => negb (falsy u))
                                (List.map trim (Search.split comma text)) in
        match uids with
        | [] => Throws
        | _ :: _ => Returns uids
        end
  end.

(** [process.env[key]]: a variable that is not set reads as [undefined]. *)
Definition unset (key : list N) (env : list (list N * list N)) : bool :=
  match JsMap.get key env with
  | Some value => falsy value
  | None => true
  end.

(** The body of [envContent.split('\n').forEach]: the line is split at
    every equals sign, the first two pieces are the key and the value, and
    a value that is missing is stored as the text [undefined]. *)
Definition loadLine (env : list (list N * list N)) (line : list N)
  : list (list N * list N) :=
  let pieces := List.map trim (Search.split equalsSign line) in
  let key := nth 0 pieces [] in
  let value := nth_error pieces 1 in
  if (negb (falsy key) && unset key env)%bool
  then JsMap.set key (default (js "undefined") value) env
  else env.

(** The loading of the env file. *)
Definition loadEnv (envContent : list N) (env : list (list N * list N))
  : list (list N * list N) :=
  fold_left loadLine (Search.split 10 envContent) env.

End Cli.
(** ** Retry with backoff ([callWithRetry]) *)

Module Retry.

(** How a call ends: with a value, or with the error it throws. *)
Inductive result (A E : Type) : Type :=
| Ok (a : A)
| Err (e : E).

Arguments Ok {A E} a.
Arguments Err {A E} e.

(** A number: [NaN], an infinity, or the finite value
    [mantissa * 2 ^ exponent]. Every finite double has this form, with a
    mantissa below [2 ^ 53] in absolute value and an exponent of [-1074] at
    least; the two zeros are not told apart. *)
Inductive JsNumber : Type :=
| NaN
| Infinity (negative : bool)
| Finite (mantissa exponent : Z).

(** [attempt <= x] for an integer [attempt]. *)
Definition atMost (attempt : Z) (x : JsNumber) : bool :=
  match x with
  | NaN => false
  | Infinity negative => negb negative
  | Finite m e =>
      if (0 <=? e)%Z then (attempt <=? m * 2 ^ e)%Z
      else (attempt * 2 ^ (- e) <=? m)%Z
  end.

(** [attempt === x] for an integer [attempt]. *)
Definition same (attempt : Z) (x : JsNumber) : bool :=
  match x with
  | Finite m e =>
      if (0 <=? e)%Z then (attempt =? m * 2 ^ e)%Z
      else (attempt * 2 ^ (- e) =? m)%Z
  | _ => false
  end.

(** [attempt++]: integers are exact up to [2 ^ 53], where adding one
    changes nothing any more. *)
Definition increment (attempt : Z) : Z :=
  if (attempt <? 2 ^ 53)%Z then (attempt + 1)%Z else attempt.

Section Retry.

Context {A E : Type}.

(** How the calls of [fn] end, the first call being call [0]. *)
Variable fn : nat -> result A E.
Variable maxRetries : JsNumber.
Variable baseDelayMs : JsNumber.

(** [baseDelayMs * Math.pow(2, attempt - 1)] for an attempt of [1] at
    least. The power is exact up to [2 ^ 1023] and [Infinity] beyond; the
    product of a double and a power of two is exact unless it reaches
    [2 ^ 1024], where it is an infinity; zero times [Infinity] is [NaN]. *)
Definition delayMs (attempt : Z) : JsNumber :=
  let k := (attempt - 1)%Z in
  match baseDelayMs with
  | NaN => NaN
  | Infinity negative => Infinity negative
  | Finite m e =>
      if (1023 <? k)%Z
      then if (m =? 0)%Z then NaN else Infinity (m <? 0)%Z
      else if (m =? 0)%Z || (Z.log2 (Z.abs m) + e + k <? 1024)%Z
           then Finite m (e + k)
           else Infinity (m <? 0)%Z
  end.

(** The loop [for (let attempt = 1; attempt <= maxRetries; attempt++)] from
    a given attempt, with the number of calls made, [lastError] ([None]:
    [undefined]) and the sleeps so far; after the loop [lastError] is
    thrown. [None]: the loop is still running when [fuel] turns are over. *)
Fixpoint retryLoop (fuel : nat) (attempt : Z) (calls : nat)
    (lastError : option E) (slept : list JsNumber)
  : option (result A (option E) * list JsNumber) :=
  match fuel with
  | O => None
  | S fuel' =>
      if atMost attempt maxRetries
      then match fn calls with
           | Ok a => Some (Ok a, slept)
           | Err error =>
               if same attempt maxRetries then Some (Err (Some error), slept)
               else retryLoop fuel' (increment attempt) (S calls) (Some error)
                              (slept ++ [delayMs attempt])
           end
      else Some (Err lastError, slept)
  end.

(** [callWithRetry(fn, maxRetries, baseDelayMs)] within [fuel] turns of
    the loop: how it ends, and the sleeps it made. *)
Definition callWithRetry (fuel : nat)
  : option (result A (option E) * list JsNumber) :=
  retryLoop fuel 1 O None [].

End Retry.
End Retry.

(** ** The host: [Buffer.from(text, 'base64').toString('utf8')]

    Node decodes Base64 leniently and UTF-8 with replacement characters:
    the call returns a string for every string it is given. *)

Module Node.

(** The value of a code unit in the Base64 alphabets ([+] and [-] stand for
    62, [/] and [_] for 63). Only the low eight bits of the code unit are
    looked at. *)
Definition unbase64 (c : N) : option N :=
  let b := (c mod 256)%N in
  if (65 <=? b)%N && (b <=? 90)%N then Some (b - 65)%N
  else if (97 <=? b)%N && (b <=? 122)%N then Some (b - 71)%N
  else if (48 <=? b)%N && (b <=? 57)%N then Some (b + 4)%N
  else if (b =? 43)%N || (b =? 45)%N then Some 62%N
  else if (b =? 47)%N || (b =? 95)%N then Some 63%N
  else None.

(** The sextets of a text: the data ends at the first [=], any other code
    unit outside the alphabets is skipped. *)
Fixpoint sextets (text : list N) : list N :=
  match text with
  | [] => []
  | c :: rest =>
      if (c mod 256 =? 61)%N then []
      else match unbase64 c with
           | Some v => v :: sextets rest
           | None => sextets rest
           end
  end.

(** Four sextets give three bytes; two or three left over give one or two
    bytes, a single one gives none. *)
Fixpoint bytesOf (values : list N) : list N :=
  match values with
  | a :: b :: c :: d :: rest =>
      (a * 4 + b / 16)%N :: ((b mod 16) * 16 + c / 4)%N
        :: ((c mod 4) * 64 + d)%N :: bytesOf rest
  | [a; b; c] => [(a * 4 + b / 16)%N; ((b mod 16) * 16 + c / 4)%N]
  | [a; b] => [(a * 4 + b / 16)%N]
  | _ => []
  end.

Definition base64 (text : list N) : list N := bytesOf (sextets text).

(** The UTF-8 decoder: a state machine over the bytes. *)
Inductive Decoder : Type :=
| Ready
| Partial (codePoint : N) (needed : nat) (lower upper : N).

Definition replacement : N := 65533%N.

(** A code point as code units: a surrogate pair above the basic plane. *)
Definition codeUnits (codePoint : N) : list N :=
  if (codePoint <? 65536)%N then [codePoint]
  else [ (55296 + (codePoint - 65536) / 1024)%N;
         (56320 + (codePoint - 65536) mod 1024)%N ].

(** A byte met when no sequence is open. *)
Definition lead (b : N) : list N * Decoder :=
  if (b <=? 127)%N then ([b], Ready)
  else if (194 <=? b)%N && (b <=? 223)%N
       then ([], Partial (b mod 32) 1 128 191)
  else if (224 <=? b)%N && (b <=? 239)%N
       then ([], Partial (b mod 16) 2
                   (if (b =? 224)%N then 160%N else 128%N)
                   (if (b =? 237)%N then 159%N else 191%N))
  else if (240 <=? b)%N && (b <=? 244)%N
       then ([], Partial (b mod 8) 3
                   (if (b =? 240)%N then 144%N else 128%N)
                   (if (b =? 244)%N then 143%N else 191%N))
  else ([replacement], Ready).

(** One byte: a byte that does not continue the open sequence ends it with
    a replacement character and is then read on its own. *)
Definition step (st : Decoder) (b : N) : list N * Decoder :=
  match st with
  | Ready => lead b
  | Partial codePoint needed lower upper =>
      if (lower <=? b)%N && (b <=? upper)%N then
        let codePoint' := (codePoint * 64 + b mod 64)%N in
        match needed with
        | S (S more) => ([], Partial codePoint' (S more) 128 191)
        | _ => (codeUnits codePoint', Ready)
        end
      else (replacement :: fst (lead b), snd (lead b))
  end.

Fixpoint decodeFrom (st : Decoder) (bytes : list N) : list N :=
  match bytes with
  | [] => match st with Ready => [] | Partial _ _ _ _ => [replacement] end
  | b :: rest => fst (step st b) ++ decodeFrom (snd (step st b)) rest
  end.

Definition utf8 (bytes : list N) : list N := decodeFrom Ready bytes.

(** [Buffer.from(text, 'base64').toString('utf8')] as a function. *)
Definition base64Utf8 (text : list N) : list N := utf8 (base64 text).

(** The same as a call: it always returns. *)
Definition bufferBase64Utf8 : list N -> outcome (list N) :=
  fun text => Returns (base64Utf8 text).

End Node.

(** ** Vocabulary for arrays *)

Module ArrayShape.

(** The chunks of [size] items of [array], the last one possibly shorter. *)
Definition chunksOf {A : Type} (size : nat) (array : list A) : list (list A) :=
  List.map (fun j => take size (drop (j * size) array))
           (seq 0 (Nat.div (List.length array + size - 1) size)).

End ArrayShape.

(** ** Vocabulary for requests *)

Module Requests.

(** The requests made when [items] are sent one after the other and the
    first failure ends the sending: the items up to and including the first
    one that [send] fails on. *)
Fixpoint attempted {X : Type} (send : X -> outcome unit) (items : list X)
  : list X :=
  match items with
  | [] => []
  | x :: rest =>
      x :: match send x with
           | Returns _ => attempted send rest
           | Throws => []
           end
  end.

End Requests.

(** ** Vocabulary for the search *)

Module SearchShape.

(** The queries that [searchAlbum] builds for a pair, as they are encoded. *)
Definition queries (album artist : list N) : list (list N) :=
  List.map Search.shorten
           (Search.candidates (Search.sanitize album) (Search.sanitize artist)).

(** A query that finds nothing: once encoded, its request fails or answers
    with no album. *)
Definition fruitless
    (encodeURIComponent : list N -> outcome (list N))
    (spotifyRequest : list N -> outcome (list Search.Album))
    (q : list N) : Prop :=
  forall encoded,
    encodeURIComponent q = Returns encoded ->
    spotifyRequest (Search.searchUrl encoded) = Throws
    \/ spotifyRequest (Search.searchUrl encoded) = Returns [].

End SearchShape.

(** ** Further sample data *)

Module CatalogSamples.

Definition inRainbows : Search.Album :=
  Search.mkAlbum (js "album-1") (js "In Rainbows") [js "Radiohead"].

Definition inRainbowsLive : Search.Album :=
  Search.mkAlbum (js "album-2") (js "In Rainbows (Live)") [js "Radiohead"].

(** A catalog that answers every search with the same two albums. *)
Definition twoAlbums (url : list N) : outcome (list Search.Album) :=
  Returns [inRainbowsLive; inRainbows].

(** A catalog that fails whenever the query names the artist, and answers
    the other searches with the two albums. *)
Definition flaky (url : list N) : outcome (list Search.Album) :=
  if includes (js "artist") url then Throws else twoAlbums url.

(** The first track of every album is named after the album. *)
Definition firstTrack (albumId : list N) : outcome (option (list N)) :=
  Returns (Some (js "spotify:track:" ++ albumId)).

End CatalogSamples.

(** ** Vocabulary for the tracks *)

Module TrackShape.

(** [uri] is the first track that the catalog names for an album it finds
    for the pair [p]. *)
Definition firstTrackOf
    (searchAlbum : list N -> list N -> outcome (option Search.Album))
    (getAlbumFirstTrackUri : list N -> outcome (option (list N)))
    (p : Pair) (uri : list N) : Prop :=
  exists found,
    searchAlbum (album p) (artist p) = Returns (Some found)
    /\ getAlbumFirstTrackUri (Search.albumId found) = Returns (Some uri).

End TrackShape.

(** ** Vocabulary for the trash *)

Module TrashShape.

(** A call that, if it is a move, moves [uid] to the configured trash
    mailbox or to [Trash]. *)
Definition movesOnly (TRASH_MAILBOX : list N) (uid : Z) (c : Trash.ImapCall)
  : Prop :=
  match c with
  | Trash.Move u mailbox =>
      u = uid /\ (mailbox = TRASH_MAILBOX \/ mailbox = js "Trash")
  | _ => True
  end.

(** A call that, if it is a move, moves a positive UID of [uids]. *)
Definition movesPositive (uids : list Z) (c : Trash.ImapCall) : Prop :=
  match c with
  | Trash.Move u _ => (0 < u)%Z /\ u ∈ uids
  | _ => True
  end.

(** A UID that [moveEmailToTrash] refuses. *)
Definition refused (uid : JsUid) : Prop :=
  match uid with
  | UidInteger z => (z <= 0)%Z
  | _ => True
  end.

(** A server on which every call succeeds. *)
Definition obliging (calls : list Trash.ImapCall) (c : Trash.ImapCall)
  : outcome unit := Returns tt.

End TrashShape.

(** ** Vocabulary for the trash mover *)

Module MoverShape.

(** The boxes that [_listMailboxes] keeps: those with a name. *)
Definition named (parsed : list Mover.Box) : list Mover.Box :=
  List.filter (fun item => negb (Mover.missing (Mover.name item))) parsed.

(** [true] for a command that the server carried out. *)
Definition done (r : Mover.Reply) : bool :=
  match r with
  | Mover.Done => true
  | _ => false
  end.

(** A command of the moves: a move or a copy of one of the UIDs to
    [folder], the [\Deleted] flag on one of them, or [EXPUNGE]. *)
Definition moving (uids : list (list N)) (folder : list N) (c : Mover.Command)
  : Prop :=
  match c with
  | Mover.Move uid target | Mover.Copy uid target =>
      uid ∈ uids /\ target = folder
  | Mover.AddFlags uid flag => uid ∈ uids /\ flag = js "\Deleted"
  | Mover.Expunge => True
  | _ => False
  end.

(** The UIDs moved one after the other with [move]: the number of moves
    that returned [true], added to [count], and the commands sent. *)
Fixpoint tally (move : list N -> prog (list Mover.Command) bool)
    (uids : list (list N)) (count : nat) (sent : list Mover.Command)
  : nat * list Mover.Command :=
  match uids with
  | [] => (count, sent)
  | uid :: rest =>
      let (r, sent') := move uid sent in
      tally move rest
            (match r with Returns true => S count | _ => count end) sent'
  end.

(** The only commands of the search for a trash mailbox. *)
Definition resolving (c : Mover.Command) : Prop :=
  c = Mover.ListBoxes \/ c = Mover.CreateBox (js "INBOX/Trash").

Definition inbox : Mover.Box :=
  Mover.mkBox (Some (js "\HasNoChildren")) (Some (js "INBOX")).

(** A box named like a trash folder, without the flag. *)
Definition oldTrash : Mover.Box :=
  Mover.mkBox (Some (js "\HasNoChildren")) (Some (js "Old Trash")).

(** A box with the flag and another name. *)
Definition bin : Mover.Box :=
  Mover.mkBox (Some (js "\HasNoChildren \Trash")) (Some (js "Bin")).

End MoverShape.

Module MoverSamples.

(** The answer to [LIST] of a server with three boxes. *)
Definition threeBoxes (sent : list Mover.Command) : outcome (list Mover.Box) :=
  Returns [MoverShape.inbox; MoverShape.oldTrash; MoverShape.bin].

End MoverSamples.

(** ** Vocabulary for the retry *)

Module RetryShape.

(** The delays slept after the attempts [attempt], [attempt + 1], ... ,
    [n] of them. *)
Definition delays (baseDelayMs : Retry.JsNumber) (attempt : Z) (n : nat)
  : list Retry.JsNumber :=
  List.map (fun i => Retry.delayMs baseDelayMs (attempt + Z.of_nat i)%Z)
           (seq 0 n).

(** An integer as a number. *)
Definition integer (n : Z) : Retry.JsNumber := Retry.Finite n 0.

(** A call that fails twice and then succeeds. *)
Definition thirdTime (call : nat) : Retry.result (list N) (list N) :=
  if (call <? 2)%nat then Retry.Err (js "timeout") else Retry.Ok (js "done").

(** A call that fails every time. *)
Definition never (call : nat) : Retry.result (list N) (list N) :=
  Retry.Err (js "timeout").

End RetryShape.

(** ** Vocabulary for the line patterns *)

Module LineShape.

(** What the pattern of an artist, a dash and an album yields when its
    first group takes [n1] code units. *)
Definition attempt (line : list N) (n1 : nat) : option (list N * list N) :=
  firstSome
    (fun r1 =>
       match r1 with
       | c :: r2 =>
           if Patterns.isDash c
           then firstSome
                  (fun r3 => option_map (fun g2 => (take n1 line, g2))
                                        (Patterns.restIs 0 (List.length r3) r3))
                  (Patterns.afterSpaces r2)
           else None
       | [] => None
       end)
    (Patterns.afterSpaces (drop n1 line)).

End LineShape.

(** ** Vocabulary for the cleaned search terms *)

Module CleanShape.

(** A code unit that [sanitize] leaves in a text: no white space but the
    space, and no curly quote. *)
Definition clean (c : N) : Prop :=
  Props.plain c /\ Search.isDoubleCurly c = false /\ Search.isSingleCurly c = false.

End CleanShape.

(** * Properties *)

(** ** The extractors on sample bodies *)

Module Checks.

(** A card with a linked artist and a following emphasised paragraph. *)
Example card_pair :
  Parser.extractAlbumArtistPairs (cheerio := Dom.parsedAs Samples.pinkFloyd)
    Dom.asciiLower (Some (js "..."))
  = Returns [mkPair (js "Pink Floyd") (js "The Dark Side of the Moon")].
Proof. vm_compute. reflexivity. Qed.

(** Fifteen distinct cards: the first ten, in document order. *)
Example fifteen_cards :
  Parser.extractAlbumArtistPairs
    (cheerio := Dom.parsedAs (Dom.newsletter Samples.fifteen)) Dom.asciiLower
    (Some (js "..."))
  = Returns (List.map Samples.asPair (take 10 Samples.fifteen))
  /\ Monolith.extractAlbumArtistPairs
       (cheerio := Dom.parsedAs (Dom.newsletter Samples.fifteen)) Dom.asciiLower
       (Some (js "..."))
     = Returns (List.map Samples.asPair (take 10 Samples.fifteen)).
Proof. split; vm_compute; reflexivity. Qed.

(** Cards that differ in letter case only collide; short names are
    dropped. *)
Example card_duplicates :
  Parser.extractAlbumArtistPairs
    (cheerio := Dom.parsedAs
                  (Dom.newsletter [("Radiohead", "OK Computer");
                                   ("RADIOHEAD", "ok computer");
                                   ("X", "Some Album")]%string))
    Dom.asciiLower (Some (js "..."))
  = Returns [Samples.radiohead].
Proof. vm_compute. reflexivity. Qed.

(** The line fallback of the monolithic script, reached when the library
    finds nothing and when it throws. *)
Example plain_text_line :
  Monolith.extractAlbumArtistPairs (cheerio := Dom.parsedAs Samples.emptyPage)
    Dom.asciiLower (Some (js "The Beatles - Abbey Road"))
  = Returns [mkPair (js "The Beatles") (js "Abbey Road")]
  /\ Monolith.extractAlbumArtistPairs (cheerio := Dom.failing)
       Dom.asciiLower (Some (js "Abbey Road by The Beatles"))
     = Returns [mkPair (js "The Beatles") (js "Abbey Road")]
  /\ Parser.extractAlbumArtistPairs (cheerio := Dom.failing)
       Dom.asciiLower (Some (js "Abbey Road by The Beatles"))
     = Returns [].
Proof. repeat split; vm_compute; reflexivity. Qed.

Example stripHtml_sample :
  Text.stripHtml (Some (js "<style>p { color: red }</style><p>Tom &amp; Jerry</p>"))
  = js "Tom & Jerry"
  /\ Text.stripHtml None = []
  /\ Text.stripHtml (Some []) = [].
Proof. repeat split. Qed.

Example decode_sample :
  Text.decodeMimeEncodedWords Node.bufferBase64Utf8
    (Some (js "=?utf-8?Q?10_Best=21?= Albums"))
  = js "10 Best! Albums".
Proof. reflexivity. Qed.

(** [Buffer.from(text, 'base64').toString('utf8')]: plain text, two and
    four bytes for one character, white space and a missing padding in the
    text, bytes that are not UTF-8, an unfinished sequence. *)
Example buffer_sample :
  Node.base64Utf8 (js "SGVsbG8=") = js "Hello"
  /\ Node.base64Utf8 (js "w6k=") = [233]
  /\ Node.base64Utf8 (js "8J+YgA==") = [55357; 56832]
  /\ Node.base64Utf8 (js "SGVs bG8") = js "Hello"
  /\ Node.base64Utf8 (js "xyz") = [65533; 44]
  /\ Node.base64Utf8 (js "4oI=") = [65533]
  /\ Node.base64Utf8 (js "!") = [].
Proof. repeat split; vm_compute; reflexivity. Qed.

Example decode_base64_sample :
  Text.decodeMimeEncodedWords Node.bufferBase64Utf8
    (Some (js "=?UTF-8?B?MTAgQmVzdCBSZXZpZXdlZA==?= Albums"))
  = js "10 Best Reviewed Albums".
Proof. vm_compute. reflexivity. Qed.

Example image_pattern_sample :
  Patterns.imagePattern (js "Pink Floyd - The Wall")
  = Some (js "Pink Floyd ", js "The Wall")
  /\ Patterns.imagePattern (js "a-b-c: d") = Some (js "a-b-c", js " d")
  /\ Patterns.imagePattern (js "no separator") = None.
Proof. repeat split. Qed.

Example month_sample :
  Dates.formatMonthYYYYMM (ValidDate 2025 0) = js "2025-01"
  /\ Dates.formatMonthYYYYMM (ValidDate 2025 11) = js "2025-12"
  /\ Dates.formatMonthYYYYMM InvalidDate = js "NaN-NaN".
Proof. repeat split. Qed.

End Checks.


(** ** Strings *)

Module JsStringFacts.

Lemma isLineTerminator_isSpace c : isLineTerminator c = true -> isSpace c = true.
Proof.
  unfold isLineTerminator, isSpace. intros H.
  repeat (apply orb_true_iff in H; destruct H as [H | H]);
    apply N.eqb_eq in H; subst c; reflexivity.
Qed.

Lemma dropSpaces_suffix s : exists pre, s = pre ++ dropSpaces s.
Proof.
  induction s as [| c t [pre IH]]; simpl.
  - exists []. reflexivity.
  - destruct (isSpace c).
    + exists (c :: pre). simpl. congruence.
    + exists []. reflexivity.
Qed.

Lemma Forall_dropSpaces (P : N -> Prop) s : Forall P s -> Forall P (dropSpaces s).
Proof.
  intros H. destruct (dropSpaces_suffix s) as [pre E].
  rewrite E in H. apply Forall_app in H. tauto.
Qed.

Lemma Forall_trim (P : N -> Prop) s : Forall P s -> Forall P (trim s).
Proof.
  intros H. unfold trim, trimEnd, trimStart.
  apply Forall_rev, Forall_dropSpaces, Forall_rev, Forall_dropSpaces, H.
Qed.

(** Resuming after [k] skipped code units is replacing in the rest. *)
Lemma replaceFrom_drop m k s : replaceFrom m k s = replaceAll m (drop k s).
Proof.
  revert k. induction s as [| c t IH]; intros k.
  - destruct k; reflexivity.
  - destruct k as [| k]; [reflexivity |]. simpl. apply IH.
Qed.

Lemma replaceAll_miss m c t :
  m (c :: t) = None -> replaceAll m (c :: t) = c :: replaceAll m t.
Proof. unfold replaceAll. simpl. intros ->. reflexivity. Qed.

Lemma replaceAll_hit m c t n rep :
  m (c :: t) = Some (n, rep) ->
  replaceAll m (c :: t) = rep ++ replaceAll m (drop (Nat.pred n) t).
Proof.
  unfold replaceAll at 1. simpl. intros ->. rewrite replaceFrom_drop. reflexivity.
Qed.

Lemma takeSpaces_nil c t : takeSpaces (c :: t) = [] -> isSpace c = false.
Proof. simpl. destruct (isSpace c); [discriminate | reflexivity]. Qed.

Lemma collapsed_plain k s : Forall Props.plain (replaceFrom (spaceRun [32]) k s).
Proof.
  revert k. induction s as [| c t IH]; intros k; [constructor |].
  simpl. destruct k as [| k]; [| apply IH].
  unfold spaceRun. destruct (takeSpaces (c :: t)) eqn:E.
  - constructor; [left; eapply takeSpaces_nil, E | apply IH].
  - simpl. constructor; [right; reflexivity | apply IH].
Qed.

Lemma plain_not_terminator c : Props.plain c -> isLineTerminator c = false.
Proof.
  intros [H | ->]; [| reflexivity].
  destruct (isLineTerminator c) eqn:E; [| reflexivity].
  apply isLineTerminator_isSpace in E. congruence.
Qed.

Lemma splitLines_one s :
  Forall (fun c => isLineTerminator c = false) s -> Patterns.splitLines s = [s].
Proof.
  induction 1 as [| c t Hc _ IH]; [reflexivity |].
  simpl. rewrite Hc, IH. reflexivity.
Qed.

End JsStringFacts.

(** ** The gate *)

Module GateFacts.
Section GateFacts.

Variable toLowerCase : list N -> list N.

Lemma hasKey_true key pairs : (Gate.hasKey toLowerCase) key pairs = true <-> key ∈ (Gate.pairKey toLowerCase) <$> pairs.
Proof.
  unfold Gate.hasKey. rewrite existsb_exists, list_elem_of_fmap.
  split.
  - intros (p & Hin & Hk). apply bool_decide_eq_true in Hk.
    exists p. split; [congruence | apply list_elem_of_In, Hin].
  - intros (p & Hk & Hin). exists p.
    split; [apply list_elem_of_In, Hin | apply bool_decide_eq_true; congruence].
Qed.

Lemma hasKey_false key pairs : (Gate.hasKey toLowerCase) key pairs = false <-> key ∉ (Gate.pairKey toLowerCase) <$> pairs.
Proof.
  rewrite <- hasKey_true. destruct ((Gate.hasKey toLowerCase) key pairs); split; congruence.
Qed.

Lemma falsy_short s : falsy s = true -> (List.length s < 2)%nat.
Proof. destruct s; [simpl; lia | discriminate]. Qed.

Lemma addPair_accepts artist album pairs :
  Props.admissible toLowerCase artist album pairs ->
  (Gate.addPair toLowerCase) artist album pairs = pairs ++ [mkPair (trim artist) (trim album)].
Proof.
  intros (Ha & Hb & Hk). unfold Gate.addPair.
  destruct (falsy (trim artist)) eqn:Fa; [apply falsy_short in Fa; lia |].
  destruct (falsy (trim album)) eqn:Fb; [apply falsy_short in Fb; lia |].
  destruct (Nat.ltb_spec (List.length (trim artist)) 2); [lia |].
  destruct (Nat.ltb_spec (List.length (trim album)) 2); [lia |].
  simpl. apply hasKey_false in Hk. unfold Gate.pairKey in Hk. simpl in Hk.
  rewrite Hk. reflexivity.
Qed.

Lemma addPair_rejects artist album pairs :
  ~ Props.admissible toLowerCase artist album pairs -> (Gate.addPair toLowerCase) artist album pairs = pairs.
Proof.
  intros Hn. unfold Gate.addPair.
  destruct (falsy (trim artist)); [reflexivity |].
  destruct (falsy (trim album)); [reflexivity |].
  destruct (Nat.ltb_spec (List.length (trim artist)) 2); [reflexivity |].
  destruct (Nat.ltb_spec (List.length (trim album)) 2); [reflexivity |].
  simpl.
  destruct ((Gate.hasKey toLowerCase) _ pairs) eqn:Hk; [reflexivity |].
  exfalso. apply Hn. repeat split; [lia | lia |].
  apply hasKey_false in Hk. exact Hk.
Qed.

Lemma admissible_dec artist album pairs :
  Props.admissible toLowerCase artist album pairs \/ ~ Props.admissible toLowerCase artist album pairs.
Proof.
  unfold Props.admissible.
  destruct (le_lt_dec 2 (List.length (trim artist)));
    destruct (le_lt_dec 2 (List.length (trim album)));
    destruct (decide (Gate.pairKey toLowerCase (mkPair (trim artist) (trim album)) ∈ (Gate.pairKey toLowerCase) <$> pairs));
    try (right; intros (? & ? & ?); (lia || contradiction)).
  left. auto.
Qed.

Lemma addPair_cases artist album pairs :
  (Gate.addPair toLowerCase) artist album pairs = pairs
  \/ (Gate.addPair toLowerCase) artist album pairs = pairs ++ [mkPair (trim artist) (trim album)].
Proof.
  destruct (admissible_dec artist album pairs) as [H | H].
  - right. apply addPair_accepts, H.
  - left. apply addPair_rejects, H.
Qed.

Lemma addPair_length artist album pairs :
  (List.length ((Gate.addPair toLowerCase) artist album pairs) <= S (List.length pairs))%nat.
Proof.
  destruct (addPair_cases artist album pairs) as [-> | ->];
    [| rewrite length_app; simpl]; lia.
Qed.

(** The keys of the array stay pairwise distinct. *)
Lemma addPair_NoDup artist album pairs :
  NoDup ((Gate.pairKey toLowerCase) <$> pairs) -> NoDup ((Gate.pairKey toLowerCase) <$> (Gate.addPair toLowerCase) artist album pairs).
Proof.
  intros Hnd. destruct (admissible_dec artist album pairs) as [H | H].
  - rewrite addPair_accepts by exact H. rewrite fmap_app. simpl.
    apply NoDup_app. split; [exact Hnd |]. split.
    + intros k Hk Hin. apply list_elem_of_singleton in Hin. subst k.
      destruct H as (_ & _ & H). contradiction.
    + apply NoDup_singleton.
  - rewrite addPair_rejects by exact H. exact Hnd.
Qed.

End GateFacts.
End GateFacts.

(** ** Running computations *)

Module ProgFacts.

Lemma run_bind {S A B : Type} (c : prog S A) (k : A -> prog S B) (s : S) :
  bind c k s = match c s with
               | (Returns a, s') => k a s'
               | (Throws, s') => (Throws, s')
               end.
Proof. reflexivity. Qed.

Lemma run_call {S A B : Type} (c : outcome A) (k : A -> prog S B) (s : S) :
  bind (call c) k s = match c with
                      | Returns a => k a s
                      | Throws => (Throws, s)
                      end.
Proof. rewrite run_bind. unfold call. destruct c; reflexivity. Qed.

Lemma run_getState {S B : Type} (k : S -> prog S B) (s : S) :
  bind getState k s = k s s.
Proof. reflexivity. Qed.

Lemma run_modify {S B : Type} (f : S -> S) (k : unit -> prog S B) (s : S) :
  bind (modify f) k s = k tt (f s).
Proof. reflexivity. Qed.

Lemma run_forEach_cons {S X : Type} (x : X) (rest : list X)
    (step : X -> prog S unit) (s : S) :
  forEach (x :: rest) step s
  = match step x s with
    | (Returns _, s') => forEach rest step s'
    | (Throws, s') => (Throws, s')
    end.
Proof. reflexivity. Qed.

Lemma keeps_ret {S A : Type} (I : S -> Prop) (a : A) : Props.keeps I (ret a).
Proof. intros s H. exact H. Qed.

Lemma keeps_call {S A : Type} (I : S -> Prop) (c : outcome A) :
  Props.keeps I (call c).
Proof. intros s H. exact H. Qed.

Lemma keeps_getState {S : Type} (I : S -> Prop) : Props.keeps I getState.
Proof. intros s H. exact H. Qed.

Lemma keeps_bind {S A B : Type} (I : S -> Prop) (c : prog S A)
    (k : A -> prog S B) :
  Props.keeps I c -> (forall a, Props.keeps I (k a)) -> Props.keeps I (bind c k).
Proof.
  intros Hc Hk s Hs. rewrite run_bind. specialize (Hc s Hs).
  destruct (c s) as [[a |] s']; simpl in *; [apply Hk, Hc | exact Hc].
Qed.

Lemma keeps_tryCatch {S A : Type} (I : S -> Prop) (body handler : prog S A) :
  Props.keeps I body -> Props.keeps I handler -> Props.keeps I (tryCatch body handler).
Proof.
  intros Hb Hh s Hs. unfold tryCatch. specialize (Hb s Hs).
  destruct (body s) as [[a |] s']; simpl in *; [exact Hb | apply Hh, Hb].
Qed.

Lemma forEach_keeps {S X : Type} (I : S -> Prop) (step : X -> prog S unit) :
  (forall x, Props.keeps I (step x)) -> forall xs, Props.keeps I (forEach xs step).
Proof.
  intros Hstep. induction xs as [| x rest IH]; [apply keeps_ret |].
  apply (keeps_bind I (step x) (fun _ => forEach rest step)); auto.
Qed.

End ProgFacts.

(** ** The markup strategies keep the array in shape *)

Module StrategyFacts.
Section Keeps.

Context {cheerio : Cheerio}.
Variable toLowerCase : list N -> list N.

(** Any property of [pairs] that survives a push below ten entries. *)
Variable I : list Pair -> Prop.
Hypothesis I_push :
  forall artist album pairs,
    I pairs -> (List.length pairs < 10)%nat ->
    I (Gate.addPair toLowerCase artist album pairs).

Lemma cardStep_keeps block :
  Props.keeps I (Strategies.cardStep toLowerCase block).
Proof.
  intros pairs H. unfold Strategies.cardStep. rewrite ProgFacts.run_getState.
  destruct (Nat.leb_spec 10 (List.length pairs)); [exact H |].
  rewrite ProgFacts.run_call.
  destruct (Strategies.cardCandidate block) as [[a b] |]; [| exact H].
  simpl. apply I_push; assumption.
Qed.

Lemma linkStep_keeps findEm el :
  Props.keeps I (Strategies.linkStep toLowerCase findEm el).
Proof.
  intros pairs H. unfold Strategies.linkStep. rewrite ProgFacts.run_getState.
  destruct (Nat.leb_spec 10 (List.length pairs)); [exact H |].
  rewrite ProgFacts.run_call.
  destruct (Strategies.trimmedText [el]); [| exact H].
  rewrite ProgFacts.run_call.
  destruct (findEm el); [| exact H].
  simpl. apply I_push; assumption.
Qed.

Lemma candidateLoop_keeps candidates pairs :
  I pairs -> (List.length pairs < 10)%nat ->
  I (snd (Strategies.candidateLoop toLowerCase candidates pairs)).
Proof.
  revert pairs. induction candidates as [| txt rest IH]; intros pairs H Hlt;
    [exact H |].
  cbn [Strategies.candidateLoop].
  destruct (Patterns.imagePattern txt) as [[g1 g2] |]; [| auto].
  unfold Strategies.addPair. rewrite ProgFacts.run_modify, ProgFacts.run_getState.
  pose proof (I_push g1 g2 pairs H Hlt) as H'.
  destruct (Nat.leb_spec 10 (List.length (Gate.addPair toLowerCase g1 g2 pairs)));
    [exact H' | apply IH; assumption].
Qed.

Lemma imageStep_keeps img :
  Props.keeps I (Strategies.imageStep toLowerCase img).
Proof.
  intros pairs H. unfold Strategies.imageStep. rewrite ProgFacts.run_getState.
  destruct (Nat.leb_spec 10 (List.length pairs)); [exact H |].
  rewrite ProgFacts.run_call.
  destruct (Strategies.attrText img attr_alt); [| exact H].
  rewrite ProgFacts.run_call.
  destruct (Strategies.attrText img attr_title); [| exact H].
  apply candidateLoop_keeps; assumption.
Qed.

Lemma markup_keeps findEm rawBody :
  Props.keeps I (Strategies.markup toLowerCase findEm rawBody).
Proof.
  unfold Strategies.markup.
  apply ProgFacts.keeps_bind; [apply ProgFacts.keeps_call | intros doc].
  apply ProgFacts.keeps_bind; [apply ProgFacts.keeps_call | intros cards].
  apply ProgFacts.keeps_bind;
    [apply ProgFacts.forEach_keeps, cardStep_keeps
    | intros _].
  apply ProgFacts.keeps_bind; [apply ProgFacts.keeps_getState | intros s1].
  apply ProgFacts.keeps_bind.
  - destruct (List.length s1 <? 10)%nat; [| apply ProgFacts.keeps_ret].
    apply ProgFacts.keeps_bind; [apply ProgFacts.keeps_call | intros links].
    apply ProgFacts.forEach_keeps, linkStep_keeps.
  - intros _.
    apply ProgFacts.keeps_bind; [apply ProgFacts.keeps_getState | intros s2].
    destruct (List.length s2 <? 10)%nat; [| apply ProgFacts.keeps_ret].
    apply ProgFacts.keeps_bind; [apply ProgFacts.keeps_call | intros imgs].
    apply ProgFacts.forEach_keeps, imageStep_keeps.
Qed.

End Keeps.
End StrategyFacts.

(** ** The two extractors *)

Module ExtractorFacts.
Section Extractors.

Context {cheerio : Cheerio}.
Variable toLowerCase : list N -> list N.

(** The parser returns the array as the [try] statement left it. *)
Lemma parser_run rawBody pairs :
  Parser.extractProgram toLowerCase rawBody pairs
  = let final := snd (Strategies.markup toLowerCase Parser._findNearestEm
                        rawBody pairs) in
    (Returns final, final).
Proof.
  unfold Parser.extractProgram. rewrite ProgFacts.run_bind. unfold tryCatch.
  destruct (Strategies.markup _ _ rawBody pairs) as [[[] |] s']; reflexivity.
Qed.

(** The loop over the lines never throws. *)
Lemma lineLoop_returns lines pairs :
  fst (Monolith.lineLoop toLowerCase lines pairs) = Returns tt.
Proof.
  revert pairs. induction lines as [| line rest IH]; intros pairs; [reflexivity |].
  cbn [Monolith.lineLoop]. rewrite ProgFacts.run_getState.
  destruct (10 <=? List.length pairs)%nat; [reflexivity |].
  rewrite ProgFacts.run_bind.
  destruct (Patterns.patternArtistDashAlbum line) as [[g1 g2] |];
    [| destruct (Patterns.patternAlbumByArtist line) as [[g1 g2] |]];
    simpl; apply IH.
Qed.

Lemma fallback_run rawBody pairs :
  Monolith.fallback toLowerCase rawBody pairs
  = let final := snd (Monolith.lineLoop toLowerCase
                        (Monolith.plainLines (Monolith.stripHtml rawBody)) pairs) in
    (Returns (take 10 final), final).
Proof.
  unfold Monolith.fallback. rewrite ProgFacts.run_bind.
  pose proof (lineLoop_returns
                (Monolith.plainLines (Monolith.stripHtml rawBody)) pairs) as H.
  destruct (Monolith.lineLoop _ _ pairs) as [[[] |] s']; simpl in *;
    [reflexivity | discriminate].
Qed.

(** The monolithic extractor returns the first ten entries of the array it
    ends with. *)
Lemma monolith_run rawBody pairs :
  Monolith.extractProgram toLowerCase rawBody pairs
  = let final := snd (Monolith.extractProgram toLowerCase rawBody pairs) in
    (Returns (take 10 final), final).
Proof.
  unfold Monolith.extractProgram. rewrite ProgFacts.run_bind.
  unfold tryCatch, Monolith.tryBlock. rewrite ProgFacts.run_bind.
  destruct (Strategies.markup _ _ rawBody pairs) as [[[] |] s'].
  - rewrite ProgFacts.run_getState.
    destruct (1 <=? List.length s')%nat; [reflexivity |].
    simpl. rewrite fallback_run. reflexivity.
  - simpl. rewrite fallback_run. reflexivity.
Qed.

Section Keeps.

Variable I : list Pair -> Prop.
Hypothesis I_push :
  forall artist album pairs,
    I pairs -> (List.length pairs < 10)%nat ->
    I (Gate.addPair toLowerCase artist album pairs).

Lemma parser_keeps rawBody :
  Props.keeps I (Parser.extractProgram toLowerCase rawBody).
Proof.
  intros pairs H. rewrite parser_run. simpl.
  apply (StrategyFacts.markup_keeps toLowerCase I I_push); exact H.
Qed.

Lemma lineLoop_keeps lines :
  Props.keeps I (Monolith.lineLoop toLowerCase lines).
Proof.
  induction lines as [| line rest IH]; intros pairs H; [exact H |].
  cbn [Monolith.lineLoop]. rewrite ProgFacts.run_getState.
  destruct (Nat.leb_spec 10 (List.length pairs)); [exact H |].
  rewrite ProgFacts.run_bind.
  destruct (Patterns.patternArtistDashAlbum line) as [[g1 g2] |];
    [| destruct (Patterns.patternAlbumByArtist line) as [[g1 g2] |]];
    simpl; apply IH; auto.
Qed.

Lemma fallback_keeps rawBody :
  Props.keeps I (Monolith.fallback toLowerCase rawBody).
Proof.
  intros pairs H. rewrite fallback_run. simpl. apply lineLoop_keeps, H.
Qed.

Lemma monolith_keeps rawBody :
  Props.keeps I (Monolith.extractProgram toLowerCase rawBody).
Proof.
  unfold Monolith.extractProgram.
  apply ProgFacts.keeps_bind.
  - apply ProgFacts.keeps_tryCatch; [| apply ProgFacts.keeps_ret].
    unfold Monolith.tryBlock.
    apply ProgFacts.keeps_bind;
      [apply (StrategyFacts.markup_keeps toLowerCase I I_push) | intros _].
    apply ProgFacts.keeps_bind; [apply ProgFacts.keeps_getState | intros s].
    destruct (1 <=? List.length s)%nat; apply ProgFacts.keeps_ret.
  - intros [result |]; [apply ProgFacts.keeps_ret | apply fallback_keeps].
Qed.

End Keeps.

Lemma bounded_push artist album pairs :
  Props.bounded pairs -> (List.length pairs < 10)%nat ->
  Props.bounded (Gate.addPair toLowerCase artist album pairs).
Proof.
  unfold Props.bounded. intros _ H.
  pose proof (GateFacts.addPair_length toLowerCase artist album pairs). lia.
Qed.

(** Both extractors return, and return at most ten pairs. *)
Lemma parser_returns_bounded rawBody :
  exists pairs, Parser.extractAlbumArtistPairs toLowerCase rawBody = Returns pairs
                /\ (List.length pairs <= 10)%nat.
Proof.
  unfold Parser.extractAlbumArtistPairs.
  pose proof (parser_keeps Props.bounded bounded_push rawBody []) as H.
  rewrite parser_run in *. simpl in *. eexists. split; [reflexivity |].
  apply H. unfold Props.bounded. simpl. lia.
Qed.

Lemma monolith_returns_bounded rawBody :
  exists pairs, Monolith.extractAlbumArtistPairs toLowerCase rawBody = Returns pairs
                /\ (List.length pairs <= 10)%nat.
Proof.
  unfold Monolith.extractAlbumArtistPairs. rewrite monolith_run. simpl.
  eexists. split; [reflexivity |]. rewrite length_take. lia.
Qed.

End Extractors.
End ExtractorFacts.

(** ** The parser against the monolithic script *)

Module Refinement.





Section Refinement.

Context {cheerio : Cheerio}.
Variable toLowerCase : list N -> list N.







End Refinement.
End Refinement.

(** ** Text *)

Module TextFacts.
Import JsStringFacts.

Lemma drop_takeSpaces s : drop (List.length (takeSpaces s)) s = dropSpaces s.
Proof.
  induction s as [| c t IH]; [reflexivity |].
  simpl. destruct (isSpace c); [simpl; exact IH | reflexivity].
Qed.

Lemma collapse_space c t :
  isSpace c = true ->
  replaceAll (spaceRun [32]) (c :: t) = 32 :: replaceAll (spaceRun [32]) (dropSpaces t).
Proof.
  intros Hc.
  rewrite (replaceAll_hit _ c t (S (List.length (takeSpaces t))) [32]).
  - simpl. rewrite drop_takeSpaces. reflexivity.
  - unfold spaceRun. simpl. rewrite Hc. reflexivity.
Qed.

Lemma collapse_other c t :
  isSpace c = false ->
  replaceAll (spaceRun [32]) (c :: t) = c :: replaceAll (spaceRun [32]) t.
Proof.
  intros Hc. apply replaceAll_miss. unfold spaceRun. simpl. rewrite Hc. reflexivity.
Qed.

Lemma dropSpaces_length s : (List.length (dropSpaces s) <= List.length s)%nat.
Proof.
  induction s as [| c t IH]; simpl; [lia |].
  destruct (isSpace c); simpl; lia.
Qed.

(** Induction along the scan of [/\s+/g]. *)
Lemma collapse_ind (P : list N -> Prop) :
  P [] ->
  (forall c t, isSpace c = false -> P t -> P (c :: t)) ->
  (forall c t, isSpace c = true -> P (dropSpaces t) -> P (c :: t)) ->
  forall s, P s.
Proof.
  intros Hnil Hother Hspace s.
  remember (List.length s) as n eqn:En. revert s En.
  induction n as [n IH] using lt_wf_ind. intros [| c t] En; [exact Hnil |].
  simpl in En. destruct (isSpace c) eqn:Hc.
  - apply Hspace; [exact Hc |].
    apply (IH (List.length (dropSpaces t))); [| reflexivity].
    pose proof (dropSpaces_length t). lia.
  - apply Hother; [exact Hc |]. apply (IH (List.length t)); [lia | reflexivity].
Qed.

Lemma dropSpaces_head s :
  match dropSpaces s with [] => True | d :: _ => isSpace d = false end.
Proof.
  induction s as [| c t IH]; simpl; [exact Logic.I |].
  destruct (isSpace c) eqn:Hc; [exact IH | exact Hc].
Qed.

Lemma collapse_head s :
  match s with [] => True | d :: _ => isSpace d = false end ->
  match replaceAll (spaceRun [32]) s with
  | [] => True
  | d :: _ => isSpace d = false
  end.
Proof.
  destruct s as [| d t]; [trivial |]. intros Hd.
  rewrite collapse_other by exact Hd. exact Hd.
Qed.

Lemma collapsed_collapse s : Props.collapsed (replaceAll (spaceRun [32]) s).
Proof.
  induction s as [| c t Hc IH | c t Hc IH] using collapse_ind.
  - exact Logic.I.
  - rewrite collapse_other by exact Hc. simpl. rewrite Hc. exact IH.
  - rewrite collapse_space by exact Hc. simpl.
    split; [reflexivity |]. split; [| exact IH].
    apply collapse_head, dropSpaces_head.
Qed.

Lemma collapsed_fixed s : Props.collapsed s -> replaceAll (spaceRun [32]) s = s.
Proof.
  induction s as [| c t IH]; [reflexivity |].
  simpl. destruct (isSpace c) eqn:Hc.
  - intros (-> & Hnext & Ht). rewrite collapse_space by exact Hc.
    f_equal. destruct t as [| d t']; [reflexivity |].
    simpl. rewrite Hnext. apply IH, Ht.
  - intros Ht. rewrite collapse_other by exact Hc. f_equal. apply IH, Ht.
Qed.

Lemma collapsed_suffix pre s : Props.collapsed (pre ++ s) -> Props.collapsed s.
Proof.
  induction pre as [| c pre IH]; [trivial |].
  simpl. destruct (isSpace c); [intros (_ & _ & H) | intros H]; apply IH, H.
Qed.

Lemma collapsed_prefix s post : Props.collapsed (s ++ post) -> Props.collapsed s.
Proof.
  induction s as [| c s IH]; [intros; exact Logic.I |].
  simpl. destruct (isSpace c).
  - intros (Hc & Hnext & H). split; [exact Hc |]. split; [| apply IH, H].
    destruct s; [exact Logic.I | exact Hnext].
  - intros H. apply IH, H.
Qed.

Lemma trimEnd_prefix s : exists post, s = trimEnd s ++ post.
Proof.
  unfold trimEnd. destruct (dropSpaces_suffix (rev s)) as [pre E].
  exists (rev pre). rewrite <- rev_app_distr, <- E, rev_involutive. reflexivity.
Qed.

Lemma collapsed_trim s : Props.collapsed s -> Props.collapsed (trim s).
Proof.
  intros H. unfold trim, trimStart.
  destruct (dropSpaces_suffix s) as [pre E]. rewrite E in H.
  apply collapsed_suffix in H.
  destruct (trimEnd_prefix (dropSpaces s)) as [post E'].
  rewrite E' in H. apply collapsed_prefix in H. exact H.
Qed.

Lemma dropSpaces_fixed s :
  match s with [] => True | d :: _ => isSpace d = false end -> dropSpaces s = s.
Proof. destruct s as [| d t]; [trivial |]. simpl. intros ->. reflexivity. Qed.

Lemma dropSpaces_idem s : dropSpaces (dropSpaces s) = dropSpaces s.
Proof. apply dropSpaces_fixed, dropSpaces_head. Qed.

Lemma trimEnd_idem s : trimEnd (trimEnd s) = trimEnd s.
Proof. unfold trimEnd. rewrite rev_involutive, dropSpaces_idem. reflexivity. Qed.

(** The head of a trimmed string is not white space. *)
Lemma trimEnd_head s :
  match s with [] => True | d :: _ => isSpace d = false end ->
  match trimEnd s with [] => True | d :: _ => isSpace d = false end.
Proof.
  intros H. destruct (trimEnd_prefix s) as [post E].
  destruct (trimEnd s) as [| d t]; [exact Logic.I |].
  rewrite E in H. exact H.
Qed.

Lemma trim_idem s : trim (trim s) = trim s.
Proof.
  unfold trim, trimStart.
  rewrite (dropSpaces_fixed (trimEnd (dropSpaces s)))
    by apply trimEnd_head, dropSpaces_head.
  apply trimEnd_idem.
Qed.

(** A string that went through [normalizeSpaces] is left alone by it. *)
Lemma normalizeSpaces_idem s :
  Text.normalizeSpaces (Text.normalizeSpaces s) = Text.normalizeSpaces s.
Proof.
  unfold Text.normalizeSpaces.
  rewrite (collapsed_fixed (trim _)) by apply collapsed_trim, collapsed_collapse.
  apply trim_idem.
Qed.

(** The two scripts strip markup alike. *)
Lemma stripHtml_same input : Monolith.stripHtml input = Text.stripHtml input.
Proof. reflexivity. Qed.

Lemma stripHtml_plain input : Forall Props.plain (Text.stripHtml input).
Proof.
  destruct input as [[| c t] |]; try constructor.
  unfold Text.stripHtml, Text.normalizeSpaces.
  apply Forall_trim, collapsed_plain.
Qed.

Lemma plainLines_short input :
  (List.length (Monolith.plainLines (Monolith.stripHtml input)) <= 1)%nat.
Proof.
  unfold Monolith.plainLines. rewrite stripHtml_same.
  rewrite splitLines_one.
  - simpl. destruct (negb _); simpl; lia.
  - eapply Forall_impl; [apply stripHtml_plain |].
    intros c. apply plain_not_terminator.
Qed.

(** *** Text without markup *)

Lemma nowhere_fixed (m : matcher) s : Props.nowhere m s -> replaceAll m s = s.
Proof.
  induction s as [| c t IH]; [reflexivity |].
  intros [Hm Ht]. rewrite replaceAll_miss by exact Hm. f_equal. apply IH, Ht.
Qed.

Lemma absent_fixed pat rep s :
  includes pat s = false -> replaceAll (literal pat rep) s = s.
Proof.
  induction s as [| c t IH]; [reflexivity |].
  cbn [includes]. destruct (isPrefix pat (c :: t)) eqn:E; [discriminate |].
  intros Ht. rewrite replaceAll_miss by (unfold literal; rewrite E; reflexivity).
  f_equal. apply IH, Ht.
Qed.

(** On text without markup, [stripHtml] only normalises white space. *)
Lemma stripHtml_markupFree s :
  Props.markupFree s -> Text.stripHtml (Some s) = Text.normalizeSpaces s.
Proof.
  intros (Hstyle & Hscript & Htag & Hnbsp & Hamp & Hquot & Happ & Hlt & Hgt).
  destruct s as [| c t]; [reflexivity |].
  unfold Text.stripHtml, Text.decodeHtmlEntities. cbv zeta.
  rewrite (nowhere_fixed _ _ Hstyle), (nowhere_fixed _ _ Hscript),
    (nowhere_fixed _ _ Htag).
  rewrite (absent_fixed _ _ _ Hnbsp), (absent_fixed _ _ _ Hamp),
    (absent_fixed _ _ _ Hquot), (absent_fixed _ _ _ Happ),
    (absent_fixed _ _ _ Hlt), (absent_fixed _ _ _ Hgt).
  reflexivity.
Qed.

Lemma stripHtml_normal input :
  Text.normalizeSpaces (Text.stripHtml input) = Text.stripHtml input.
Proof.
  destruct input as [[| c t] |]; try reflexivity.
  unfold Text.stripHtml. apply normalizeSpaces_idem.
Qed.

End TextFacts.

(** ** MIME encoded words *)

Module MimeFacts.
Import JsStringFacts.
Section MimeFacts.

Variable bufferBase64Utf8 : list N -> outcome (list N).

Lemma takeUntilQuestion_app word rest :
  Forall (fun c => c <> Text.question) word ->
  Text.takeUntilQuestion (word ++ Text.question :: rest) = word.
Proof.
  induction 1 as [| c t Hc _ IH]; [reflexivity |].
  cbn [app Text.takeUntilQuestion].
  destruct (N.eqb_spec c Text.question); [contradiction | congruence].
Qed.

Lemma drop_app_length {A : Type} (l r : list A) : drop (List.length l) (l ++ r) = r.
Proof. induction l; simpl; auto. Qed.

Lemma encodedWord_at charset enc text rest :
  Props.wellFormed charset enc text ->
  Text.encodedWord bufferBase64Utf8 (Props.encoded charset enc text ++ rest)
  = Some (List.length (Props.encoded charset enc text),
          Text.decodeWord bufferBase64Utf8 enc text).
Proof.
  intros (Hc0 & Hc & Henc & Ht0 & Ht).
  unfold Props.encoded, Text.encodedWord. cbn [js List.map list_ascii_of_string app].
  change (N_of_ascii "=") with Text.equals.
  change (N_of_ascii "?") with Text.question.
  rewrite !N.eqb_refl. cbn [andb].
  rewrite <- !app_assoc. cbn [app].
  rewrite takeUntilQuestion_app by exact Hc.
  destruct charset as [| c0 cs]; [contradiction |].
  rewrite drop_app_length.
  rewrite Henc, N.eqb_refl. cbn [andb].
  rewrite <- (app_assoc text). cbn [app].
  rewrite takeUntilQuestion_app by exact Ht.
  destruct text as [| t0 ts]; [contradiction |].
  rewrite drop_app_length.
  rewrite N.eqb_refl. f_equal. f_equal.
  cbn [List.length]. rewrite !length_app. cbn [List.length].
  rewrite ?length_app. cbn [List.length]. lia.
Qed.

(** The scan replaces a word at its head and goes on behind it. *)
Lemma decode_at_word charset enc text rest :
  Props.wellFormed charset enc text ->
  replaceAll (Text.encodedWord bufferBase64Utf8) (Props.encoded charset enc text ++ rest)
  = Text.decodeWord bufferBase64Utf8 enc text
    ++ replaceAll (Text.encodedWord bufferBase64Utf8) rest.
Proof.
  intros H. pose proof (encodedWord_at charset enc text rest H) as E.
  remember (Props.encoded charset enc text) as word eqn:Ew.
  destruct word as [| w ws]; [discriminate Ew |].
  cbn [app] in *. rewrite (replaceAll_hit _ _ _ _ _ E).
  cbn [List.length Nat.pred]. rewrite drop_app_length. reflexivity.
Qed.

(** Text without [=] holds no encoded word. *)
Lemma decode_plain_prefix pre rest :
  Forall (fun c => c <> Text.equals) pre ->
  replaceAll (Text.encodedWord bufferBase64Utf8) (pre ++ rest)
  = pre ++ replaceAll (Text.encodedWord bufferBase64Utf8) rest.
Proof.
  induction 1 as [| c t Hc _ IH]; [reflexivity |].
  cbn [app]. rewrite replaceAll_miss; [congruence |].
  unfold Text.encodedWord. destruct (t ++ rest); [reflexivity |].
  destruct (N.eqb_spec c Text.equals); [contradiction | reflexivity].
Qed.

End MimeFacts.

(** With a library call that always returns, the [catch] is not reached. *)
Lemma decodeWord_total (buffer : list N -> list N) enc text :
  Text.decodeWord (fun t => Returns (buffer t)) enc text
  = if (asciiUpper enc =? 66)%N then buffer text else Text.decodeQ text.
Proof.
  unfold Text.decodeWord. destruct (asciiUpper enc =? 66)%N; reflexivity.
Qed.

End MimeFacts.

(** ** [uniqueBy] *)

Module CollectionFacts.
Section UniqueBy.

Context {A K : Type} `{Countable K}.
Variable keyFn : A -> K.

Lemma uniqueByFrom_keys (seen : gset K) (array : list A) (k : K) :
  k ∈ keyFn <$> Collections.uniqueByFrom keyFn seen array
  <-> k ∈ keyFn <$> array /\ k ∉ seen.
Proof.
  revert seen. induction array as [| item rest IH]; intros seen;
    cbn [Collections.uniqueByFrom].
  - rewrite fmap_nil, elem_of_nil. tauto.
  - rewrite (fmap_cons keyFn item rest), elem_of_cons.
    destruct (decide (keyFn item ∈ seen)) as [Hin | Hout].
    + rewrite IH. split; [tauto |].
      intros [[-> | Hk] Hs]; [contradiction | tauto].
    + rewrite fmap_cons, elem_of_cons, IH, not_elem_of_union,
        not_elem_of_singleton.
      split.
      * intros [-> | (Hk & _ & Hs)]; tauto.
      * intros [[-> | Hk] Hs]; [tauto |].
        destruct (decide (k = keyFn item)); tauto.
Qed.

Lemma uniqueByFrom_NoDup (seen : gset K) (array : list A) :
  NoDup (keyFn <$> Collections.uniqueByFrom keyFn seen array).
Proof.
  revert seen. induction array as [| item rest IH]; intros seen;
    cbn [Collections.uniqueByFrom].
  - constructor.
  - destruct (decide (keyFn item ∈ seen)); [apply IH |].
    rewrite fmap_cons. constructor; [| apply IH].
    rewrite uniqueByFrom_keys, not_elem_of_union, not_elem_of_singleton.
    tauto.
Qed.

Lemma uniqueBy_keys (array : list A) (k : K) :
  k ∈ keyFn <$> Collections.uniqueBy array keyFn <-> k ∈ keyFn <$> array.
Proof.
  unfold Collections.uniqueBy. rewrite uniqueByFrom_keys.
  pose proof (not_elem_of_empty (C := gset K) k). tauto.
Qed.

Lemma uniqueBy_NoDup (array : list A) :
  NoDup (keyFn <$> Collections.uniqueBy array keyFn).
Proof. apply uniqueByFrom_NoDup. Qed.

(** Among distinct keys, a key that occurs does so once. *)
Lemma filter_absent (l : list A) (k : K) :
  k ∉ keyFn <$> l ->
  List.filter (fun x => bool_decide (keyFn x = k)) l = [].
Proof.
  induction l as [| x rest IH]; [reflexivity |].
  rewrite fmap_cons, not_elem_of_cons. intros [Hx Hrest].
  cbn [List.filter]. rewrite bool_decide_eq_false_2 by congruence. auto.
Qed.

Lemma one_entry (l : list A) (k : K) :
  NoDup (keyFn <$> l) -> k ∈ keyFn <$> l ->
  List.length (List.filter (fun x => bool_decide (keyFn x = k)) l) = 1%nat.
Proof.
  induction l as [| x rest IH]; [intros _ Hk; inversion Hk |].
  rewrite fmap_cons, NoDup_cons, elem_of_cons. intros [Hx Hnd] Hk.
  cbn [List.filter]. destruct (decide (keyFn x = k)) as [E | Hne].
  - rewrite bool_decide_eq_true_2 by exact E. subst k.
    rewrite filter_absent by exact Hx. reflexivity.
  - rewrite bool_decide_eq_false_2 by exact Hne.
    apply IH; [exact Hnd |].
    destruct Hk as [-> | Hk]; [contradiction | exact Hk].
Qed.

Lemma uniqueBy_one_entry (array : list A) (k : K) :
  k ∈ keyFn <$> array ->
  List.length (List.filter (fun x => bool_decide (keyFn x = k))
                           (Collections.uniqueBy array keyFn)) = 1%nat.
Proof.
  intros Hk. apply one_entry; [apply uniqueBy_NoDup | apply uniqueBy_keys, Hk].
Qed.

Lemma uniqueBy_nil (array : list A) :
  Collections.uniqueBy array keyFn = [] -> array = [].
Proof.
  destruct array as [| item rest]; [reflexivity |].
  unfold Collections.uniqueBy. simpl.
  destruct (decide (keyFn item ∈ (∅ : gset K))) as [Hin | _];
    [| discriminate].
  destruct (not_elem_of_empty (C := gset K) _ Hin).
Qed.

End UniqueBy.
End CollectionFacts.

(** ** The aggregation loop *)

Module AggregatorFacts.
Section Loop.

Variable toLowerCase : list N -> list N.
Variable accepts : Email -> bool.
Variable extractAlbumArtistPairs : option (list N) -> outcome (list Pair).

(** The extractor never throws. *)
Hypothesis extract_returns :
  forall rawBody, exists pairs, extractAlbumArtistPairs rawBody = Returns pairs.

Local Notation "'contribution'" :=
  (Props.contribution toLowerCase accepts extractAlbumArtistPairs).
Local Notation "'turn'" :=
  (Props.turn toLowerCase accepts extractAlbumArtistPairs).
Local Notation "'mentions'" :=
  (Props.mentions toLowerCase accepts extractAlbumArtistPairs).

Lemma processMail_run mail st :
  Aggregator.processMail toLowerCase accepts extractAlbumArtistPairs mail st
  = (Returns tt, turn st mail).
Proof.
  unfold Aggregator.processMail, Props.turn, Props.contribution.
  destruct (accepts mail); [| reflexivity]. cbn [negb].
  rewrite ProgFacts.run_call.
  destruct (extract_returns (body mail)) as [rawPairs ->].
  destruct (Aggregator.dedupe toLowerCase rawPairs); reflexivity.
Qed.

Lemma processEmails_run emails st :
  Aggregator.processEmails toLowerCase accepts extractAlbumArtistPairs emails st
  = (Returns tt, fold_left turn emails st).
Proof.
  unfold Aggregator.processEmails. revert st.
  induction emails as [| mail rest IH]; intros st; [reflexivity |].
  rewrite ProgFacts.run_forEach_cons, processMail_run. apply IH.
Qed.

(** *** The archive set *)







(** *** One month *)

Lemma collect_single month pairs st bucket :
  Aggregator.monthToPairs st = [(month, bucket)] ->
  Aggregator.monthToPairs (Aggregator.collect month pairs st)
  = [(month, bucket ++ pairs)].
Proof.
  intros E. unfold Aggregator.collect. simpl. rewrite E. simpl.
  rewrite !decide_True by reflexivity. reflexivity.
Qed.

Lemma collect_first month pairs st :
  Aggregator.monthToPairs st = [] ->
  Aggregator.monthToPairs (Aggregator.collect month pairs st) = [(month, pairs)].
Proof. intros E. unfold Aggregator.collect. simpl. rewrite E. reflexivity. Qed.

Lemma markSuccessful_months u st :
  Aggregator.monthToPairs (Aggregator.markSuccessful u st)
  = Aggregator.monthToPairs st.
Proof. destruct u; reflexivity. Qed.

Lemma mentions_contribution month key mail :
  mentions month key mail ->
  key ∈ Gate.pairKey toLowerCase <$> contribution mail.
Proof.
  intros (Ha & _ & rawPairs & p & E & Hp & Hk).
  unfold Props.contribution. rewrite Ha, E. unfold Aggregator.dedupe.
  apply CollectionFacts.uniqueBy_keys, list_elem_of_fmap. eauto.
Qed.

Lemma turn_same_month month key mail st bucket :
  mentions month key mail ->
  Aggregator.monthToPairs st = [(month, bucket)] ->
  exists bucket',
    Aggregator.monthToPairs (turn st mail) = [(month, bucket')]
    /\ key ∈ Gate.pairKey toLowerCase <$> bucket'.
Proof.
  intros Hm E. pose proof (mentions_contribution _ _ _ Hm) as Hk.
  destruct Hm as (_ & Hmonth & _). unfold Props.turn.
  destruct (contribution mail) as [| p ps] eqn:Ec; [inversion Hk |].
  rewrite markSuccessful_months, Hmonth.
  rewrite (collect_single _ _ _ _ E).
  eexists. split; [reflexivity |]. rewrite fmap_app, elem_of_app. tauto.
Qed.

Lemma fold_same_month month key emails st bucket :
  Forall (mentions month key) emails ->
  Aggregator.monthToPairs st = [(month, bucket)] ->
  key ∈ Gate.pairKey toLowerCase <$> bucket ->
  exists bucket',
    Aggregator.monthToPairs (fold_left turn emails st) = [(month, bucket')]
    /\ key ∈ Gate.pairKey toLowerCase <$> bucket'.
Proof.
  intros Hall. revert st bucket.
  induction Hall as [| mail rest Hm _ IH]; intros st bucket E Hk; simpl.
  - eauto.
  - destruct (turn_same_month _ _ _ _ _ Hm E) as (b' & E' & Hk'). eauto.
Qed.

Lemma catalogWork_single month bucket key :
  key ∈ Gate.pairKey toLowerCase <$> bucket ->
  exists handed,
    Aggregator.catalogWork toLowerCase [(month, bucket)] = [(month, handed)]
    /\ List.length
         (List.filter (fun p => bool_decide (Gate.pairKey toLowerCase p = key))
                      handed) = 1%nat.
Proof.
  intros Hk. unfold Aggregator.catalogWork. simpl.
  pose proof (CollectionFacts.uniqueBy_one_entry
                (Gate.pairKey toLowerCase) bucket key Hk) as Hone.
  fold (Aggregator.dedupe toLowerCase bucket) in *.
  destruct (Aggregator.dedupe toLowerCase bucket) as [| p ps] eqn:Ed;
    [discriminate Hone |].
  rewrite bool_decide_eq_false_2 by discriminate. simpl.
  eexists. split; [reflexivity | exact Hone].
Qed.

(** Emails of one month that all mention a pair: the catalog receives that
    month alone, with the pair once. *)
Lemma same_month_once month key mail rest :
  Forall (mentions month key) (mail :: rest) ->
  exists handed,
    Aggregator.catalogWork toLowerCase
      (Aggregator.monthToPairs (fold_left turn (mail :: rest) Aggregator.initial))
    = [(month, handed)]
    /\ List.length
         (List.filter (fun p => bool_decide (Gate.pairKey toLowerCase p = key))
                      handed) = 1%nat.
Proof.
  intros Hall. apply Forall_cons in Hall as [Hm Hrest]. simpl.
  pose proof (mentions_contribution _ _ _ Hm) as Hk.
  assert (E : exists bucket,
             Aggregator.monthToPairs (turn Aggregator.initial mail)
             = [(month, bucket)]
             /\ key ∈ Gate.pairKey toLowerCase <$> bucket).
  { destruct Hm as (_ & Hmonth & _). unfold Props.turn.
    destruct (contribution mail) as [| p ps] eqn:Ec; [inversion Hk |].
    rewrite markSuccessful_months, Hmonth, collect_first by reflexivity.
    eauto. }
  destruct E as (bucket & E & Hb).
  destruct (fold_same_month _ _ _ _ _ Hrest E Hb) as (bucket' & E' & Hb').
  rewrite E'. apply catalogWork_single, Hb'.
Qed.

End Loop.
End AggregatorFacts.

(** ** Reordering a playlist *)

Module PlaylistFacts.

(** Moving the first [n] items before the item at [n] moves nothing. *)
Lemma applyReorder_whole {X : Type} (n : nat) (items : list X) :
  Playlist.applyReorder (Playlist.mkReorder 0 n n) items = items.
Proof.
  unfold Playlist.applyReorder. cbn [Playlist.range_start Playlist.range_length
                                     Playlist.insert_before].
  replace (if (0 <? n)%nat then (n - n)%nat else n) with 0%nat
    by (destruct n; simpl; [reflexivity | rewrite Nat.sub_diag; reflexivity]).
  rewrite drop_0, take_0. cbn [app Nat.add]. rewrite drop_0. apply take_drop.
Qed.

(** Whatever the dates, the request leaves the playlist as it was. *)
Lemma reorder_unchanged (pages : list (list Playlist.Item)) :
  Playlist.reorderPlaylistByDateAdded pages = concat pages.
Proof.
  unfold Playlist.reorderPlaylistByDateAdded, Playlist.reorderRequest.
  destruct (Playlist.collectTracks pages); [reflexivity |].
  apply applyReorder_whole.
Qed.

End PlaylistFacts.

(** * Main results *)

(** C1. For every input, null included, and whatever the markup library
    finds or throws, both [extractAlbumArtistPairs] return, and return a list
    of at most ten pairs. *)
Theorem extract_at_most_ten :
  forall (cheerio : Cheerio) (toLowerCase : list N -> list N)
         (rawBody : option (list N)),
    (exists pairs,
        Parser.extractAlbumArtistPairs toLowerCase rawBody = Returns pairs
        /\ (List.length pairs <= 10)%nat)
    /\ (exists pairs,
          Monolith.extractAlbumArtistPairs toLowerCase rawBody = Returns pairs
          /\ (List.length pairs <= 10)%nat).
Proof.
  intros cheerio toLowerCase rawBody. split.
  - apply ExtractorFacts.parser_returns_bounded.
  - apply ExtractorFacts.monolith_returns_bounded.
Qed.

(** C2. [addPair] appends the trimmed pair exactly when both trimmed strings
    have length at least two and the case-insensitive key is not yet in the
    list; otherwise the list is unchanged; and once a pair is in, any number
    of further submissions with the same key leave that one entry. *)
Theorem addPair_gate :
  forall (toLowerCase : list N -> list N) (artist album : list N)
         (pairs : list Pair),
    let entry := mkPair (trim artist) (trim album) in
    let key := Gate.pairKey toLowerCase entry in
    (Props.admissible toLowerCase artist album pairs ->
     Gate.addPair toLowerCase artist album pairs = pairs ++ [entry])
    /\ (~ Props.admissible toLowerCase artist album pairs ->
        Gate.addPair toLowerCase artist album pairs = pairs)
    /\ (forall duplicates : list (list N * list N),
          Props.admissible toLowerCase artist album pairs ->
          Forall (fun d => Gate.pairKey toLowerCase
                             (mkPair (trim (fst d)) (trim (snd d))) = key)
                 duplicates ->
          let final :=
            fold_left (fun ps d => Gate.addPair toLowerCase (fst d) (snd d) ps)
                      duplicates
                      (Gate.addPair toLowerCase artist album pairs) in
          final = pairs ++ [entry]
          /\ Props.entriesWithKey toLowerCase key final = [entry]).
Proof.
  intros toLowerCase artist album pairs entry key.
  split; [apply GateFacts.addPair_accepts |].
  split; [apply GateFacts.addPair_rejects |].
  intros duplicates Hadm Hdup final.
  assert (Hfinal : final = pairs ++ [entry]).
  { subst final. rewrite (GateFacts.addPair_accepts _ _ _ _ Hadm).
    fold entry. induction Hdup as [| d rest Hd _ IH]; [reflexivity |].
    cbn [fold_left]. rewrite GateFacts.addPair_rejects; [exact IH |].
    intros (_ & _ & Hnew). apply Hnew. rewrite Hd.
    rewrite fmap_app, elem_of_app. right. apply list_elem_of_singleton.
    reflexivity. }
  split; [exact Hfinal |]. rewrite Hfinal.
  unfold Props.entriesWithKey. rewrite List.filter_app.
  rewrite (CollectionFacts.filter_absent (Gate.pairKey toLowerCase) pairs key)
    by (destruct Hadm as (_ & _ & Hnew); exact Hnew).
  cbn [app List.filter]. fold key. rewrite bool_decide_eq_true_2 by reflexivity.
  reflexivity.
Qed.

(** C10. In the monolithic script the text handed to the line fallback holds
    no line terminator, so it splits into at most one non-empty line, and the
    fallback adds at most one pair to the array, whatever the body. *)
Theorem fallback_adds_at_most_one_pair :
  forall (toLowerCase : list N -> list N) (rawBody : option (list N))
         (pairs : list Pair),
    Forall (fun c => isLineTerminator c = false) (Monolith.stripHtml rawBody)
    /\ (List.length (Monolith.plainLines (Monolith.stripHtml rawBody)) <= 1)%nat
    /\ exists extra,
         (List.length extra <= 1)%nat
         /\ Monolith.fallback toLowerCase rawBody pairs
            = (Returns (take 10 (pairs ++ extra)), pairs ++ extra).
Proof.
  intros toLowerCase rawBody pairs.
  split.
  { rewrite TextFacts.stripHtml_same.
    eapply Forall_impl; [apply TextFacts.stripHtml_plain |].
    intros c. apply JsStringFacts.plain_not_terminator. }
  split; [apply TextFacts.plainLines_short |].
  rewrite ExtractorFacts.fallback_run. cbv zeta.
  pose proof (TextFacts.plainLines_short rawBody) as Hshort.
  destruct (Monolith.plainLines (Monolith.stripHtml rawBody)) as [| line [| l2 ls]];
    [| | simpl in Hshort; lia].
  - exists []. rewrite app_nil_r. split; [simpl; lia | reflexivity].
  - cbn [Monolith.lineLoop]. rewrite ProgFacts.run_getState.
    destruct (10 <=? List.length pairs)%nat.
    { exists []. rewrite app_nil_r. split; [simpl; lia | reflexivity]. }
    rewrite ProgFacts.run_bind.
    destruct (Patterns.patternArtistDashAlbum line) as [[g1 g2] |];
      [| destruct (Patterns.patternAlbumByArtist line) as [[g1 g2] |]].
    + unfold Strategies.addPair, modify. cbn [fst snd ret prog_monad].
      destruct (GateFacts.addPair_cases toLowerCase (trim g1) (trim g2) pairs)
        as [-> | ->].
      * exists []. rewrite app_nil_r. split; [simpl; lia | reflexivity].
      * eexists [_]. split; [simpl; lia | reflexivity].
    + unfold Strategies.addPair, modify. cbn [fst snd ret prog_monad].
      destruct (GateFacts.addPair_cases toLowerCase (trim g2) (trim g1) pairs)
        as [-> | ->].
      * exists []. rewrite app_nil_r. split; [simpl; lia | reflexivity].
      * eexists [_]. split; [simpl; lia | reflexivity].
    + exists []. rewrite app_nil_r. split; [simpl; lia | reflexivity].
Qed.


(** C5, as amended. When the output of [stripHtml] holds no tag, no style
    or script block and none of the six entities, stripping it again changes
    nothing. *)
Theorem stripHtml_idempotent_without_markup :
  forall input : option (list N),
    Props.markupFree (Text.stripHtml input) ->
    Text.stripHtml (Some (Text.stripHtml input)) = Text.stripHtml input
    /\ Monolith.stripHtml (Some (Monolith.stripHtml input))
       = Monolith.stripHtml input.
Proof.
  intros input H.
  assert (E : Text.stripHtml (Some (Text.stripHtml input)) = Text.stripHtml input)
    by (rewrite (TextFacts.stripHtml_markupFree _ H);
        apply TextFacts.stripHtml_normal).
  split; exact E.
Qed.

(** C5 as stated fails: decoding the entities of ["&lt;b&gt;"] yields a tag,
    which a second pass strips. *)
Lemma stripHtml_not_idempotent :
  Text.stripHtml (Some (js "&lt;b&gt;")) = js "<b>"
  /\ Text.stripHtml (Some (Text.stripHtml (Some (js "&lt;b&gt;")))) = []
  /\ Text.stripHtml (Some (Text.stripHtml (Some (js "&lt;b&gt;"))))
     <> Text.stripHtml (Some (js "&lt;b&gt;")).
Proof. split; [| split]; [reflexivity | reflexivity | discriminate]. Qed.

(** C6. On a playlist of two tracks, the older one first, the request sent
    moves the whole playlist before its own end: the newest-first order that
    was computed is not sent, and the playlist stays as it was. *)
Theorem reorder_leaves_playlist_order :
  let pages := [[Samples.older; Samples.newer]] in
  List.map Playlist.uri (Playlist.sortByDateAdded (Playlist.collectTracks pages))
  = [js "spotify:track:B"; js "spotify:track:A"]
  /\ Playlist.reorderRequest pages = Some (Playlist.mkReorder 0 2 2)
  /\ Playlist.reorderPlaylistByDateAdded pages = [Samples.older; Samples.newer].
Proof. repeat split. Qed.

(** C7, as amended. Decoding a run does not fail: a run that matches the
    pattern is replaced by what its decoder makes of the payload, whatever
    the payload is ([Buffer] for a [B] word, the [_] and [=HH] replacements
    for a [Q] word), and the rest of the string is decoded as usual. *)
Theorem matching_word_is_replaced_by_its_decoding :
  forall (buffer : list N -> list N)
         (pre charset : list N) (enc : N) (text rest : list N),
    Forall (fun c => c <> Text.equals) pre ->
    Props.wellFormed charset enc text ->
    Text.decodeMimeEncodedWords (fun t => Returns (buffer t))
      (Some (pre ++ Props.encoded charset enc text ++ rest))
    = pre
      ++ (if (asciiUpper enc =? 66)%N then buffer text else Text.decodeQ text)
      ++ Text.decodeMimeEncodedWords (fun t => Returns (buffer t)) (Some rest).
Proof.
  intros buffer pre charset enc text rest Hpre Hword.
  unfold Text.decodeMimeEncodedWords.
  rewrite MimeFacts.decode_plain_prefix by exact Hpre.
  rewrite MimeFacts.decode_at_word by exact Hword.
  rewrite MimeFacts.decodeWord_total. reflexivity.
Qed.

(** C7 as stated fails: a [B] word whose payload is not Base64 of UTF-8
    text comes out as a replacement character and a comma, and a [Q] word
    with a malformed escape comes out as its payload; neither is left in
    its encoded form. *)
Lemma undecodable_word_is_not_kept :
  Text.decodeMimeEncodedWords Node.bufferBase64Utf8
    (Some (js "=?utf-8?B?xyz?="))
  = [65533; 44]
  /\ [65533; 44] <> js "=?utf-8?B?xyz?="
  /\ Text.decodeMimeEncodedWords Node.bufferBase64Utf8
       (Some (js "=?utf-8?Q?a=ZZb?="))
     = js "a=ZZb"
  /\ js "a=ZZb" <> js "=?utf-8?Q?a=ZZb?=".
Proof.
  split; [vm_compute; reflexivity |]. split; [discriminate |].
  split; [vm_compute; reflexivity | discriminate].
Qed.



(** ** The two loops *)

Module LoopFacts.
Section LoopFacts.

Context {cheerio : Cheerio}.
Variable toLowerCase : list N -> list N.
Variable bufferBase64Utf8 : list N -> outcome (list N).

Lemma monolith_returns rawBody :
  exists pairs,
    Monolith.extractAlbumArtistPairs toLowerCase rawBody = Returns pairs.
Proof.
  destruct (ExtractorFacts.monolith_returns_bounded toLowerCase rawBody)
    as (pairs & E & _). eauto.
Qed.

Lemma parser_returns rawBody :
  exists pairs,
    Parser.extractAlbumArtistPairs toLowerCase rawBody = Returns pairs.
Proof.
  destruct (ExtractorFacts.parser_returns_bounded toLowerCase rawBody)
    as (pairs & E & _). eauto.
Qed.

Lemma main_run emails st :
  Main.processEmails toLowerCase bufferBase64Utf8 emails st
  = (Returns tt,
     fold_left (Props.turn toLowerCase (Main.accepts toLowerCase bufferBase64Utf8)
                  (Monolith.extractAlbumArtistPairs toLowerCase)) emails st).
Proof. apply AggregatorFacts.processEmails_run, monolith_returns. Qed.

Lemma sync_run emails st :
  Sync.processEmails toLowerCase emails st
  = (Returns tt,
     fold_left (Props.turn toLowerCase (Sync.accepts toLowerCase)
                  (Parser.extractAlbumArtistPairs toLowerCase)) emails st).
Proof. apply AggregatorFacts.processEmails_run, parser_returns. Qed.

End LoopFacts.
End LoopFacts.

(** C3. Emails of one calendar month that each hold a pair with the same
    case-insensitive key: the catalog receives that month alone, and its
    bucket holds exactly one entry with that key. *)
Theorem same_month_pair_handed_once :
  forall (cheerio : Cheerio) (toLowerCase : list N -> list N)
         (bufferBase64Utf8 : list N -> outcome (list N))
         (month key : list N) (mail : Email) (rest : list Email),
    (Forall (Props.mentions toLowerCase
               (Main.accepts toLowerCase bufferBase64Utf8)
               (Monolith.extractAlbumArtistPairs toLowerCase) month key)
            (mail :: rest) ->
     exists handed,
       Aggregator.catalogWork toLowerCase
         (Aggregator.monthToPairs
            (snd (Main.processEmails toLowerCase bufferBase64Utf8
                    (mail :: rest) Aggregator.initial)))
       = [(month, handed)]
       /\ List.length (Props.entriesWithKey toLowerCase key handed) = 1%nat)
    /\ (Forall (Props.mentions toLowerCase (Sync.accepts toLowerCase)
                  (Parser.extractAlbumArtistPairs toLowerCase) month key)
               (mail :: rest) ->
        exists handed,
          Aggregator.catalogWork toLowerCase
            (Aggregator.monthToPairs
               (snd (Sync.processEmails toLowerCase (mail :: rest)
                       Aggregator.initial)))
          = [(month, handed)]
          /\ List.length (Props.entriesWithKey toLowerCase key handed) = 1%nat).
Proof.
  intros cheerio toLowerCase buffer month key mail rest. split; intros Hall.
  - rewrite LoopFacts.main_run. cbn [snd].
    apply (AggregatorFacts.same_month_once _ _ _ month key mail rest Hall).
  - rewrite LoopFacts.sync_run. cbn [snd].
    apply (AggregatorFacts.same_month_once _ _ _ month key mail rest Hall).
Qed.

(** *** Emails of one mailbox *)

Module MailboxFacts.
Section MailboxFacts.

Variable toLowerCase : list N -> list N.
Variable accepts : Email -> bool.
Variable extractAlbumArtistPairs : option (list N) -> outcome (list Pair).





End MailboxFacts.
End MailboxFacts.


(** ** The results at sample inputs *)

Lemma addPair_gate_witness :
  Props.admissible Dom.asciiLower (js " Radiohead ") (js "OK Computer") []
  /\ Gate.addPair Dom.asciiLower (js " Radiohead ") (js "OK Computer") []
     = [Samples.radiohead]
  /\ fold_left (fun ps d => Gate.addPair Dom.asciiLower (fst d) (snd d) ps)
               [(js "RADIOHEAD", js "ok computer");
                (js "radiohead", js " OK COMPUTER")]
               (Gate.addPair Dom.asciiLower (js " Radiohead ")
                  (js "OK Computer") [])
     = [Samples.radiohead].
Proof.
  assert (Hadm : Props.admissible Dom.asciiLower (js " Radiohead ")
                   (js "OK Computer") []).
  { split; [vm_compute; lia |]. split; [vm_compute; lia |].
    intros Hin. inversion Hin. }
  destruct (addPair_gate Dom.asciiLower (js " Radiohead ") (js "OK Computer") [])
    as (Haccept & _ & Hdup).
  split; [exact Hadm |]. split; [exact (Haccept Hadm) |].
  apply (Hdup [(js "RADIOHEAD", js "ok computer");
               (js "radiohead", js " OK COMPUTER")] Hadm).
  repeat constructor.
Defined.

Lemma same_month_pair_handed_once_witness :
  (exists handed,
      Aggregator.catalogWork Dom.asciiLower
        (Aggregator.monthToPairs
           (snd (Main.processEmails (cheerio := Dom.parsedAs Samples.emptyPage)
                   Dom.asciiLower Node.bufferBase64Utf8 Samples.januaryMails
                   Aggregator.initial)))
      = [(js "2025-01", handed)]
      /\ List.length (Props.entriesWithKey Dom.asciiLower
                        (js "radiohead::ok computer") handed) = 1%nat)
  /\ (exists handed,
         Aggregator.catalogWork Dom.asciiLower
           (Aggregator.monthToPairs
              (snd (Sync.processEmails (cheerio := Dom.parsedBy Samples.cardsOf)
                      Dom.asciiLower Samples.januaryCards Aggregator.initial)))
         = [(js "2025-01", handed)]
         /\ List.length (Props.entriesWithKey Dom.asciiLower
                           (js "radiohead::ok computer") handed) = 1%nat).
Proof.
  split.
  - apply (proj1 (same_month_pair_handed_once (Dom.parsedAs Samples.emptyPage)
                    Dom.asciiLower Node.bufferBase64Utf8 (js "2025-01")
                    (js "radiohead::ok computer")
                    (Samples.january 41 "Radiohead - OK Computer")
                    [Samples.january 42 "RADIOHEAD - ok computer"])).
    repeat constructor;
      (eexists _, _; split; [vm_compute; reflexivity |];
       split; [apply list_elem_of_here | reflexivity]).
  - apply (proj2 (same_month_pair_handed_once (Dom.parsedBy Samples.cardsOf)
                    Dom.asciiLower Node.bufferBase64Utf8 (js "2025-01")
                    (js "radiohead::ok computer")
                    (Samples.january 41
                       (Samples.cardHtml "Radiohead" "OK Computer"))
                    [Samples.january 42
                       (Samples.cardHtml "RADIOHEAD" "ok computer")])).
    repeat constructor;
      (eexists _, _; split; [vm_compute; reflexivity |];
       split; [apply list_elem_of_here | reflexivity]).
Defined.


Lemma stripHtml_idempotent_without_markup_witness :
  Props.markupFree (Text.stripHtml (Some (js "<p>Tom &amp; Jerry</p>")))
  /\ Text.stripHtml (Some (Text.stripHtml (Some (js "<p>Tom &amp; Jerry</p>"))))
     = js "Tom & Jerry".
Proof.
  assert (H : Props.markupFree
                (Text.stripHtml (Some (js "<p>Tom &amp; Jerry</p>"))))
    by (vm_compute; repeat split).
  split; [exact H |].
  rewrite (proj1 (stripHtml_idempotent_without_markup
                    (Some (js "<p>Tom &amp; Jerry</p>")) H)).
  reflexivity.
Defined.

Lemma matching_word_is_replaced_by_its_decoding_witness :
  Text.decodeMimeEncodedWords Node.bufferBase64Utf8
    (Some (js "Re: " ++ Props.encoded (js "utf-8") 66 (js "xyz") ++ js " ok"))
  = js "Re: "
    ++ (if (asciiUpper 66 =? 66)%N then Node.base64Utf8 (js "xyz")
        else Text.decodeQ (js "xyz"))
    ++ Text.decodeMimeEncodedWords Node.bufferBase64Utf8 (Some (js " ok")).
Proof.
  apply (matching_word_is_replaced_by_its_decoding Node.base64Utf8).
  - vm_compute. repeat (constructor; [discriminate |]). constructor.
  - unfold Props.wellFormed.
    split; [discriminate |].
    split; [vm_compute; repeat (constructor; [discriminate |]); constructor |].
    split; [reflexivity |].
    split; [discriminate |].
    vm_compute. repeat (constructor; [discriminate |]). constructor.
Defined.



(** * Further properties *)

(** ** What the extractors return *)

Module ResultFacts.
Section ResultFacts.

Context {cheerio : Cheerio}.
Variable toLowerCase : list N -> list N.

Lemma valid_push artist album pairs :
  Forall Shape.validPair pairs -> (List.length pairs < 10)%nat ->
  Forall Shape.validPair (Gate.addPair toLowerCase artist album pairs).
Proof.
  intros H _.
  destruct (GateFacts.admissible_dec toLowerCase artist album pairs) as [Ha | Hn].
  - rewrite GateFacts.addPair_accepts by exact Ha.
    apply Forall_app. split; [exact H |]. constructor; [| constructor].
    destruct Ha as (Ha & Hb & _). unfold Shape.validPair. simpl.
    rewrite !TextFacts.trim_idem. auto.
  - rewrite GateFacts.addPair_rejects by exact Hn. exact H.
Qed.

Lemma distinct_push artist album pairs :
  Shape.distinctKeys toLowerCase pairs -> (List.length pairs < 10)%nat ->
  Shape.distinctKeys toLowerCase (Gate.addPair toLowerCase artist album pairs).
Proof. intros H _. apply GateFacts.addPair_NoDup, H. Qed.

(** Any property of the array that a push below ten entries keeps, and
    that passes to the first ten entries, holds of both results. *)
Lemma results_keep (I : list Pair -> Prop) (rawBody : option (list N)) :
  (forall artist album pairs,
      I pairs -> (List.length pairs < 10)%nat ->
      I (Gate.addPair toLowerCase artist album pairs)) ->
  I [] -> (forall pairs, I pairs -> I (take 10 pairs)) ->
  (exists pairs,
      Parser.extractAlbumArtistPairs toLowerCase rawBody = Returns pairs
      /\ I pairs)
  /\ (exists pairs,
        Monolith.extractAlbumArtistPairs toLowerCase rawBody = Returns pairs
        /\ I pairs).
Proof.
  intros Hpush Hnil Htake. split.
  - unfold Parser.extractAlbumArtistPairs.
    pose proof (ExtractorFacts.parser_keeps toLowerCase I Hpush rawBody [] Hnil)
      as H.
    rewrite ExtractorFacts.parser_run in *. cbn in *. eauto.
  - unfold Monolith.extractAlbumArtistPairs.
    pose proof (ExtractorFacts.monolith_keeps toLowerCase I Hpush rawBody []
                  Hnil) as H.
    rewrite ExtractorFacts.monolith_run in *. cbn in *. eauto.
Qed.

Lemma results_distinct (rawBody : option (list N)) :
  (exists pairs,
      Parser.extractAlbumArtistPairs toLowerCase rawBody = Returns pairs
      /\ Shape.distinctKeys toLowerCase pairs)
  /\ (exists pairs,
        Monolith.extractAlbumArtistPairs toLowerCase rawBody = Returns pairs
        /\ Shape.distinctKeys toLowerCase pairs).
Proof.
  apply (results_keep (Shape.distinctKeys toLowerCase)).
  - apply distinct_push.
  - constructor.
  - intros pairs H. unfold Shape.distinctKeys in *.
    rewrite <- (take_drop 10 pairs), fmap_app in H.
    apply NoDup_app in H. tauto.
Qed.

End ResultFacts.
End ResultFacts.

(** X1. Whatever the body and whatever the markup library does, every pair
    either extractor returns has a trimmed artist and a trimmed album of at
    least two code units each. *)
Theorem extracted_pairs_are_valid :
  forall (cheerio : Cheerio) (toLowerCase : list N -> list N)
         (rawBody : option (list N)),
    (exists pairs,
        Parser.extractAlbumArtistPairs toLowerCase rawBody = Returns pairs
        /\ Forall Shape.validPair pairs)
    /\ (exists pairs,
          Monolith.extractAlbumArtistPairs toLowerCase rawBody = Returns pairs
          /\ Forall Shape.validPair pairs).
Proof.
  intros cheerio toLowerCase rawBody.
  apply (ResultFacts.results_keep toLowerCase (Forall Shape.validPair)).
  - apply ResultFacts.valid_push.
  - constructor.
  - intros pairs H. apply Forall_take, H.
Qed.

(** X2. No two pairs returned by one call of either extractor have the same
    case-insensitive key. *)
Theorem extracted_pairs_are_distinct :
  forall (cheerio : Cheerio) (toLowerCase : list N -> list N)
         (rawBody : option (list N)),
    (exists pairs,
        Parser.extractAlbumArtistPairs toLowerCase rawBody = Returns pairs
        /\ Shape.distinctKeys toLowerCase pairs)
    /\ (exists pairs,
          Monolith.extractAlbumArtistPairs toLowerCase rawBody = Returns pairs
          /\ Shape.distinctKeys toLowerCase pairs).
Proof. intros. apply ResultFacts.results_distinct. Qed.

(** ** More on [uniqueBy] *)

Module UniqueFacts.
Section UniqueFacts.

Context {A K : Type} `{Countable K}.
Variable keyFn : A -> K.

Lemma uniqueByFrom_sublist (seen : gset K) (array : list A) :
  Collections.uniqueByFrom keyFn seen array `sublist_of` array.
Proof.
  revert seen. induction array as [| item rest IH]; intros seen;
    cbn [Collections.uniqueByFrom]; [constructor |].
  destruct (decide (keyFn item ∈ seen)).
  - apply sublist_cons, IH.
  - apply sublist_skip, IH.
Qed.

(** Distinct keys, none of them seen: nothing is dropped. *)
Lemma uniqueByFrom_fixed (seen : gset K) (array : list A) :
  NoDup (keyFn <$> array) ->
  (forall k, k ∈ keyFn <$> array -> k ∉ seen) ->
  Collections.uniqueByFrom keyFn seen array = array.
Proof.
  revert seen. induction array as [| item rest IH]; intros seen Hnd Hnew;
    cbn [Collections.uniqueByFrom]; [reflexivity |].
  rewrite fmap_cons in Hnd, Hnew. apply NoDup_cons in Hnd as [Hitem Hnd].
  destruct (decide (keyFn item ∈ seen)) as [Hin | _].
  - destruct (Hnew (keyFn item)); [apply list_elem_of_here | exact Hin].
  - f_equal. apply IH; [exact Hnd |].
    intros k Hk. rewrite not_elem_of_union, not_elem_of_singleton. split.
    + intros ->. contradiction.
    + apply Hnew, list_elem_of_further, Hk.
Qed.

Lemma uniqueBy_fixed (array : list A) :
  NoDup (keyFn <$> array) -> Collections.uniqueBy array keyFn = array.
Proof.
  intros Hnd. apply uniqueByFrom_fixed; [exact Hnd |].
  intros k _. apply not_elem_of_empty.
Qed.

Lemma uniqueByFrom_first (seen : gset K) (array : list A) (x : A) :
  x ∈ Collections.uniqueByFrom keyFn seen array ->
  Shape.firstOfItsKey keyFn array x.
Proof.
  unfold Shape.firstOfItsKey.
  revert seen. induction array as [| item rest IH]; intros seen;
    cbn [Collections.uniqueByFrom List.find]; [intros Hx; inversion Hx |].
  destruct (decide (keyFn item ∈ seen)) as [Hin | Hout].
  - intros Hx. rewrite bool_decide_eq_false_2; [apply (IH seen Hx) |].
    intros E.
    assert (Hk : keyFn x ∈ keyFn <$> Collections.uniqueByFrom keyFn seen rest)
      by (apply list_elem_of_fmap; eauto).
    apply CollectionFacts.uniqueByFrom_keys in Hk as [_ Hk].
    apply Hk. rewrite <- E. exact Hin.
  - intros Hx. apply elem_of_cons in Hx as [-> | Hx].
    + rewrite bool_decide_eq_true_2 by reflexivity. reflexivity.
    + rewrite bool_decide_eq_false_2; [apply (IH _ Hx) |].
      intros E.
      assert (Hk : keyFn x ∈ keyFn <$> Collections.uniqueByFrom keyFn
                                         ({[keyFn item]} ∪ seen) rest)
        by (apply list_elem_of_fmap; eauto).
      apply CollectionFacts.uniqueByFrom_keys in Hk as [_ Hk].
      apply Hk. rewrite elem_of_union, elem_of_singleton. left. congruence.
Qed.

(** The loop started with more keys seen drops more. *)
Lemma uniqueByFrom_twice (seen seen' : gset K) (array : list A) :
  Collections.uniqueByFrom keyFn seen
    (Collections.uniqueByFrom keyFn seen' array)
  = Collections.uniqueByFrom keyFn (seen ∪ seen') array.
Proof.
  revert seen seen'. induction array as [| item rest IH]; intros seen seen';
    cbn [Collections.uniqueByFrom]; [reflexivity |].
  destruct (decide (keyFn item ∈ seen')) as [Hin' | Hout'].
  - rewrite decide_True by (apply elem_of_union_r, Hin'). apply IH.
  - cbn [Collections.uniqueByFrom].
    destruct (decide (keyFn item ∈ seen)) as [Hin | Hout].
    + rewrite decide_True by (apply elem_of_union_l, Hin). rewrite IH.
      f_equal. apply set_eq. intros k.
      rewrite !elem_of_union, elem_of_singleton.
      split; [intros [? | [-> | ?]]; tauto | tauto].
    + rewrite decide_False
        by (rewrite elem_of_union; intros [? | ?]; contradiction).
      f_equal. rewrite IH. f_equal. apply set_eq. intros k.
      rewrite !elem_of_union, !elem_of_singleton. tauto.
Qed.

Lemma uniqueByFrom_app (seen : gset K) (a b : list A) :
  Collections.uniqueByFrom keyFn seen (a ++ b)
  = Collections.uniqueByFrom keyFn seen a
    ++ Collections.uniqueByFrom keyFn (seen ∪ list_to_set (keyFn <$> a)) b.
Proof.
  revert seen. induction a as [| item rest IH]; intros seen.
  - cbn [app fmap list_fmap list_to_set foldr Collections.uniqueByFrom].
    f_equal. apply set_eq. intros k. rewrite elem_of_union.
    pose proof (not_elem_of_empty (C := gset K) k). tauto.
  - cbn [app Collections.uniqueByFrom]. rewrite fmap_cons. cbn [list_to_set foldr].
    destruct (decide (keyFn item ∈ seen)) as [Hin | Hout].
    + rewrite IH. f_equal. f_equal. apply set_eq. intros k.
      rewrite !elem_of_union, elem_of_singleton.
      split; [tauto | intros [? | [-> | ?]]; tauto].
    + cbn [app]. f_equal. rewrite IH. f_equal. f_equal. apply set_eq. intros k.
      rewrite !elem_of_union, !elem_of_singleton. tauto.
Qed.

Lemma uniqueBy_app (a b : list A) :
  Collections.uniqueBy (a ++ b) keyFn
  = Collections.uniqueBy
      (Collections.uniqueBy a keyFn ++ Collections.uniqueBy b keyFn) keyFn.
Proof.
  unfold Collections.uniqueBy. rewrite !uniqueByFrom_app.
  rewrite (uniqueByFrom_fixed ∅ (Collections.uniqueByFrom keyFn ∅ a)).
  - f_equal. rewrite uniqueByFrom_twice. f_equal. apply set_eq. intros k.
    rewrite !elem_of_union, !elem_of_list_to_set.
    rewrite (CollectionFacts.uniqueByFrom_keys keyFn ∅ a k).
    pose proof (not_elem_of_empty (C := gset K) k). tauto.
  - apply CollectionFacts.uniqueByFrom_NoDup.
  - intros k _. apply not_elem_of_empty.
Qed.

End UniqueFacts.
End UniqueFacts.

(** X3. [uniqueBy] returns a sublist of its input in which no key repeats,
    every key of the input still occurs, and each item kept is the first
    item of the input with its key. *)
Theorem uniqueBy_keeps_first_occurrences :
  forall (A K : Type) `{Countable K} (keyFn : A -> K) (array : list A),
    Collections.uniqueBy array keyFn `sublist_of` array
    /\ NoDup (keyFn <$> Collections.uniqueBy array keyFn)
    /\ (forall k, k ∈ keyFn <$> Collections.uniqueBy array keyFn
                  <-> k ∈ keyFn <$> array)
    /\ (forall x, x ∈ Collections.uniqueBy array keyFn ->
                  Shape.firstOfItsKey keyFn array x).
Proof.
  intros A K Heq Hcount keyFn array.
  split; [apply UniqueFacts.uniqueByFrom_sublist |].
  split; [apply CollectionFacts.uniqueBy_NoDup |].
  split; [apply CollectionFacts.uniqueBy_keys |].
  intros x. apply UniqueFacts.uniqueByFrom_first.
Qed.

(** X4. Deduplicating twice is deduplicating once, and deduplicating a
    concatenation is deduplicating the concatenation of the deduplicated
    parts. *)
Theorem uniqueBy_idempotent_and_concat :
  forall (A K : Type) `{Countable K} (keyFn : A -> K) (a b : list A),
    Collections.uniqueBy (Collections.uniqueBy a keyFn) keyFn
    = Collections.uniqueBy a keyFn
    /\ Collections.uniqueBy (a ++ b) keyFn
       = Collections.uniqueBy
           (Collections.uniqueBy a keyFn ++ Collections.uniqueBy b keyFn) keyFn.
Proof.
  intros A K Heq Hcount keyFn a b. split.
  - apply UniqueFacts.uniqueBy_fixed, CollectionFacts.uniqueBy_NoDup.
  - apply UniqueFacts.uniqueBy_app.
Qed.

(** X5. The list either extractor returns has no duplicate key, so the
    [uniqueBy] that each loop applies to it right away changes nothing. *)
Theorem dedupe_after_extraction_is_identity :
  forall (cheerio : Cheerio) (toLowerCase : list N -> list N)
         (rawBody : option (list N)),
    (exists pairs,
        Parser.extractAlbumArtistPairs toLowerCase rawBody = Returns pairs
        /\ Aggregator.dedupe toLowerCase pairs = pairs)
    /\ (exists pairs,
          Monolith.extractAlbumArtistPairs toLowerCase rawBody = Returns pairs
          /\ Aggregator.dedupe toLowerCase pairs = pairs).
Proof.
  intros cheerio toLowerCase rawBody.
  destruct (ResultFacts.results_distinct toLowerCase rawBody)
    as [(p1 & E1 & H1) (p2 & E2 & H2)].
  split; eexists; (split; [eassumption |]);
    apply UniqueFacts.uniqueBy_fixed; assumption.
Qed.

Lemma uniqueBy_keeps_first_occurrences_witness :
  Samples.radiohead
  ∈ Collections.uniqueBy
      [Samples.radiohead; mkPair (js "RADIOHEAD") (js "ok computer")]
      (Gate.pairKey Dom.asciiLower)
  /\ Shape.firstOfItsKey (Gate.pairKey Dom.asciiLower)
       [Samples.radiohead; mkPair (js "RADIOHEAD") (js "ok computer")]
       Samples.radiohead.
Proof.
  assert (Hin : Samples.radiohead
                ∈ Collections.uniqueBy
                    [Samples.radiohead;
                     mkPair (js "RADIOHEAD") (js "ok computer")]
                    (Gate.pairKey Dom.asciiLower))
    by (vm_compute; apply list_elem_of_here).
  split; [exact Hin |].
  exact (proj2 (proj2 (proj2 (uniqueBy_keeps_first_occurrences
                                Pair (list N) (Gate.pairKey Dom.asciiLower)
                                [Samples.radiohead;
                                 mkPair (js "RADIOHEAD") (js "ok computer")])))
               Samples.radiohead Hin).
Defined.

(** ** The buckets of the loop *)

Module BucketFacts.

Section MapFacts.

Context {K V : Type} `{EqDecision K}.

Lemma get_set_same (k : K) (v : V) (m : list (K * V)) :
  JsMap.get k (JsMap.set k v m) = Some v.
Proof.
  induction m as [| [k' v'] rest IH]; cbn [JsMap.set JsMap.get].
  - rewrite decide_True by reflexivity. reflexivity.
  - destruct (decide (k = k')) as [-> | Hne]; cbn [JsMap.get].
    + rewrite decide_True by reflexivity. reflexivity.
    + rewrite decide_False by exact Hne. exact IH.
Qed.

Lemma get_set_other (k k' : K) (v : V) (m : list (K * V)) :
  k' <> k -> JsMap.get k' (JsMap.set k v m) = JsMap.get k' m.
Proof.
  intros Hne. induction m as [| [k0 v0] rest IH]; cbn [JsMap.set JsMap.get].
  - rewrite decide_False by exact Hne. reflexivity.
  - destruct (decide (k = k0)) as [-> | Hk]; cbn [JsMap.get].
    + rewrite !decide_False by exact Hne. reflexivity.
    + destruct (decide (k' = k0)); [reflexivity | exact IH].
Qed.

Lemma set_keys (k : K) (v : V) (m : list (K * V)) :
  fst <$> JsMap.set k v m
  = match JsMap.get k m with
    | Some _ => fst <$> m
    | None => (fst <$> m) ++ [k]
    end.
Proof.
  induction m as [| [k0 v0] rest IH]; cbn [JsMap.set JsMap.get]; [reflexivity |].
  destruct (decide (k = k0)) as [-> | Hk]; [reflexivity |].
  rewrite !fmap_cons, IH. destruct (JsMap.get k rest); reflexivity.
Qed.

Lemma get_None (k : K) (m : list (K * V)) :
  JsMap.get k m = None <-> k ∉ fst <$> m.
Proof.
  induction m as [| [k0 v0] rest IH]; cbn [JsMap.get].
  - rewrite fmap_nil, elem_of_nil. tauto.
  - rewrite fmap_cons, not_elem_of_cons. cbn [fst].
    destruct (decide (k = k0)) as [-> | Hk]; [split; [discriminate | tauto] |].
    rewrite IH. tauto.
Qed.

Lemma set_NoDup (k : K) (v : V) (m : list (K * V)) :
  NoDup (fst <$> m) -> NoDup (fst <$> JsMap.set k v m).
Proof.
  intros Hnd. rewrite set_keys. destruct (JsMap.get k m) eqn:E; [exact Hnd |].
  apply NoDup_app. split; [exact Hnd |]. split; [| apply NoDup_singleton].
  intros k' Hin Hk. apply list_elem_of_singleton in Hk. subst k'.
  apply get_None in E. contradiction.
Qed.

End MapFacts.

Section Buckets.

Variable toLowerCase : list N -> list N.
Variable accepts : Email -> bool.
Variable extractAlbumArtistPairs : option (list N) -> outcome (list Pair).

Local Notation "'contribution'" :=
  (Props.contribution toLowerCase accepts extractAlbumArtistPairs).
Local Notation "'turn'" :=
  (Props.turn toLowerCase accepts extractAlbumArtistPairs).
Local Notation "'gathered'" :=
  (Shape.gathered toLowerCase accepts extractAlbumArtistPairs).

Local Notation "'held'" := Shape.held.
Local Notation "'stocked'" := Shape.stocked.

Lemma turn_months st mail :
  Aggregator.monthToPairs (turn st mail)
  = match contribution mail with
    | [] => Aggregator.monthToPairs st
    | pairs =>
        JsMap.set (Dates.formatMonthYYYYMM (date mail))
          (held (Dates.formatMonthYYYYMM (date mail)) st ++ pairs)
          (Aggregator.monthToPairs st)
    end.
Proof.
  unfold Props.turn. destruct (contribution mail) as [| p ps].
  - destruct (accepts mail); reflexivity.
  - rewrite AggregatorFacts.markSuccessful_months. reflexivity.
Qed.

Lemma turn_held month st mail :
  held month (turn st mail)
  = held month st
    ++ (if bool_decide (Dates.formatMonthYYYYMM (date mail) = month)
        then contribution mail else []).
Proof.
  unfold Shape.held at 1. rewrite turn_months.
  destruct (contribution mail) as [| p ps] eqn:Ec.
  - destruct (bool_decide _); rewrite app_nil_r; reflexivity.
  - destruct (decide (Dates.formatMonthYYYYMM (date mail) = month)) as [E | Hne].
    + rewrite bool_decide_eq_true_2 by exact E. rewrite E, get_set_same.
      reflexivity.
    + rewrite bool_decide_eq_false_2 by exact Hne.
      rewrite get_set_other by congruence. rewrite app_nil_r. reflexivity.
Qed.

Lemma turn_stocked st mail : stocked st -> stocked (turn st mail).
Proof.
  intros Hst month. rewrite turn_months.
  destruct (contribution mail) as [| p ps]; [apply Hst |].
  destruct (decide (month = Dates.formatMonthYYYYMM (date mail))) as [-> | Hne].
  - rewrite get_set_same. intros E. injection E as E.
    apply app_eq_nil in E as [_ E]. discriminate.
  - rewrite get_set_other by exact Hne. apply Hst.
Qed.

Lemma turn_NoDup st mail :
  NoDup (fst <$> Aggregator.monthToPairs st) ->
  NoDup (fst <$> Aggregator.monthToPairs (turn st mail)).
Proof.
  intros Hnd. rewrite turn_months.
  destruct (contribution mail); [exact Hnd | apply set_NoDup, Hnd].
Qed.

Lemma fold_held month emails st :
  held month (fold_left turn emails st) = held month st ++ gathered month emails.
Proof.
  revert st. induction emails as [| mail rest IH]; intros st; cbn [fold_left].
  - unfold Shape.gathered. cbn. rewrite app_nil_r. reflexivity.
  - rewrite IH, turn_held, <- app_assoc. f_equal.
    unfold Shape.gathered, Shape.datedIn. cbn [List.filter].
    destruct (bool_decide _); reflexivity.
Qed.

Lemma fold_stocked emails st :
  stocked st -> stocked (fold_left turn emails st).
Proof.
  revert st. induction emails as [| mail rest IH]; intros st Hst; cbn [fold_left];
    [exact Hst | apply IH, turn_stocked, Hst].
Qed.

Lemma fold_NoDup emails st :
  NoDup (fst <$> Aggregator.monthToPairs st) ->
  NoDup (fst <$> Aggregator.monthToPairs (fold_left turn emails st)).
Proof.
  revert st. induction emails as [| mail rest IH]; intros st Hst; cbn [fold_left];
    [exact Hst | apply IH, turn_NoDup, Hst].
Qed.

(** The map after the loop, month by month. *)
Lemma buckets_after emails month :
  JsMap.get month
    (Aggregator.monthToPairs (fold_left turn emails Aggregator.initial))
  = match gathered month emails with
    | [] => None
    | pairs => Some pairs
    end.
Proof.
  pose proof (fold_held month emails Aggregator.initial) as Hheld.
  pose proof (fold_stocked emails Aggregator.initial) as Hst.
  unfold Shape.held in Hheld. cbn [Aggregator.initial Aggregator.monthToPairs
                             JsMap.get default app] in Hheld.
  specialize (Hst (fun m => ltac:(discriminate)) month).
  destruct (JsMap.get month _) as [bucket |]; cbn [default] in Hheld.
  - rewrite <- Hheld. destruct bucket; [contradiction | reflexivity].
  - rewrite <- Hheld. reflexivity.
Qed.

Lemma get_of_entry {K V : Type} `{EqDecision K} (k : K) (v : V)
    (m : list (K * V)) :
  NoDup (fst <$> m) -> (k, v) ∈ m -> JsMap.get k m = Some v.
Proof.
  induction m as [| [k0 v0] rest IH]; [intros _ Hin; inversion Hin |].
  rewrite fmap_cons. cbn [fst JsMap.get]. intros Hnd Hin.
  apply NoDup_cons in Hnd as [Hk0 Hnd].
  apply elem_of_cons in Hin as [E | Hin].
  - injection E as -> ->. rewrite decide_True by reflexivity. reflexivity.
  - destruct (decide (k = k0)) as [-> | _]; [| apply IH; assumption].
    destruct Hk0. apply list_elem_of_fmap. exists (k0, v). auto.
Qed.

(** What the catalog is handed for a month. *)
Lemma handed_after emails month handed :
  (month, handed)
  ∈ Aggregator.catalogWork toLowerCase
      (Aggregator.monthToPairs (fold_left turn emails Aggregator.initial)) ->
  handed = Aggregator.dedupe toLowerCase (gathered month emails)
  /\ handed <> []
  /\ Shape.distinctKeys toLowerCase handed.
Proof.
  unfold Aggregator.catalogWork. intros Hin.
  apply list_elem_of_In, filter_In in Hin as [Hin Hne].
  apply in_map_iff in Hin as ([m bucket] & E & Hin). cbn [fst snd] in E.
  injection E as -> <-. apply list_elem_of_In in Hin.
  apply get_of_entry in Hin;
    [| apply fold_NoDup; cbn; constructor].
  rewrite buckets_after in Hin.
  destruct (gathered month emails) as [| p ps] eqn:Eg; [discriminate |].
  injection Hin as <-.
  split; [reflexivity |]. split.
  - cbn [snd] in Hne. apply negb_true_iff, bool_decide_eq_false in Hne. exact Hne.
  - apply CollectionFacts.uniqueBy_NoDup.
Qed.

End Buckets.
End BucketFacts.

(** X6. After either loop, the bucket of a month is the concatenation, in
    the order of the emails, of the deduplicated pair lists of the accepted
    emails dated in that month; a month without such pairs has no bucket,
    and no month has two. *)
Theorem month_buckets_gather_contributions :
  forall (cheerio : Cheerio) (toLowerCase : list N -> list N)
         (bufferBase64Utf8 : list N -> outcome (list N))
         (emails : list Email) (month : list N),
    (let final := snd (Main.processEmails toLowerCase bufferBase64Utf8 emails
                         Aggregator.initial) in
     JsMap.get month (Aggregator.monthToPairs final)
     = match Shape.gathered toLowerCase
               (Main.accepts toLowerCase bufferBase64Utf8)
               (Monolith.extractAlbumArtistPairs toLowerCase) month emails with
       | [] => None
       | pairs => Some pairs
       end
     /\ NoDup (fst <$> Aggregator.monthToPairs final))
    /\ (let final := snd (Sync.processEmails toLowerCase emails
                            Aggregator.initial) in
        JsMap.get month (Aggregator.monthToPairs final)
        = match Shape.gathered toLowerCase (Sync.accepts toLowerCase)
                  (Parser.extractAlbumArtistPairs toLowerCase) month emails with
          | [] => None
          | pairs => Some pairs
          end
        /\ NoDup (fst <$> Aggregator.monthToPairs final)).
Proof.
  intros cheerio toLowerCase buffer emails month. split; cbv zeta.
  - rewrite LoopFacts.main_run. cbn [snd].
    split; [apply BucketFacts.buckets_after |].
    apply BucketFacts.fold_NoDup. constructor.
  - rewrite LoopFacts.sync_run. cbn [snd].
    split; [apply BucketFacts.buckets_after |].
    apply BucketFacts.fold_NoDup. constructor.
Qed.

(** X7. Every list the catalog is handed for a month is the deduplication
    of what the emails of that month contributed; it is never empty and no
    key repeats in it. *)
Theorem catalog_receives_deduplicated_months :
  forall (cheerio : Cheerio) (toLowerCase : list N -> list N)
         (bufferBase64Utf8 : list N -> outcome (list N))
         (emails : list Email) (month : list N) (handed : list Pair),
    ((month, handed)
     ∈ Aggregator.catalogWork toLowerCase
         (Aggregator.monthToPairs
            (snd (Main.processEmails toLowerCase bufferBase64Utf8 emails
                    Aggregator.initial))) ->
     handed = Aggregator.dedupe toLowerCase
                (Shape.gathered toLowerCase
                   (Main.accepts toLowerCase bufferBase64Utf8)
                   (Monolith.extractAlbumArtistPairs toLowerCase) month emails)
     /\ handed <> [] /\ Shape.distinctKeys toLowerCase handed)
    /\ ((month, handed)
        ∈ Aggregator.catalogWork toLowerCase
            (Aggregator.monthToPairs
               (snd (Sync.processEmails toLowerCase emails Aggregator.initial))) ->
        handed = Aggregator.dedupe toLowerCase
                   (Shape.gathered toLowerCase (Sync.accepts toLowerCase)
                      (Parser.extractAlbumArtistPairs toLowerCase) month emails)
        /\ handed <> [] /\ Shape.distinctKeys toLowerCase handed).
Proof.
  intros cheerio toLowerCase buffer emails month handed. split.
  - rewrite LoopFacts.main_run. cbn [snd]. apply BucketFacts.handed_after.
  - rewrite LoopFacts.sync_run. cbn [snd]. apply BucketFacts.handed_after.
Qed.

Lemma catalog_receives_deduplicated_months_witness :
  (js "2025-01", [Samples.radiohead])
  ∈ Aggregator.catalogWork Dom.asciiLower
      (Aggregator.monthToPairs
         (snd (Main.processEmails (cheerio := Dom.parsedAs Samples.emptyPage)
                 Dom.asciiLower Node.bufferBase64Utf8 Samples.januaryMails
                 Aggregator.initial)))
  /\ Shape.distinctKeys Dom.asciiLower [Samples.radiohead].
Proof.
  assert (Hin : (js "2025-01", [Samples.radiohead])
                ∈ Aggregator.catalogWork Dom.asciiLower
                    (Aggregator.monthToPairs
                       (snd (Main.processEmails
                               (cheerio := Dom.parsedAs Samples.emptyPage)
                               Dom.asciiLower Node.bufferBase64Utf8
                               Samples.januaryMails Aggregator.initial))))
    by (vm_compute; apply list_elem_of_here).
  split; [exact Hin |].
  exact (proj2 (proj2 (proj1 (catalog_receives_deduplicated_months
                                (Dom.parsedAs Samples.emptyPage) Dom.asciiLower
                                Node.bufferBase64Utf8 Samples.januaryMails
                                (js "2025-01") [Samples.radiohead]) Hin))).
Defined.

Module ArrayFacts.
Section ArrayFacts.

Context {A : Type}.

Lemma slice_forward (s : list A) (a b : Z) :
  (0 <= a)%Z -> (a <= b)%Z ->
  Arrays.slice s a b = take (Z.to_nat b - Z.to_nat a) (drop (Z.to_nat a) s).
Proof.
  intros Ha Hab. unfold Arrays.slice, Arrays.sliceIndex.
  destruct (Z.ltb_spec a 0) as [?|_]; [lia|].
  destruct (Z.ltb_spec b 0) as [?|_]; [lia|].
  destruct (Z.le_gt_cases b (Z.of_nat (length s))) as [Hb|Hb].
  - rewrite !Z.min_l by lia. f_equal. lia.
  - rewrite (Z.min_r b) by lia.
    destruct (Z.le_gt_cases a (Z.of_nat (length s))) as [Ha'|Ha'].
    + rewrite Z.min_l by lia.
      rewrite !take_ge; [reflexivity| |]; rewrite length_drop; lia.
    + rewrite Z.min_r by lia.
      rewrite !drop_ge by lia. rewrite !take_nil. reflexivity.
Qed.

Lemma flatten_concat (chunks : list (list A)) :
  CollectionsMore.flatten chunks = concat chunks.
Proof.
  unfold CollectionsMore.flatten.
  assert (Hgen : forall acc, fold_left (fun acc val : list A => acc ++ val) chunks acc
                             = acc ++ concat chunks).
  { induction chunks as [|c chunks IH]; intros acc; simpl.
    - rewrite app_nil_r. reflexivity.
    - rewrite IH, <- app_assoc. reflexivity. }
  apply (Hgen []).
Qed.

(** The chunks from item [n] on. *)
Lemma chunksFrom_drop (size : nat) (array : list A) (n : nat) :
  (1 <= size)%nat ->
  ArrayShape.chunksOf size (drop n array)
  = match drop n array with
    | [] => []
    | _ => take size (drop n array) :: ArrayShape.chunksOf size (drop (n + size) array)
    end.
Proof.
  intros Hsize. unfold ArrayShape.chunksOf.
  destruct (drop n array) as [|x rest] eqn:Hdrop.
  - simpl. rewrite Nat.div_small by lia. reflexivity.
  - assert (Hlen : (length (drop (n + size) array) = length (x :: rest) - size)%nat).
    { rewrite <- Hdrop, !length_drop. lia. }
    assert (Hnext : drop (n + size) array = drop size (x :: rest)).
    { rewrite <- Hdrop, drop_drop. reflexivity. }
    rewrite Hnext in *. clear Hnext Hdrop.
    set (l := x :: rest) in *.
    assert (Hpos : (1 <= length l)%nat) by (subst l; simpl; lia).
    assert (Hcount : ((length l + size - 1) / size
                      = S ((length (drop size l) + size - 1) / size))%nat).
    { rewrite Hlen.
      destruct (Nat.le_gt_cases (length l) size) as [Hle|Hgt].
      - replace (length l - size)%nat with 0%nat by lia.
        rewrite (Nat.div_small (0 + size - 1)) by lia.
        symmetry. apply Nat.div_unique with (r := (length l - 1)%nat); lia.
      - replace (length l + size - 1)%nat
          with ((length l - size + size - 1) + 1 * size)%nat by lia.
        rewrite Nat.div_add by lia. lia. }
    rewrite Hcount. cbn [seq List.map]. f_equal.
    rewrite <- seq_shift, List.map_map. apply List.map_ext.
    intros j. rewrite drop_drop. reflexivity.
Qed.

Lemma chunksOf_concat (size : nat) (array : list A) :
  (1 <= size)%nat -> concat (ArrayShape.chunksOf size array) = array.
Proof.
  intros Hsize.
  assert (Hgen : forall fuel n, (length array - n < fuel)%nat ->
            concat (ArrayShape.chunksOf size (drop n array)) = drop n array).
  { induction fuel as [|fuel IH]; intros n Hfuel; [lia|].
    rewrite chunksFrom_drop by assumption.
    destruct (drop n array) as [|x rest] eqn:Hdrop; [reflexivity|].
    cbn [concat]. rewrite IH.
    - rewrite <- Hdrop, <- drop_drop. apply take_drop.
    - assert (length (drop n array) = S (length rest)) by (rewrite Hdrop; reflexivity).
      rewrite length_drop in *. lia. }
  apply (Hgen (S (length array)) 0%nat). lia.
Qed.

Lemma chunksOf_sizes (size : nat) (array : list A) :
  (1 <= size)%nat ->
  Forall (fun c => c <> [] /\ (length c <= size)%nat) (ArrayShape.chunksOf size array).
Proof.
  intros Hsize. unfold ArrayShape.chunksOf.
  apply List.Forall_forall. intros c Hin.
  apply List.in_map_iff in Hin as (j & <- & Hj).
  apply List.in_seq in Hj.
  split.
  - intros Hnil. apply (f_equal length) in Hnil.
    rewrite length_take, length_drop in Hnil. simpl in Hnil.
    assert (Hlt : (j * size < length array)%nat).
    { destruct (Nat.le_gt_cases (length array) (j * size)) as [Hle|]; [|assumption].
      exfalso.
      assert ((length array + size - 1) / size < S j)%nat; [|lia].
      apply Nat.Div0.div_lt_upper_bound. nia. }
    lia.
  - rewrite length_take. lia.
Qed.

(** The loop of [chunk] from an index that is not negative. *)
Lemma chunkLoop_from (array : list A) (size : Z) (fuel n : nat) :
  (1 <= size)%Z -> (length array - n < fuel)%nat ->
  CollectionsMore.chunkLoop fuel array size (Z.of_nat n)
  = Some (ArrayShape.chunksOf (Z.to_nat size) (drop n array)).
Proof.
  intros Hsize. revert n.
  induction fuel as [|fuel IH]; intros n Hfuel; [lia|].
  cbn [CollectionsMore.chunkLoop].
  rewrite chunksFrom_drop by lia.
  destruct (Z.ltb_spec (Z.of_nat n) (Z.of_nat (length array))) as [Hlt|Hge].
  - replace (Z.of_nat n + size)%Z with (Z.of_nat (n + Z.to_nat size)) by lia.
    rewrite IH by lia. cbn [option_map].
    destruct (drop n array) as [|x rest] eqn:Hdrop.
    { apply (f_equal length) in Hdrop. rewrite length_drop in Hdrop.
      simpl in Hdrop. lia. }
    rewrite <- Hdrop. f_equal. f_equal.
    rewrite slice_forward by lia. rewrite !Nat2Z.id. f_equal. lia.
  - rewrite drop_ge by lia. reflexivity.
Qed.

(** A size that is not positive keeps the index below the length. *)
Lemma chunkLoop_stuck (array : list A) (size : Z) (fuel : nat) (i : Z) :
  (size <= 0)%Z -> (i <= 0)%Z -> array <> [] ->
  CollectionsMore.chunkLoop fuel array size i = None.
Proof.
  intros Hsize Hi Harray. revert i Hi.
  induction fuel as [|fuel IH]; intros i Hi; [reflexivity|].
  cbn [CollectionsMore.chunkLoop].
  destruct (Z.ltb_spec i (Z.of_nat (length array))) as [_|Hge].
  - rewrite IH by lia. reflexivity.
  - destruct array; [congruence|]. simpl in Hge. lia.
Qed.

End ArrayFacts.
End ArrayFacts.

(** X8 [chunk] with a size of at least one returns, within
    [array.length + 1] turns of its loop, the consecutive runs of [size]
    items of the array, the last run possibly shorter: no chunk is empty or
    longer than [size], and [flatten] of the chunks is the array again. *)
Theorem chunk_cuts_and_flatten_restores {A : Type} (array : list A) (size : Z)
  (fuel : nat) :
  (1 <= size)%Z -> (length array < fuel)%nat ->
  exists chunks,
    CollectionsMore.chunk fuel array size = Some chunks
    /\ chunks = ArrayShape.chunksOf (Z.to_nat size) array
    /\ Forall (fun c => c <> [] /\ (Z.of_nat (length c) <= size)%Z) chunks
    /\ CollectionsMore.flatten chunks = array.
Proof.
  intros Hsize Hfuel.
  exists (ArrayShape.chunksOf (Z.to_nat size) array).
  split; [|split; [reflexivity|split]].
  - unfold CollectionsMore.chunk.
    apply (ArrayFacts.chunkLoop_from array size fuel 0); [assumption|lia].
  - eapply Forall_impl; [apply ArrayFacts.chunksOf_sizes; lia|].
    intros c [Hne Hlen]. split; [assumption|lia].
  - rewrite ArrayFacts.flatten_concat. apply ArrayFacts.chunksOf_concat. lia.
Qed.

Lemma chunk_cuts_and_flatten_restores_witness :
  exists chunks,
    CollectionsMore.chunk 6 [1; 2; 3; 4; 5] 2 = Some chunks
    /\ chunks = ArrayShape.chunksOf (Z.to_nat 2) [1; 2; 3; 4; 5]
    /\ Forall (fun c => c <> [] /\ (Z.of_nat (length c) <= 2)%Z) chunks
    /\ CollectionsMore.flatten chunks = [1; 2; 3; 4; 5].
Proof.
  apply (chunk_cuts_and_flatten_restores [1; 2; 3; 4; 5] 2 6); simpl; lia.
Defined.

(** X9 [chunk] with a size that is zero or negative never returns on an
    array that is not empty: the index never reaches the length, however
    many turns the loop is given. *)
Theorem chunk_without_progress_never_returns {A : Type} (array : list A)
  (size : Z) (fuel : nat) :
  (size <= 0)%Z -> array <> [] ->
  CollectionsMore.chunk fuel array size = None.
Proof.
  intros Hsize Harray. unfold CollectionsMore.chunk.
  apply ArrayFacts.chunkLoop_stuck; [assumption|lia|assumption].
Qed.

Lemma chunk_without_progress_never_returns_witness :
  CollectionsMore.chunk 1000 [1; 2; 3] 0 = None.
Proof.
  apply (chunk_without_progress_never_returns [1; 2; 3] 0 1000); [lia|discriminate].
Defined.

Module GroupFacts.
Section GroupFacts.

Context {A K : Type} `{Countable K}.
Variable keyFn : A -> K.

Local Notation "'group' k" :=
  (List.filter (fun x => bool_decide (keyFn x = k))) (at level 10, k at level 9).

Lemma groupBy_snoc (array : list A) (x : A) :
  CollectionsMore.groupBy (array ++ [x]) keyFn
  = CollectionsMore.groupStep keyFn (CollectionsMore.groupBy array keyFn) x.
Proof. unfold CollectionsMore.groupBy. rewrite fold_left_app. reflexivity. Qed.

Lemma uniqueBy_snoc (array : list A) (x : A) :
  Collections.uniqueBy (array ++ [x]) keyFn
  = Collections.uniqueBy array keyFn
    ++ (if decide (keyFn x ∈ keyFn <$> array) then [] else [x]).
Proof.
  unfold Collections.uniqueBy. rewrite UniqueFacts.uniqueByFrom_app. f_equal.
  cbn [Collections.uniqueByFrom].
  destruct (decide (keyFn x ∈ (∅ : gset K) ∪ list_to_set (keyFn <$> array)))
    as [Hin | Hout];
    destruct (decide (keyFn x ∈ keyFn <$> array)) as [Hin' | Hout'];
    try reflexivity; exfalso.
  - apply elem_of_union in Hin as [Hin | Hin];
      [exact (not_elem_of_empty _ Hin) | apply elem_of_list_to_set in Hin; tauto].
  - apply Hout, elem_of_union. right. apply elem_of_list_to_set. exact Hin'.
Qed.

Lemma groupBy_get_keys (array : list A) :
  (forall k, JsMap.get k (CollectionsMore.groupBy array keyFn)
             = match group k array with
               | [] => None
               | items => Some items
               end)
  /\ fst <$> CollectionsMore.groupBy array keyFn
     = keyFn <$> Collections.uniqueBy array keyFn.
Proof.
  induction array as [| x array [IHget IHkeys]] using rev_ind;
    [split; reflexivity |].
  rewrite groupBy_snoc. set (G := CollectionsMore.groupBy array keyFn) in *.
  assert (Hhas : JsMap.get (keyFn x) G = None <-> keyFn x ∉ keyFn <$> array).
  { rewrite BucketFacts.get_None, IHkeys.
    split; intros Hn Hin; apply Hn; apply CollectionFacts.uniqueBy_keys; exact Hin. }
  unfold CollectionsMore.groupStep. split.
  - intros k. rewrite List.filter_app. cbn [List.filter].
    destruct (decide (k = keyFn x)) as [-> | Hne].
    + rewrite BucketFacts.get_set_same.
      rewrite bool_decide_eq_true_2 by reflexivity.
      rewrite (IHget (keyFn x)).
      destruct (group (keyFn x) array) as [| y ys] eqn:E.
      * rewrite BucketFacts.get_set_same. reflexivity.
      * rewrite (IHget (keyFn x)), E. reflexivity.
    + rewrite BucketFacts.get_set_other by exact Hne.
      rewrite bool_decide_eq_false_2 by congruence. rewrite app_nil_r.
      rewrite <- IHget.
      destruct (JsMap.get (keyFn x) G); [reflexivity |].
      apply BucketFacts.get_set_other. exact Hne.
  - rewrite BucketFacts.set_keys, uniqueBy_snoc, fmap_app, <- IHkeys.
    destruct (JsMap.get (keyFn x) G) eqn:E.
    + rewrite E. destruct (decide (keyFn x ∈ keyFn <$> array)) as [_ | Hout].
      * rewrite app_nil_r. reflexivity.
      * apply Hhas in Hout. congruence.
    + rewrite BucketFacts.get_set_same, BucketFacts.set_keys, E.
      destruct (decide (keyFn x ∈ keyFn <$> array)) as [Hin | _];
        [exfalso; apply (proj1 Hhas eq_refl); exact Hin | reflexivity].
Qed.

End GroupFacts.
End GroupFacts.

(** X10 [groupBy] maps each key to the items with that key, in the order
    of the array, and has no entry for a key that no item has; its keys come
    in the order of their first item, which is the order of the items that
    [uniqueBy] keeps. *)
Theorem groupBy_collects_items_by_key {A K : Type} `{Countable K}
  (array : list A) (keyFn : A -> K) :
  (forall k, JsMap.get k (CollectionsMore.groupBy array keyFn)
             = match List.filter (fun x => bool_decide (keyFn x = k)) array with
               | [] => None
               | items => Some items
               end)
  /\ fst <$> CollectionsMore.groupBy array keyFn
     = keyFn <$> Collections.uniqueBy array keyFn.
Proof. apply GroupFacts.groupBy_get_keys. Qed.

Module SendFacts.
Section SendFacts.

Variable postTracks : list (list N) -> outcome unit.

(** Sending given chunks one after the other. *)
Lemma forEach_attempted (chunks : list (list (list N)))
    (sent : list (list (list N))) :
  forEach chunks (AddTracks.sendChunk postTracks) sent
  = (if forallb (fun c => match postTracks c with
                          | Returns _ => true
                          | Throws => false
                          end) chunks
     then Returns tt else Throws,
     sent ++ Requests.attempted postTracks chunks).
Proof.
  revert sent. induction chunks as [| c rest IH]; intros sent.
  - cbn. rewrite app_nil_r. reflexivity.
  - rewrite ProgFacts.run_forEach_cons. unfold AddTracks.sendChunk at 1.
    rewrite ProgFacts.run_modify. unfold call.
    cbn [forallb Requests.attempted].
    destruct (postTracks c) as [[] |]; cbn [andb].
    + rewrite IH, <- app_assoc. reflexivity.
    + reflexivity.
Qed.

Lemma sendFrom_forEach (trackUris : list (list N)) (fuel n : nat) :
  (length trackUris - n < fuel)%nat ->
  forall sent,
    AddTracks.sendFrom postTracks fuel trackUris (Z.of_nat n) sent
    = forEach (ArrayShape.chunksOf 100 (drop n trackUris))
              (AddTracks.sendChunk postTracks) sent.
Proof.
  revert n. induction fuel as [| fuel IH]; intros n Hfuel sent; [lia |].
  cbn [AddTracks.sendFrom].
  rewrite ArrayFacts.chunksFrom_drop by lia.
  destruct (Z.ltb_spec (Z.of_nat n) (Z.of_nat (length trackUris))) as [Hlt | Hge].
  - destruct (drop n trackUris) as [| x rest] eqn:Hdrop.
    { apply (f_equal length) in Hdrop. rewrite length_drop in Hdrop.
      simpl in Hdrop. lia. }
    rewrite <- Hdrop. rewrite ProgFacts.run_forEach_cons.
    rewrite ProgFacts.run_bind.
    unfold AddTracks.CHUNK_SIZE.
    rewrite ArrayFacts.slice_forward by lia.
    replace (Z.to_nat (Z.of_nat n + 100) - Z.to_nat (Z.of_nat n))%nat
      with 100%nat by lia.
    rewrite Nat2Z.id.
    destruct (AddTracks.sendChunk postTracks (take 100 (drop n trackUris)) sent)
      as [[[] |] sent']; [| reflexivity].
    replace (Z.of_nat n + 100)%Z with (Z.of_nat (n + 100)) by lia.
    apply IH. lia.
  - rewrite drop_ge by lia. reflexivity.
Qed.

End SendFacts.
End SendFacts.

(** X11 [addTracksToPlaylist] posts the track URIs in consecutive chunks
    of at most 100, in order, and stops at the first request that fails,
    which makes it throw; when every request succeeds it returns, and the
    chunks posted add up to the list it was given. *)
Theorem addTracks_posts_chunks_in_order
  (postTracks : list (list N) -> outcome unit)
  (trackUris : list (list N)) (sent : list (list (list N))) :
  let chunks := ArrayShape.chunksOf 100 trackUris in
  let ok := fun c => postTracks c = Returns tt in
  (exists result,
     AddTracks.addTracksToPlaylist postTracks trackUris sent
     = (result, sent ++ Requests.attempted postTracks chunks)
     /\ (result = Returns tt <-> Forall ok chunks))
  /\ (Forall ok chunks -> Requests.attempted postTracks chunks = chunks)
  /\ concat chunks = trackUris
  /\ Forall (fun c => c <> [] /\ (length c <= 100)%nat) chunks.
Proof.
  intros chunks ok. split; [| split; [| split]].
  - unfold AddTracks.addTracksToPlaylist.
    rewrite (SendFacts.sendFrom_forEach postTracks trackUris _ 0) by lia.
    rewrite drop_0, SendFacts.forEach_attempted. fold chunks.
    eexists. split; [reflexivity |].
    destruct (forallb _ chunks) eqn:E.
    + split; [intros _ | reflexivity].
      apply List.Forall_forall. intros c Hin.
      rewrite forallb_forall in E. specialize (E c Hin). unfold ok.
      destruct (postTracks c) as [[] |]; [reflexivity | discriminate].
    + split; [discriminate |]. intros Hall. exfalso.
      assert (Htrue : forallb (fun c => match postTracks c with
                                        | Returns _ => true
                                        | Throws => false
                                        end) chunks = true); [| congruence].
      apply forallb_forall. intros c Hin. rewrite List.Forall_forall in Hall.
      unfold ok in Hall. rewrite (Hall c Hin). reflexivity.
  - intros Hall. induction Hall as [| c rest Hc _ IH]; [reflexivity |].
    cbn [Requests.attempted]. unfold ok in Hc. rewrite Hc, IH. reflexivity.
  - apply ArrayFacts.chunksOf_concat. lia.
  - apply ArrayFacts.chunksOf_sizes. lia.
Qed.

Lemma addTracks_posts_chunks_in_order_witness :
  let trackUris := List.map (fun n => [N.of_nat n]) (seq 0 250) in
  let chunks := ArrayShape.chunksOf 100 trackUris in
  let ok := fun c : list (list N) => Returns tt = Returns tt in
  (exists result,
     AddTracks.addTracksToPlaylist (fun _ => Returns tt) trackUris []
     = (result, [] ++ Requests.attempted (fun _ => Returns tt) chunks)
     /\ (result = Returns tt <-> Forall ok chunks))
  /\ (Forall ok chunks -> Requests.attempted (fun _ => Returns tt) chunks = chunks)
  /\ concat chunks = trackUris
  /\ Forall (fun c => c <> [] /\ (length c <= 100)%nat) chunks.
Proof.
  exact (addTracks_posts_chunks_in_order (fun _ => Returns tt)
           (List.map (fun n => [N.of_nat n]) (seq 0 250)) []).
Defined.

(** ** The catalog search *)

Module SearchChecks.

Example sanitize_sample :
  Search.sanitize (js "  OK	Computer  ") = js "OK Computer".
Proof. vm_compute. reflexivity. Qed.

Example candidates_sample :
  Search.candidates (js "In Rainbows") (js "Radiohead")
  = [ js "album:" ++ [34] ++ js "In Rainbows" ++ [34] ++ js " artist:" ++ [34] ++ js "Radiohead" ++ [34];
      js "artist:" ++ [34] ++ js "Radiohead" ++ [34] ++ js " album:" ++ [34] ++ js "In Rainbows" ++ [34];
      js "album:" ++ [34] ++ js "In Rainbows" ++ [34];
      js "In Rainbows" ].
Proof. vm_compute. reflexivity. Qed.

(** A query of 326 code units: the album of 299 is cut to 198, the artist
    stays. *)
Example shorten_sample :
  let long := concat (repeat (js "word ") 60) in
  let q := Search.albumTerm (trim long) ++ [32] ++ Search.artistTerm (js "Radiohead") in
  (length q, Search.shorten q)
  = (326%nat,
     Search.albumTerm (take 198 long) ++ [32] ++ Search.artistTerm (js "Radiohead")).
Proof. vm_compute. reflexivity. Qed.

(** A dollar sign of the album is read as a replacement pattern. *)
Example expand_sample :
  Replace.expand [js "ab"] (js "<ab>") (js "x") (js "y") (js "1$$2$&3$1$2$014")
  = js "1$2<ab>3ab$2ab4".
Proof. vm_compute. reflexivity. Qed.

(** The first two requests fail, the third decides. *)
Example flaky_sample :
  Search.searchAlbum Dom.asciiLower (fun q => Returns q) CatalogSamples.flaky
    (js "In Rainbows") (js "Radiohead")
  = Returns (Some CatalogSamples.inRainbowsLive)
  /\ Search.searchAlbum Dom.asciiLower (fun q => Returns q) (fun _ => Throws)
       (js "In Rainbows") (js "Radiohead")
     = Returns None.
Proof. split; vm_compute; reflexivity. Qed.

End SearchChecks.

Module SearchFacts.

Lemma trim_length s : (length (trim s) <= length s)%nat.
Proof.
  unfold trim, trimStart, trimEnd. rewrite length_rev.
  etransitivity; [apply TextFacts.dropSpaces_length |].
  rewrite length_rev. apply TextFacts.dropSpaces_length.
Qed.

Lemma truncate_length str maxLen :
  (length (Search.truncate str maxLen) <= maxLen)%nat.
Proof.
  unfold Search.truncate.
  destruct (Nat.leb_spec (length str) maxLen) as [Hle | Hgt]; [exact Hle |].
  etransitivity; [apply trim_length |]. rewrite length_take. lia.
Qed.

Lemma shorten_length q : (length (Search.shorten q) <= Search.LIMIT)%nat.
Proof.
  unfold Search.shorten.
  destruct (Nat.ltb_spec Search.LIMIT (length q)) as [Hlong | Hshort]; [| lia].
  destruct (Nat.ltb_spec Search.LIMIT (length (Search.shortenAlbum q)))
    as [Hlong' | Hshort']; [apply truncate_length | lia].
Qed.

Section Loop.

Variable toLowerCase : list N -> list N.
Variable encodeURIComponent : list N -> outcome (list N).
Variable spotifyRequest : list N -> outcome (list Search.Album).

Local Notation "'searchLoop'" :=
  (Search.searchLoop toLowerCase encodeURIComponent spotifyRequest).
Local Notation "'choose'" := (Search.choose toLowerCase).

(** The loop returns when every query can be encoded, whatever the
    requests do. *)
Lemma searchLoop_returns cleanAlbum cleanArtist queries :
  Forall (fun q => exists encoded,
            encodeURIComponent (Search.shorten q) = Returns encoded) queries ->
  exists found,
    searchLoop cleanAlbum cleanArtist queries = Returns found
    /\ ((forall url, spotifyRequest url = Throws \/ spotifyRequest url = Returns [])
        -> found = None).
Proof.
  induction 1 as [| q rest [encoded Henc] _ (found & IH & IHnone)].
  - exists None. split; [reflexivity | trivial].
  - cbn [Search.searchLoop]. rewrite Henc. cbn [bind outcome_monad].
    destruct (spotifyRequest (Search.searchUrl encoded)) as [[| item items] |] eqn:E.
    + exists found. split; assumption.
    + eexists. split; [reflexivity |]. intros Hall.
      destruct (Hall (Search.searchUrl encoded)) as [H | H]; congruence.
    + exists found. split; assumption.
Qed.

(** Where an album comes from. *)
Lemma searchLoop_source cleanAlbum cleanArtist queries a :
  searchLoop cleanAlbum cleanArtist queries = Returns (Some a) ->
  exists q encoded items,
    q ∈ queries
    /\ encodeURIComponent (Search.shorten q) = Returns encoded
    /\ spotifyRequest (Search.searchUrl encoded) = Returns items
    /\ choose cleanAlbum cleanArtist items = Some a.
Proof.
  induction queries as [| q rest IH]; [discriminate |].
  cbn [Search.searchLoop].
  destruct (encodeURIComponent (Search.shorten q)) as [encoded |] eqn:Henc;
    cbn [bind outcome_monad]; [| discriminate].
  destruct (spotifyRequest (Search.searchUrl encoded)) as [[| item items] |] eqn:E.
  - intros Hrest. destruct (IH Hrest) as (q' & e' & items' & Hin & ?).
    exists q', e', items'. split; [right; exact Hin | assumption].
  - intros [= Hchoose]. exists q, encoded, (item :: items).
    repeat split; [left | | |]; assumption.
  - intros Hrest. destruct (IH Hrest) as (q' & e' & items' & Hin & ?).
    exists q', e', items'. split; [right; exact Hin | assumption].
Qed.

(** Queries that find nothing are passed over: the first query with an
    answer decides. *)
Lemma searchLoop_first_answer cleanAlbum cleanArtist queries pre q post
      encoded items :
  List.map Search.shorten queries = pre ++ q :: post ->
  Forall (SearchShape.fruitless encodeURIComponent spotifyRequest) pre ->
  Forall (fun p => exists e, encodeURIComponent p = Returns e) pre ->
  encodeURIComponent q = Returns encoded ->
  spotifyRequest (Search.searchUrl encoded) = Returns items -> items <> [] ->
  searchLoop cleanAlbum cleanArtist queries
  = Returns (choose cleanAlbum cleanArtist items).
Proof.
  revert queries.
  induction pre as [| p pre IH]; intros queries Hq Hnone Henc Hq1 Hreq Hsome.
  - destruct queries as [| c rest]; [discriminate |].
    cbn [List.map app] in Hq. injection Hq as Hc _.
    cbn [Search.searchLoop]. rewrite Hc, Hq1. cbn [bind outcome_monad].
    rewrite Hreq. destruct items; [contradiction | reflexivity].
  - destruct queries as [| c rest]; [discriminate |].
    cbn [List.map app] in Hq. injection Hq as Hc Hrest.
    apply Forall_cons in Hnone as [Hp Hnone].
    apply Forall_cons in Henc as [[e He] Henc].
    cbn [Search.searchLoop]. rewrite Hc, He. cbn [bind outcome_monad].
    destruct (Hp e He) as [-> | ->];
      apply IH; assumption.
Qed.

(** When no query finds anything the loop ends without an album. *)
Lemma searchLoop_none cleanAlbum cleanArtist queries :
  Forall (SearchShape.fruitless encodeURIComponent spotifyRequest)
         (List.map Search.shorten queries) ->
  Forall (fun p => exists e, encodeURIComponent p = Returns e)
         (List.map Search.shorten queries) ->
  searchLoop cleanAlbum cleanArtist queries = Returns None.
Proof.
  induction queries as [| c rest IH]; intros Hnone Henc; [reflexivity |].
  cbn [List.map] in Hnone, Henc.
  apply Forall_cons in Hnone as [Hp Hnone].
  apply Forall_cons in Henc as [[e He] Henc].
  cbn [Search.searchLoop]. rewrite He. cbn [bind outcome_monad].
  destruct (Hp e He) as [-> | ->]; apply IH; assumption.
Qed.

Lemma choose_item cleanAlbum cleanArtist items a :
  choose cleanAlbum cleanArtist items = Some a ->
  a ∈ items
  /\ (Search.isExact toLowerCase cleanAlbum cleanArtist a = true
      \/ (Forall (fun b => Search.isExact toLowerCase cleanAlbum cleanArtist b = false)
                 items
          /\ head items = Some a)).
Proof.
  unfold Search.choose.
  destruct (List.find _ items) as [exact |] eqn:E.
  - intros [= ->]. apply List.find_some in E as [Hin Hexact].
    split; [apply list_elem_of_In, Hin | left; exact Hexact].
  - intros Hhead. split.
    + destruct items as [| b rest]; [discriminate |].
      injection Hhead as ->. left.
    + right. split; [| exact Hhead].
      apply List.Forall_forall. intros b Hb.
      apply (List.find_none _ _ E b Hb).
Qed.

End Loop.
End SearchFacts.

(** X12 The query that [searchAlbum] encodes and sends is never longer
    than 230 code units, and a candidate query within that limit is sent
    as it is. *)
Theorem search_query_within_limit (q : list N) :
  (length (Search.shorten q) <= 230)%nat
  /\ ((length q <= 230)%nat -> Search.shorten q = q).
Proof.
  split; [apply SearchFacts.shorten_length |].
  intros Hshort. unfold Search.shorten, Search.LIMIT.
  destruct (Nat.ltb_spec 230 (length q)); [lia | reflexivity].
Qed.

Lemma search_query_within_limit_witness :
  (length (Search.shorten (js "album:x")) <= 230)%nat
  /\ ((length (js "album:x") <= 230)%nat
      -> Search.shorten (js "album:x") = js "album:x").
Proof. exact (search_query_within_limit (js "album:x")). Defined.

(** X13 When each of the queries of a pair can be encoded, [searchAlbum]
    returns, and what it returns is decided by the first query that has an
    answer: a query whose request fails or finds no album only moves the
    search to the next candidate, and the result is chosen from the answer
    to the first query that finds an album; when every query fails or finds
    no album the result is [null]. *)
Theorem searchAlbum_survives_failed_requests
  (toLowerCase : list N -> list N)
  (encodeURIComponent : list N -> outcome (list N))
  (spotifyRequest : list N -> outcome (list Search.Album))
  (album artist : list N) :
  Forall (fun q => exists encoded, encodeURIComponent q = Returns encoded)
         (SearchShape.queries album artist) ->
  exists found,
    Search.searchAlbum toLowerCase encodeURIComponent spotifyRequest album artist
    = Returns found
    /\ (forall pre q post encoded items,
          SearchShape.queries album artist = pre ++ q :: post ->
          Forall (SearchShape.fruitless encodeURIComponent spotifyRequest) pre ->
          encodeURIComponent q = Returns encoded ->
          spotifyRequest (Search.searchUrl encoded) = Returns items ->
          items <> [] ->
          found = Search.choose toLowerCase (Search.sanitize album)
                    (Search.sanitize artist) items)
    /\ (Forall (SearchShape.fruitless encodeURIComponent spotifyRequest)
               (SearchShape.queries album artist) ->
        found = None).
Proof.
  intros Henc.
  destruct (SearchFacts.searchLoop_returns toLowerCase encodeURIComponent
              spotifyRequest (Search.sanitize album) (Search.sanitize artist)
              (Search.candidates (Search.sanitize album) (Search.sanitize artist)))
    as (found & Hrun & _).
  { unfold SearchShape.queries in Henc.
    rewrite List.Forall_map in Henc. exact Henc. }
  exists found. unfold Search.searchAlbum. split; [exact Hrun |]. split.
  - intros pre q post encoded items Hq Hnone Hq1 Hreq Hsome.
    assert (Hpre : Forall (fun p => exists e, encodeURIComponent p = Returns e) pre).
    { rewrite Hq in Henc. apply Forall_app in Henc as [Hpre _]. exact Hpre. }
    pose proof (SearchFacts.searchLoop_first_answer toLowerCase
                  encodeURIComponent spotifyRequest
                  (Search.sanitize album) (Search.sanitize artist)
                  _ pre q post encoded items Hq Hnone Hpre Hq1 Hreq Hsome) as E.
    rewrite E in Hrun. injection Hrun as <-. reflexivity.
  - intros Hnone.
    pose proof (SearchFacts.searchLoop_none toLowerCase encodeURIComponent
                  spotifyRequest (Search.sanitize album) (Search.sanitize artist)
                  _ Hnone Henc) as E.
    rewrite E in Hrun. injection Hrun as <-. reflexivity.
Qed.

Lemma searchAlbum_survives_failed_requests_witness :
  exists found,
    Search.searchAlbum Dom.asciiLower (fun q => Returns q) CatalogSamples.flaky
      (js "In Rainbows") (js "Radiohead")
    = Returns found
    /\ (forall pre q post encoded items,
          SearchShape.queries (js "In Rainbows") (js "Radiohead")
          = pre ++ q :: post ->
          Forall (SearchShape.fruitless (fun q => Returns q) CatalogSamples.flaky)
                 pre ->
          (fun q : list N => Returns q) q = Returns encoded ->
          CatalogSamples.flaky (Search.searchUrl encoded) = Returns items ->
          items <> [] ->
          found = Search.choose Dom.asciiLower (Search.sanitize (js "In Rainbows"))
                    (Search.sanitize (js "Radiohead")) items)
    /\ (Forall (SearchShape.fruitless (fun q => Returns q) CatalogSamples.flaky)
               (SearchShape.queries (js "In Rainbows") (js "Radiohead")) ->
        found = None).
Proof.
  apply (searchAlbum_survives_failed_requests Dom.asciiLower
           (fun q => Returns q) CatalogSamples.flaky
           (js "In Rainbows") (js "Radiohead")).
  apply List.Forall_forall. intros q _. exists q. reflexivity.
Defined.

(** X14 An album that [searchAlbum] returns is an item of the answer to
    one of its queries: an item whose name contains the cleaned album and
    one of whose artists contains the cleaned artist, without regard to
    case, or else, when the answer has no such item, its first item. *)
Theorem searchAlbum_returns_an_answer_item
  (toLowerCase : list N -> list N)
  (encodeURIComponent : list N -> outcome (list N))
  (spotifyRequest : list N -> outcome (list Search.Album))
  (album artist : list N) (a : Search.Album) :
  Search.searchAlbum toLowerCase encodeURIComponent spotifyRequest album artist
  = Returns (Some a) ->
  exists q encoded items,
    q ∈ SearchShape.queries album artist
    /\ encodeURIComponent q = Returns encoded
    /\ spotifyRequest (Search.searchUrl encoded) = Returns items
    /\ a ∈ items
    /\ (Search.isExact toLowerCase (Search.sanitize album) (Search.sanitize artist) a
        = true
        \/ (Forall (fun b => Search.isExact toLowerCase (Search.sanitize album)
                               (Search.sanitize artist) b = false) items
            /\ head items = Some a)).
Proof.
  intros Hrun. unfold Search.searchAlbum in Hrun.
  apply SearchFacts.searchLoop_source in Hrun
    as (q & encoded & items & Hin & Henc & Hreq & Hchoose).
  apply SearchFacts.choose_item in Hchoose as [Hitem Hkind].
  exists (Search.shorten q), encoded, items.
  split; [| repeat split; assumption].
  unfold SearchShape.queries. apply list_elem_of_In, List.in_map, list_elem_of_In, Hin.
Qed.

Lemma searchAlbum_returns_an_answer_item_witness :
  exists q encoded items,
    q ∈ SearchShape.queries (js "In Rainbows") (js "Radiohead")
    /\ (fun q : list N => Returns q) q = Returns encoded
    /\ CatalogSamples.twoAlbums (Search.searchUrl encoded) = Returns items
    /\ CatalogSamples.inRainbowsLive ∈ items
    /\ (Search.isExact Dom.asciiLower (Search.sanitize (js "In Rainbows"))
          (Search.sanitize (js "Radiohead")) CatalogSamples.inRainbowsLive
        = true
        \/ (Forall (fun b => Search.isExact Dom.asciiLower
                               (Search.sanitize (js "In Rainbows"))
                               (Search.sanitize (js "Radiohead")) b = false) items
            /\ head items = Some CatalogSamples.inRainbowsLive)).
Proof.
  apply (searchAlbum_returns_an_answer_item Dom.asciiLower
           (fun q => Returns q) CatalogSamples.twoAlbums
           (js "In Rainbows") (js "Radiohead") CatalogSamples.inRainbowsLive).
  vm_compute. reflexivity.
Defined.

(** ** The tracks to add *)

Module TrackFacts.
Section TrackFacts.

Variable searchAlbum : list N -> list N -> outcome (option Search.Album).
Variable getAlbumFirstTrackUri : list N -> outcome (option (list N)).
Variable existingUris : gset (list N).

Local Notation "'addStep'" :=
  (Tracks.addStep searchAlbum getAlbumFirstTrackUri existingUris).
Local Notation "'collectTracks'" :=
  (Tracks.collectTracks searchAlbum getAlbumFirstTrackUri existingUris).

Local Notation "'firstTrackOf'" :=
  (TrackShape.firstTrackOf searchAlbum getAlbumFirstTrackUri).

(** One turn: it returns, and [toAdd] stays as it is or grows by one new
    first track. *)
Lemma addStep_run (p : Pair) (toAdd : list (list N)) :
  exists toAdd',
    addStep p toAdd = (Returns tt, toAdd')
    /\ (toAdd' = toAdd
        \/ exists uri, toAdd' = toAdd ++ [uri] /\ uri <> [] /\ (uri ∉ existingUris)
                       /\ (uri ∉ toAdd) /\ firstTrackOf p uri).
Proof.
  unfold Tracks.addStep, tryCatch, Tracks.lookUp.
  rewrite ProgFacts.run_call.
  destruct (searchAlbum (album p) (artist p)) as [[found |] |] eqn:Efound;
    try (exists toAdd; split; [reflexivity | left; reflexivity]).
  rewrite ProgFacts.run_call.
  destruct (getAlbumFirstTrackUri (Search.albumId found)) as [[uri |] |] eqn:Euri;
    try (exists toAdd; split; [reflexivity | left; reflexivity]).
  destruct uri as [| c uri]; cbn [falsy];
    [exists toAdd; split; [reflexivity | left; reflexivity] |].
  rewrite ProgFacts.run_getState.
  destruct (bool_decide (c :: uri ∈ existingUris)) eqn:Eold; cbn [negb andb];
    [exists toAdd; split; [reflexivity | left; reflexivity] |].
  destruct (bool_decide (c :: uri ∈ toAdd)) eqn:Enew; cbn [negb];
    [exists toAdd; split; [reflexivity | left; reflexivity] |].
  exists (toAdd ++ [c :: uri]). split; [reflexivity |]. right.
  exists (c :: uri). apply bool_decide_eq_false in Eold, Enew.
  repeat split; try assumption; try discriminate.
  exists found. split; assumption.
Qed.

Lemma collectTracks_run (pairs : list Pair) (toAdd : list (list N)) :
  exists added,
    collectTracks pairs toAdd = (Returns tt, toAdd ++ added)
    /\ NoDup added
    /\ (length added <= length pairs)%nat
    /\ Forall (fun uri => uri <> [] /\ (uri ∉ existingUris) /\ (uri ∉ toAdd)
                          /\ exists p, p ∈ pairs /\ firstTrackOf p uri) added.
Proof.
  revert toAdd. induction pairs as [| p rest IH]; intros toAdd.
  - exists []. rewrite app_nil_r.
    split; [reflexivity |]. split; [constructor |]. split; [simpl; lia | constructor].
  - unfold Tracks.collectTracks. rewrite ProgFacts.run_forEach_cons.
    destruct (addStep_run p toAdd) as (toAdd' & -> & Hstep).
    destruct (IH toAdd') as (added & Hrun & Hnd & Hlen & Hall).
    unfold Tracks.collectTracks in Hrun. rewrite Hrun.
    destruct Hstep as [-> | (uri & -> & Hne & Hold & Hnew & Hfirst)].
    + exists added. repeat split; [assumption | simpl; lia |].
      eapply Forall_impl; [exact Hall |].
      intros u (? & ? & ? & q & Hq & ?). repeat split; try assumption.
      exists q. split; [right; exact Hq | assumption].
    + exists (uri :: added). rewrite <- app_assoc. repeat split.
      * constructor; [| exact Hnd].
        intros Hin. rewrite Forall_forall in Hall.
        destruct (Hall uri Hin) as (_ & _ & Hout & _).
        apply Hout, elem_of_app. right. left.
      * simpl. lia.
      * constructor.
        -- repeat split; try assumption. exists p. split; [left | assumption].
        -- eapply Forall_impl; [exact Hall |].
           intros u (? & ? & Hout & q & Hq & ?). repeat split; try assumption.
           ++ intros Hin. apply Hout, elem_of_app. left. exact Hin.
           ++ exists q. split; [right; exact Hq | assumption].
Qed.

End TrackFacts.
End TrackFacts.

(** X15 The loop that gathers the tracks to add never throws, whatever
    the catalog does: it leaves a list without duplicates, of at most one
    track per pair, none of them empty and none already in the playlist,
    and each of them the first track that the catalog named for an album it
    found for one of the pairs. *)
Theorem collected_tracks_are_new_and_distinct
  (searchAlbum : list N -> list N -> outcome (option Search.Album))
  (getAlbumFirstTrackUri : list N -> outcome (option (list N)))
  (existingUris : gset (list N)) (pairs : list Pair) :
  exists toAdd,
    Tracks.collectTracks searchAlbum getAlbumFirstTrackUri existingUris pairs []
    = (Returns tt, toAdd)
    /\ NoDup toAdd
    /\ (length toAdd <= length pairs)%nat
    /\ Forall (fun uri =>
                 uri <> [] /\ (uri ∉ existingUris)
                 /\ exists p found,
                      p ∈ pairs
                      /\ searchAlbum (album p) (artist p) = Returns (Some found)
                      /\ getAlbumFirstTrackUri (Search.albumId found)
                         = Returns (Some uri)) toAdd.
Proof.
  destruct (TrackFacts.collectTracks_run searchAlbum getAlbumFirstTrackUri
              existingUris pairs []) as (added & Hrun & Hnd & Hlen & Hall).
  exists added. repeat split; try assumption.
  eapply Forall_impl; [exact Hall |].
  intros uri (Hne & Hold & _ & p & Hp & found & Hfound & Huri).
  repeat split; try assumption. exists p, found. repeat split; assumption.
Qed.

(** ** The trash *)

Module TrashFacts.
Section TrashFacts.

Variable IMAP_MAILBOX : list N.
Variable TRASH_MAILBOX : list N.
Variable server : list Trash.ImapCall -> Trash.ImapCall -> outcome unit.

Local Notation "'moveEmailToTrash'" :=
  (Trash.moveEmailToTrash IMAP_MAILBOX TRASH_MAILBOX server).
Local Notation "'archive'" :=
  (Trash.archive IMAP_MAILBOX TRASH_MAILBOX server).

Lemma refused_run uid calls :
  TrashShape.refused uid -> moveEmailToTrash uid calls = (Throws, calls).
Proof.
  destruct uid as [| z |]; cbn [TrashShape.refused Trash.moveEmailToTrash];
    try reflexivity.
  intros Hz. destruct (Z.leb_spec z 0); [reflexivity | lia].
Qed.

Ltac answer :=
  match goal with
  | |- context [server ?l ?c] =>
      let E := fresh "E" in destruct (server l c) as [[] |] eqn:E
  end.

Ltac tidy :=
  repeat match goal with
         | H : context [(_ ++ _) ++ _] |- _ =>
             rewrite <- app_assoc in H; cbn [app] in H
         end.

Ltac settle :=
  rewrite <- ?app_assoc; cbn [app]; tidy;
  eexists; split; [reflexivity |];
  split; [repeat constructor; cbn [TrashShape.movesOnly]; auto |];
  intros b Hb; first [discriminate Hb | injection Hb as <-; split; [reflexivity |]].

(** What a move of a valid UID does. *)
Lemma accepted_run z calls :
  (0 < z)%Z ->
  exists made,
    snd (moveEmailToTrash (UidInteger z) calls) = calls ++ made
    /\ Forall (TrashShape.movesOnly TRASH_MAILBOX z) made
    /\ forall b, fst (moveEmailToTrash (UidInteger z) calls) = Returns b ->
         b = true
         /\ exists before mailbox after,
              made = before ++ Trash.Move z mailbox :: after
              /\ server (calls ++ before) (Trash.Move z mailbox) = Returns tt.
Proof.
  intros Hz. cbn [Trash.moveEmailToTrash].
  destruct (Z.leb_spec z 0) as [? | _]; [lia |].
  unfold tryCatch, Trash.moveTo, Trash.imap, call.
  cbn [bind ret prog_monad fst snd].
  answer; cbn [fst snd]; [| settle].
  answer; cbn [fst snd].
  - answer; cbn [fst snd].
    + answer; cbn [fst snd].
      * settle.
        exists [Trash.Connect; Trash.OpenBox IMAP_MAILBOX], TRASH_MAILBOX,
               [Trash.EndConnection].
        split; [reflexivity | assumption].
      * answer; cbn [fst snd].
        -- answer; cbn [fst snd].
           ++ answer; cbn [fst snd].
              ** settle.
                 exists [Trash.Connect; Trash.OpenBox IMAP_MAILBOX], TRASH_MAILBOX,
                   [Trash.EndConnection; Trash.OpenBox IMAP_MAILBOX;
                    Trash.Move z (js "Trash"); Trash.EndConnection].
                 split; [reflexivity | assumption].
              ** answer; cbn [fst snd]; settle.
           ++ answer; cbn [fst snd]; settle.
        -- answer; cbn [fst snd]; settle.
    + answer; cbn [fst snd].
      * answer; cbn [fst snd].
        -- answer; cbn [fst snd].
           ++ settle.
              exists [Trash.Connect; Trash.OpenBox IMAP_MAILBOX;
                      Trash.Move z TRASH_MAILBOX; Trash.OpenBox IMAP_MAILBOX],
                     (js "Trash"), [Trash.EndConnection].
              split; [reflexivity | assumption].
           ++ answer; cbn [fst snd]; settle.
        -- answer; cbn [fst snd]; settle.
      * answer; cbn [fst snd]; settle.
  - answer; cbn [fst snd].
    + answer; cbn [fst snd].
      * answer; cbn [fst snd].
        -- settle.
           exists [Trash.Connect; Trash.OpenBox IMAP_MAILBOX;
                   Trash.OpenBox IMAP_MAILBOX],
                  (js "Trash"), [Trash.EndConnection].
           split; [reflexivity | assumption].
        -- answer; cbn [fst snd]; settle.
      * answer; cbn [fst snd]; settle.
    + answer; cbn [fst snd]; settle.
Qed.

(** One turn of the last loop. *)
Lemma archive_turn z calls :
  exists made,
    tryCatch (moveEmailToTrash (UidInteger z) ;; ret tt) (ret tt) calls
    = (Returns tt, calls ++ made)
    /\ Forall (TrashShape.movesOnly TRASH_MAILBOX z) made
    /\ ((z <= 0)%Z -> made = [])
    /\ ((0 < z)%Z \/ made = []).
Proof.
  unfold tryCatch. rewrite ProgFacts.run_bind.
  destruct (Z.le_gt_cases z 0) as [Hle | Hgt].
  - rewrite (refused_run (UidInteger z)) by exact Hle.
    exists []. rewrite app_nil_r. repeat split; auto.
  - destruct (accepted_run z calls) as (made & Hsnd & Hall & _); [lia |].
    exists made.
    destruct (moveEmailToTrash (UidInteger z) calls) as [[b |] calls'];
      cbn [snd] in Hsnd; subst calls'.
    + repeat split; [exact Hall | lia | left; lia].
    + repeat split; [exact Hall | lia | left; lia].
Qed.

Lemma archive_run uids calls :
  exists made,
    archive uids calls = (Returns tt, calls ++ made)
    /\ Forall (TrashShape.movesPositive uids) made
    /\ (Forall (fun z => (z <= 0)%Z) uids -> made = []).
Proof.
  revert calls. induction uids as [| z rest IH]; intros calls.
  - exists []. rewrite app_nil_r. repeat split; auto.
  - unfold Trash.archive. rewrite ProgFacts.run_forEach_cons.
    destruct (archive_turn z calls) as (made & -> & Hall & Hnone & Hpos).
    destruct (IH (calls ++ made)) as (made' & Hrun & Hall' & Hnone').
    unfold Trash.archive in Hrun. rewrite Hrun.
    exists (made ++ made'). rewrite app_assoc. split; [reflexivity |]. split.
    + apply Forall_app. split.
      * destruct Hpos as [Hpos | ->]; [| constructor].
        eapply Forall_impl; [exact Hall |].
        intros [] ; cbn [TrashShape.movesOnly TrashShape.movesPositive]; auto.
        intros [-> _]. split; [exact Hpos | left].
      * eapply Forall_impl; [exact Hall' |].
        intros []; cbn [TrashShape.movesPositive]; auto.
        intros [? ?]. split; [assumption | right; assumption].
    + intros Hneg. apply Forall_cons in Hneg as [Hz Hrest].
      rewrite (Hnone Hz), (Hnone' Hrest). reflexivity.
Qed.

End TrashFacts.
End TrashFacts.

(** X16 [moveEmailToTrash] refuses a UID that is not a positive integer
    before it touches the mail server: it throws, and no connection is
    opened and no call is made. *)
Theorem moveEmailToTrash_refuses_before_connecting
  (IMAP_MAILBOX TRASH_MAILBOX : list N)
  (server : list Trash.ImapCall -> Trash.ImapCall -> outcome unit)
  (uid : JsUid) (calls : list Trash.ImapCall) :
  TrashShape.refused uid ->
  Trash.moveEmailToTrash IMAP_MAILBOX TRASH_MAILBOX server uid calls
  = (Throws, calls).
Proof. apply TrashFacts.refused_run. Qed.

Lemma moveEmailToTrash_refuses_before_connecting_witness :
  Trash.moveEmailToTrash (js "INBOX") (js "Deleted Messages")
    TrashShape.obliging (UidInteger 0) []
  = (Throws, []).
Proof.
  apply (moveEmailToTrash_refuses_before_connecting (js "INBOX")
           (js "Deleted Messages") TrashShape.obliging (UidInteger 0) []).
  simpl. lia.
Defined.

(** X17 For a positive UID, every move that [moveEmailToTrash] asks of
    the server is a move of that UID to the configured trash mailbox or to
    [Trash], and it returns (with [true]) only when the server has answered
    one of these moves with success. *)
Theorem moveEmailToTrash_moves_only_to_trash
  (IMAP_MAILBOX TRASH_MAILBOX : list N)
  (server : list Trash.ImapCall -> Trash.ImapCall -> outcome unit)
  (z : Z) (calls : list Trash.ImapCall) :
  (0 < z)%Z ->
  exists made,
    snd (Trash.moveEmailToTrash IMAP_MAILBOX TRASH_MAILBOX server (UidInteger z) calls)
    = calls ++ made
    /\ Forall (TrashShape.movesOnly TRASH_MAILBOX z) made
    /\ forall b,
         fst (Trash.moveEmailToTrash IMAP_MAILBOX TRASH_MAILBOX server
                (UidInteger z) calls) = Returns b ->
         b = true
         /\ exists before mailbox after,
              made = before ++ Trash.Move z mailbox :: after
              /\ server (calls ++ before) (Trash.Move z mailbox) = Returns tt.
Proof. apply TrashFacts.accepted_run. Qed.

Lemma moveEmailToTrash_moves_only_to_trash_witness :
  exists made,
    snd (Trash.moveEmailToTrash (js "INBOX") (js "Deleted Messages")
           TrashShape.obliging (UidInteger 7) [])
    = [] ++ made
    /\ Forall (TrashShape.movesOnly (js "Deleted Messages") 7) made
    /\ forall b,
         fst (Trash.moveEmailToTrash (js "INBOX") (js "Deleted Messages")
                TrashShape.obliging (UidInteger 7) []) = Returns b ->
         b = true
         /\ exists before mailbox after,
              made = before ++ Trash.Move 7 mailbox :: after
              /\ TrashShape.obliging ([] ++ before) (Trash.Move 7 mailbox)
                 = Returns tt.
Proof.
  apply (moveEmailToTrash_moves_only_to_trash (js "INBOX")
           (js "Deleted Messages") TrashShape.obliging 7 []).
  lia.
Defined.

(** X18 The last loop of [main] and of [syncPlaylistsFromEmails] never
    throws, whatever the server answers; every move it asks for is a move
    of a positive UID of the set, so a UID of zero or below that the set
    holds never reaches the server: when no UID is positive the loop makes
    no call at all. *)
Theorem archive_loop_moves_positive_uids_only
  (IMAP_MAILBOX TRASH_MAILBOX : list N)
  (server : list Trash.ImapCall -> Trash.ImapCall -> outcome unit)
  (uids : list Z) (calls : list Trash.ImapCall) :
  exists made,
    Trash.archive IMAP_MAILBOX TRASH_MAILBOX server uids calls
    = (Returns tt, calls ++ made)
    /\ Forall (TrashShape.movesPositive uids) made
    /\ (Forall (fun z => (z <= 0)%Z) uids -> made = []).
Proof. apply TrashFacts.archive_run. Qed.

(** ** The trash mover *)

Module MoverFacts.

Lemma find_first {A : Type} (f : A -> bool) (pre : list A) (x : A) (post : list A) :
  Forall (fun y => f y = false) pre -> f x = true ->
  List.find f (pre ++ x :: post) = Some x.
Proof.
  intros Hpre Hx. induction Hpre as [| y pre Hy _ IH]; cbn [app List.find].
  - rewrite Hx. reflexivity.
  - rewrite Hy. exact IH.
Qed.

Lemma find_none_Forall {A : Type} (f : A -> bool) (l : list A) :
  List.find f l = None <-> Forall (fun y => f y = false) l.
Proof.
  split.
  - intros Hnone. apply List.Forall_forall. intros y Hy.
    apply (List.find_none f l Hnone y Hy).
  - induction 1 as [| y l Hy _ IH]; cbn [List.find]; [reflexivity |].
    rewrite Hy. exact IH.
Qed.

Lemma named_name (parsed : list Mover.Box) (box : Mover.Box) :
  In box (MoverShape.named parsed) ->
  In box parsed /\ exists n, Mover.name box = Some n /\ n <> [].
Proof.
  unfold MoverShape.named. rewrite List.filter_In. intros [Hin Hname].
  split; [exact Hin |].
  destruct (Mover.name box) as [[| c n] |]; try discriminate.
  exists (c :: n). split; [reflexivity | discriminate].
Qed.

Section Mover.

Variable toLowerCase : list N -> list N.
Variable toUpperCase : list N -> list N.
Variable serverCapabilities : list (list N).
Variable answer : list Mover.Command -> Mover.Command -> Mover.Reply.
Variable listed : list Mover.Command -> outcome (list Mover.Box).

Local Notation "'pickTrash'" := (Mover.pickTrash toLowerCase).
Local Notation "'hasTrashName'" := (Mover.hasTrashName toLowerCase).
Local Notation "'moveUid'" :=
  (Mover.moveUid toUpperCase serverCapabilities answer).
Local Notation "'moveEach'" :=
  (Mover.moveEach toUpperCase serverCapabilities answer).
Local Notation "'supportsMove'" :=
  (Mover._supportsMove toUpperCase serverCapabilities).

Lemma pickTrash_flagged pre box post :
  Forall (fun b => Mover.hasTrashFlag b = false) pre ->
  Mover.hasTrashFlag box = true ->
  pickTrash (pre ++ box :: post) = Mover.name box.
Proof.
  intros Hpre Hbox. unfold Mover.pickTrash.
  rewrite (find_first _ pre box post Hpre Hbox). reflexivity.
Qed.

Lemma pickTrash_none parsed :
  pickTrash (MoverShape.named parsed) = None
  <-> Forall (fun b => Mover.hasTrashFlag b = false /\ hasTrashName b = false)
             (MoverShape.named parsed).
Proof.
  unfold Mover.pickTrash. split.
  - destruct (List.find Mover.hasTrashFlag _) as [box |] eqn:Eflag.
    { intros Hname. apply List.find_some in Eflag as [Hin _].
      apply named_name in Hin as (_ & n & Hn & _). congruence. }
    destruct (List.find hasTrashName _) as [box |] eqn:Ename.
    { intros Hname. apply List.find_some in Ename as [Hin _].
      apply named_name in Hin as (_ & n & Hn & _). congruence. }
    intros _. apply find_none_Forall in Eflag, Ename.
    apply Forall_and. split; assumption.
  - intros Hall. apply Forall_and in Hall as [Hflag Hname].
    apply find_none_Forall in Hflag, Hname. rewrite Hflag, Hname. reflexivity.
Qed.

Lemma pickTrash_some boxes n :
  pickTrash boxes = Some n ->
  exists box, In box boxes /\ Mover.name box = Some n
              /\ (Mover.hasTrashFlag box = true \/ hasTrashName box = true).
Proof.
  unfold Mover.pickTrash.
  destruct (List.find Mover.hasTrashFlag boxes) as [box |] eqn:Eflag.
  { intros Hname. apply List.find_some in Eflag as [Hin Hflag].
    exists box. auto. }
  destruct (List.find hasTrashName boxes) as [box |] eqn:Ename; [| discriminate].
  intros Hname. apply List.find_some in Ename as [Hin Hflag].
  exists box. auto.
Qed.

Lemma moveUid_dry uid target sent :
  moveUid uid target true sent = (Returns true, sent).
Proof. reflexivity. Qed.

Lemma moveUid_move uid target sent :
  supportsMove = true ->
  moveUid uid target false sent
  = (match answer sent (Mover.Move uid target) with
     | Mover.Done => Returns true
     | Mover.Failed => Returns false
     | Mover.Thrown => Throws
     end, sent ++ [Mover.Move uid target]).
Proof. intros E. unfold Mover.moveUid. rewrite E. reflexivity. Qed.

(** The fallback, answer by answer. *)
Lemma moveUid_fallback uid target sent :
  supportsMove = false ->
  moveUid uid target false sent
  = match answer sent (Mover.Copy uid target) with
    | Mover.Done =>
        match answer (sent ++ [Mover.Copy uid target])
                     (Mover.AddFlags uid (js "\Deleted")) with
        | Mover.Done =>
            (Returns
               (MoverShape.done
                  (answer (sent ++ [Mover.Copy uid target;
                                    Mover.AddFlags uid (js "\Deleted")])
                          Mover.Expunge)),
             sent ++ [Mover.Copy uid target;
                      Mover.AddFlags uid (js "\Deleted"); Mover.Expunge])
        | _ => (Returns false,
                sent ++ [Mover.Copy uid target;
                         Mover.AddFlags uid (js "\Deleted")])
        end
    | _ => (Returns false, sent ++ [Mover.Copy uid target])
    end.
Proof.
  intros E. unfold Mover.moveUid. rewrite E.
  unfold tryCatch, Mover.command. cbn [bind ret prog_monad].
  destruct (answer sent (Mover.Copy uid target)); [| reflexivity | reflexivity].
  rewrite <- !app_assoc. cbn [app].
  destruct (answer (sent ++ [Mover.Copy uid target]) _);
    [| reflexivity | reflexivity].
  replace ((sent ++ [Mover.Copy uid target])
           ++ [Mover.AddFlags uid (js "\Deleted")])
    with (sent ++ [Mover.Copy uid target; Mover.AddFlags uid (js "\Deleted")])
    by (rewrite <- app_assoc; reflexivity).
  destruct (answer _ Mover.Expunge); reflexivity.
Qed.

Lemma moving_mono uids uids' folder c :
  (forall uid, uid ∈ uids -> uid ∈ uids') ->
  MoverShape.moving uids folder c -> MoverShape.moving uids' folder c.
Proof. intros Hsub. destruct c; cbn; intuition. Qed.

(** What one move sends. *)
Lemma moveUid_sends uid target dryRun sent :
  exists r made,
    moveUid uid target dryRun sent = (r, sent ++ made)
    /\ Forall (MoverShape.moving [uid] target) made
    /\ (dryRun = true -> r = Returns true /\ made = []).
Proof.
  destruct dryRun.
  { exists (Returns true), []. rewrite app_nil_r, moveUid_dry.
    repeat split. constructor. }
  destruct supportsMove eqn:Ecap.
  { rewrite (moveUid_move _ _ _ Ecap). eexists _, _.
    split; [reflexivity |]. split; [| discriminate].
    repeat constructor. }
  rewrite (moveUid_fallback _ _ _ Ecap).
  destruct (answer sent (Mover.Copy uid target));
    [destruct (answer (sent ++ [Mover.Copy uid target]) _) | |];
    (eexists _, _; split; [reflexivity |]; split; [| discriminate]);
    repeat constructor.
Qed.

(** The loop is the tally of the moves: a move that throws counts as a
    failure. *)
Lemma moveEach_tally uids folder dryRun successCount sent :
  moveEach uids folder dryRun successCount sent
  = (Returns (fst (MoverShape.tally (fun uid => moveUid uid folder dryRun)
                     uids successCount sent)),
     snd (MoverShape.tally (fun uid => moveUid uid folder dryRun)
            uids successCount sent)).
Proof.
  revert successCount sent.
  induction uids as [| uid rest IH]; intros successCount sent; [reflexivity |].
  cbn [Mover.moveEach MoverShape.tally]. rewrite ProgFacts.run_bind.
  unfold tryCatch at 1.
  destruct (moveUid uid folder dryRun sent) as [[[|] |] sent'];
    cbn [ret prog_monad]; apply IH.
Qed.

Lemma tally_sends uids folder dryRun successCount sent :
  exists count made,
    MoverShape.tally (fun uid => moveUid uid folder dryRun) uids successCount sent
    = (count, sent ++ made)
    /\ (successCount <= count <= successCount + length uids)%nat
    /\ Forall (MoverShape.moving uids folder) made
    /\ (dryRun = true -> made = [] /\ count = (successCount + length uids)%nat).
Proof.
  revert successCount sent.
  induction uids as [| uid rest IH]; intros successCount sent.
  - exists successCount, []. rewrite app_nil_r.
    repeat split; simpl; try lia; constructor.
  - cbn [MoverShape.tally].
    destruct (moveUid_sends uid folder dryRun sent)
      as (r & made & -> & Hmade & Hdry).
    destruct (IH (match r with Returns true => S successCount
                          | _ => successCount end) (sent ++ made))
      as (count & made' & -> & Hcount & Hmade' & Hdry').
    exists count, (made ++ made'). rewrite app_assoc.
    split; [reflexivity |].
    split; [destruct r as [[|] |]; simpl; lia |].
    split.
    + apply Forall_app. split.
      * eapply Forall_impl; [exact Hmade |]. intros c.
        apply moving_mono. intros u Hu. apply list_elem_of_singleton in Hu as ->.
        apply list_elem_of_here.
      * eapply Forall_impl; [exact Hmade' |]. intros c.
        apply moving_mono. intros u Hu. apply list_elem_of_further, Hu.
    + intros ->. destruct (Hdry eq_refl) as [-> ->].
      destruct (Hdry' eq_refl) as [-> ->]. split; [reflexivity | simpl; lia].
Qed.

Local Notation "'resolveTrash'" :=
  (Mover.resolveTrash toLowerCase answer listed).
Local Notation "'moveUidsToTrash'" :=
  (Mover.moveUidsToTrash toLowerCase toUpperCase serverCapabilities answer listed).

Lemma resolveTrash_run target sent :
  exists r made,
    resolveTrash target sent = (r, sent ++ made)
    /\ Forall MoverShape.resolving made
    /\ (forall t, target = Some t -> t <> [] -> r = Returns t /\ made = []).
Proof.
  unfold Mover.resolveTrash.
  destruct (Mover.missing target) eqn:Etarget; cbn [negb].
  2:{ exists (Returns (default [] target)), []. rewrite app_nil_r.
      split; [reflexivity |]. split; [constructor |].
      intros t -> _. split; reflexivity. }
  assert (Hnot : forall t, target = Some t -> t <> [] ->
                   forall (r : outcome (list N)) (made : list Mover.Command),
                     r = Returns t /\ made = []).
  { intros t -> Ht. destruct t; [congruence | discriminate]. }
  rewrite ProgFacts.run_bind.
  unfold Mover.findTrashFolder at 1. rewrite ProgFacts.run_bind.
  unfold Mover._listMailboxes at 1.
  destruct (listed sent) as [parsed |].
  2:{ eexists _, _. split; [reflexivity |].
      split; [repeat constructor; left; reflexivity | intros; apply (Hnot t); assumption]. }
  cbn [ret prog_monad].
  destruct (negb (Mover.missing _)).
  { eexists _, _. split; [reflexivity |].
    split; [repeat constructor; left; reflexivity | intros; apply (Hnot t); assumption]. }
  rewrite ProgFacts.run_bind.
  unfold Mover.ensureMailbox. rewrite ProgFacts.run_bind.
  unfold Mover._listMailboxes.
  destruct (listed (sent ++ [Mover.ListBoxes])) as [parsed' |].
  2:{ rewrite <- app_assoc. eexists _, _. split; [reflexivity |].
      split; [repeat constructor; left; reflexivity | intros; apply (Hnot t); assumption]. }
  destruct (existsb _ _); cbn [ret prog_monad].
  { rewrite <- app_assoc. eexists _, _. split; [reflexivity |].
    split; [repeat constructor; left; reflexivity | intros; apply (Hnot t); assumption]. }
  unfold Mover.attempt.
  destruct (answer _ (Mover.CreateBox _)); unfold call;
    rewrite <- !app_assoc; cbn [app];
    (eexists _, _; split; [reflexivity |];
     split; [repeat constructor; (left; reflexivity) || (right; reflexivity)
            | intros; apply (Hnot t); assumption]).
Qed.

Lemma moveUidsToTrash_refused source uid rest target dryRun sent :
  answer sent (Mover.OpenBox source) <> Mover.Done ->
  moveUidsToTrash source (uid :: rest) target dryRun sent
  = (Throws, sent ++ [Mover.OpenBox source]).
Proof.
  intros Hopen. unfold Mover.moveUidsToTrash. rewrite ProgFacts.run_bind.
  unfold Mover.command at 1.
  destruct (answer sent (Mover.OpenBox source)); [congruence | |]; reflexivity.
Qed.

Lemma moveUidsToTrash_run source uid rest target dryRun sent :
  answer sent (Mover.OpenBox source) = Mover.Done ->
  exists r resolution,
    resolveTrash target (sent ++ [Mover.OpenBox source])
    = (r, sent ++ Mover.OpenBox source :: resolution)
    /\ Forall MoverShape.resolving resolution
    /\ (forall t, target = Some t -> t <> [] -> r = Returns t /\ resolution = [])
    /\ match r with
       | Throws =>
           moveUidsToTrash source (uid :: rest) target dryRun sent
           = (Throws, sent ++ Mover.OpenBox source :: resolution)
       | Returns folder =>
           exists count moves,
             MoverShape.tally (fun u => moveUid u folder dryRun) (uid :: rest) 0
               (sent ++ Mover.OpenBox source :: resolution)
             = (count, sent ++ Mover.OpenBox source :: resolution ++ moves)
             /\ moveUidsToTrash source (uid :: rest) target dryRun sent
                = (Returns count,
                   sent ++ Mover.OpenBox source :: resolution ++ moves)
             /\ Forall (MoverShape.moving (uid :: rest) folder) moves
             /\ (count <= length (uid :: rest))%nat
             /\ (dryRun = true -> moves = [] /\ count = length (uid :: rest))
       end.
Proof.
  intros Hopen.
  assert (Hrun : moveUidsToTrash source (uid :: rest) target dryRun sent
                 = match resolveTrash target (sent ++ [Mover.OpenBox source]) with
                   | (Returns folder, s') =>
                       moveEach (uid :: rest) folder dryRun 0 s'
                   | (Throws, s') => (Throws, s')
                   end).
  { unfold Mover.moveUidsToTrash. rewrite ProgFacts.run_bind.
    unfold Mover.command at 1. rewrite Hopen. apply ProgFacts.run_bind. }
  destruct (resolveTrash_run target (sent ++ [Mover.OpenBox source]))
    as (r & resolution & E & Hres & Hgiven).
  exists r, resolution. rewrite Hrun, E.
  replace (sent ++ Mover.OpenBox source :: resolution)
    with ((sent ++ [Mover.OpenBox source]) ++ resolution)
    by (rewrite <- app_assoc; reflexivity).
  split; [reflexivity |]. split; [exact Hres |]. split; [exact Hgiven |].
  destruct r as [folder |]; [| reflexivity].
  rewrite moveEach_tally.
  destruct (tally_sends (uid :: rest) folder dryRun 0
              ((sent ++ [Mover.OpenBox source]) ++ resolution))
    as (count & moves & Et & Hcount & Hmoves & Hdry).
  exists count, moves. rewrite Et. cbn [fst snd].
  replace (sent ++ Mover.OpenBox source :: resolution ++ moves)
    with (((sent ++ [Mover.OpenBox source]) ++ resolution) ++ moves)
    by (rewrite <- !app_assoc; reflexivity).
  split; [reflexivity |]. split; [reflexivity |]. split; [exact Hmoves |].
  split; [simpl in *; lia |].
  intros Hd. destruct (Hdry Hd) as [-> ->]. split; reflexivity.
Qed.

End Mover.
End MoverFacts.

(** X19 [findTrashFolder] asks the server for its mailboxes once; of the
    boxes that have a name it returns the name of the first one flagged
    [\Trash] or [\Deleted], whatever the names of the boxes before it; it
    returns [null] exactly when no box is flagged and no name contains a
    keyword, and any name it returns is the name of a listed box that is
    flagged or contains a keyword. *)
Theorem findTrashFolder_prefers_flagged_box
  (toLowerCase : list N -> list N)
  (listed : list Mover.Command -> outcome (list Mover.Box))
  (sent : list Mover.Command) (parsed : list Mover.Box) :
  listed sent = Returns parsed ->
  exists found,
    Mover.findTrashFolder toLowerCase listed sent
    = (Returns found, sent ++ [Mover.ListBoxes])
    /\ (forall pre box post,
          MoverShape.named parsed = pre ++ box :: post ->
          Forall (fun b => Mover.hasTrashFlag b = false) pre ->
          Mover.hasTrashFlag box = true ->
          found = Mover.name box)
    /\ (found = None
        <-> Forall (fun b => Mover.hasTrashFlag b = false
                             /\ Mover.hasTrashName toLowerCase b = false)
                   (MoverShape.named parsed))
    /\ (forall n, found = Some n ->
          n <> []
          /\ exists box, In box parsed /\ Mover.name box = Some n
                         /\ (Mover.hasTrashFlag box = true
                             \/ Mover.hasTrashName toLowerCase box = true)).
Proof.
  intros Hlisted.
  exists (Mover.pickTrash toLowerCase (MoverShape.named parsed)).
  split; [| split; [| split]].
  - unfold Mover.findTrashFolder, Mover._listMailboxes.
    rewrite ProgFacts.run_bind, Hlisted. reflexivity.
  - intros pre box post -> Hpre Hbox.
    apply MoverFacts.pickTrash_flagged; assumption.
  - apply MoverFacts.pickTrash_none.
  - intros n Hn. apply MoverFacts.pickTrash_some in Hn as (box & Hin & Hname & Hkind).
    apply MoverFacts.named_name in Hin as (Hin & n' & Hn' & Hne).
    split; [congruence |]. exists box. auto.
Qed.

Lemma findTrashFolder_prefers_flagged_box_witness :
  exists found,
    Mover.findTrashFolder Dom.asciiLower
      (fun _ => Returns [MoverShape.inbox; MoverShape.oldTrash; MoverShape.bin]) []
    = (Returns found, [] ++ [Mover.ListBoxes])
    /\ (forall pre box post,
          MoverShape.named [MoverShape.inbox; MoverShape.oldTrash; MoverShape.bin]
          = pre ++ box :: post ->
          Forall (fun b => Mover.hasTrashFlag b = false) pre ->
          Mover.hasTrashFlag box = true ->
          found = Mover.name box)
    /\ (found = None
        <-> Forall (fun b => Mover.hasTrashFlag b = false
                             /\ Mover.hasTrashName Dom.asciiLower b = false)
                   (MoverShape.named
                      [MoverShape.inbox; MoverShape.oldTrash; MoverShape.bin]))
    /\ (forall n, found = Some n ->
          n <> []
          /\ exists box,
               In box [MoverShape.inbox; MoverShape.oldTrash; MoverShape.bin]
               /\ Mover.name box = Some n
               /\ (Mover.hasTrashFlag box = true
                   \/ Mover.hasTrashName Dom.asciiLower box = true)).
Proof.
  apply (findTrashFolder_prefers_flagged_box Dom.asciiLower
           (fun _ => Returns [MoverShape.inbox; MoverShape.oldTrash; MoverShape.bin])
           [] [MoverShape.inbox; MoverShape.oldTrash; MoverShape.bin]).
  reflexivity.
Defined.

Module MoverChecks.

(** The flagged box wins over the box named like a trash folder. *)
Example pickTrash_sample :
  Mover.pickTrash Dom.asciiLower
    [MoverShape.inbox; MoverShape.oldTrash; MoverShape.bin]
  = Some (js "Bin").
Proof. vm_compute. reflexivity. Qed.

Example pickTrash_by_name :
  Mover.pickTrash Dom.asciiLower [MoverShape.inbox; MoverShape.oldTrash]
  = Some (js "Old Trash").
Proof. vm_compute. reflexivity. Qed.

(** A server without MOVE that refuses the flag: the copy is made, nothing
    is expunged, and the move counts as failed. *)
Example fallback_sample :
  Mover.moveUid (fun c => c) [js "IMAP4rev1"]
    (fun _ c => match c with
                | Mover.AddFlags _ _ => Mover.Failed
                | _ => Mover.Done
                end)
    (js "7") (js "Trash") false []
  = (Returns false,
     [Mover.Copy (js "7") (js "Trash"); Mover.AddFlags (js "7") (js "\Deleted")]).
Proof. vm_compute. reflexivity. Qed.

(** Two UIDs, a target given, a server with MOVE that refuses the first. *)
Example moveUidsToTrash_sample :
  Mover.moveUidsToTrash Dom.asciiLower (fun c => c) [js "MOVE"]
    (fun sent c => match c with
                   | Mover.Move uid _ =>
                       if bool_decide (uid = js "7") then Mover.Failed
                       else Mover.Done
                   | _ => Mover.Done
                   end)
    MoverSamples.threeBoxes (js "INBOX") [js "7"; js "8"] (Some (js "Bin"))
    false []
  = (Returns 1%nat,
     [Mover.OpenBox (js "INBOX"); Mover.Move (js "7") (js "Bin");
      Mover.Move (js "8") (js "Bin")]).
Proof. vm_compute. reflexivity. Qed.

End MoverChecks.

(** X20 A dry run of [moveUid] sends nothing and reports success. On a
    server with the MOVE capability the one command sent is the move: an
    error reported for it makes [moveUid] return [false] without any copy
    being tried, and only a call that throws makes it throw. Without the
    capability [moveUid] never throws: it sends copy, flag and expunge in
    this order, stops after the first that the server does not carry out
    and then reports [false]; it reports [true] exactly when all three were
    carried out. *)
Theorem moveUid_reports_failed_move_without_fallback
  (toUpperCase : list N -> list N) (serverCapabilities : list (list N))
  (answer : list Mover.Command -> Mover.Command -> Mover.Reply)
  (uid target : list N) (dryRun : bool) (sent : list Mover.Command) :
  let copy := Mover.Copy uid target in
  let flag := Mover.AddFlags uid (js "\Deleted") in
  (dryRun = true ->
   Mover.moveUid toUpperCase serverCapabilities answer uid target dryRun sent
   = (Returns true, sent))
  /\ (dryRun = false ->
      Mover._supportsMove toUpperCase serverCapabilities = true ->
      Mover.moveUid toUpperCase serverCapabilities answer uid target dryRun sent
      = (match answer sent (Mover.Move uid target) with
         | Mover.Done => Returns true
         | Mover.Failed => Returns false
         | Mover.Thrown => Throws
         end, sent ++ [Mover.Move uid target]))
  /\ (dryRun = false ->
      Mover._supportsMove toUpperCase serverCapabilities = false ->
      (answer sent copy <> Mover.Done ->
       Mover.moveUid toUpperCase serverCapabilities answer uid target dryRun sent
       = (Returns false, sent ++ [copy]))
      /\ (answer sent copy = Mover.Done ->
          answer (sent ++ [copy]) flag <> Mover.Done ->
          Mover.moveUid toUpperCase serverCapabilities answer uid target dryRun
            sent
          = (Returns false, sent ++ [copy; flag]))
      /\ (answer sent copy = Mover.Done ->
          answer (sent ++ [copy]) flag = Mover.Done ->
          Mover.moveUid toUpperCase serverCapabilities answer uid target dryRun
            sent
          = (Returns (MoverShape.done
                        (answer (sent ++ [copy; flag]) Mover.Expunge)),
             sent ++ [copy; flag; Mover.Expunge]))).
Proof.
  intros copy flag. split; [| split].
  - intros ->. apply MoverFacts.moveUid_dry.
  - intros -> Hcap. apply MoverFacts.moveUid_move, Hcap.
  - intros -> Hcap.
    pose proof (MoverFacts.moveUid_fallback toUpperCase serverCapabilities
                  answer uid target sent Hcap) as E.
    fold copy flag in E. split; [| split].
    + intros Hcopy. rewrite E.
      destruct (answer sent copy); [congruence | |]; reflexivity.
    + intros Hcopy Hflag. rewrite E, Hcopy.
      destruct (answer (sent ++ [copy]) flag); [congruence | |]; reflexivity.
    + intros Hcopy Hflag. rewrite E, Hcopy, Hflag. reflexivity.
Qed.

(** X21 [moveUidsToTrash] with no UID throws before any command is
    sent. With UIDs to move it first opens the source mailbox and throws
    when that fails. It then settles the mailbox to move to: the only
    commands of that step are [LIST] and the creation of [INBOX/Trash], and
    there is none when a target is given, which is then the mailbox. After
    that it sends exactly what [moveUid] sends for each UID in turn, and
    nothing else: every such command moves or copies one of the UIDs to
    that mailbox, flags one of them as deleted, or expunges. The count it
    returns is the number of UIDs for which [moveUid] returned [true], at
    most the number of UIDs. In a dry run no such command is sent and the
    count is the number of UIDs. *)
Theorem moveUidsToTrash_moves_to_one_mailbox
  (toLowerCase toUpperCase : list N -> list N)
  (serverCapabilities : list (list N))
  (answer : list Mover.Command -> Mover.Command -> Mover.Reply)
  (listed : list Mover.Command -> outcome (list Mover.Box))
  (source : list N) (uids : list (list N)) (target : option (list N))
  (dryRun : bool) (sent : list Mover.Command) :
  let run :=
    Mover.moveUidsToTrash toLowerCase toUpperCase serverCapabilities answer
      listed source uids target dryRun sent in
  (uids = [] -> run = (Throws, sent))
  /\ (uids <> [] -> answer sent (Mover.OpenBox source) <> Mover.Done ->
      run = (Throws, sent ++ [Mover.OpenBox source]))
  /\ (uids <> [] -> answer sent (Mover.OpenBox source) = Mover.Done ->
      exists r resolution,
        Mover.resolveTrash toLowerCase answer listed target
          (sent ++ [Mover.OpenBox source])
        = (r, sent ++ Mover.OpenBox source :: resolution)
        /\ Forall MoverShape.resolving resolution
        /\ (forall t, target = Some t -> t <> [] ->
              r = Returns t /\ resolution = [])
        /\ match r with
           | Throws => run = (Throws, sent ++ Mover.OpenBox source :: resolution)
           | Returns folder =>
               exists count moves,
                 MoverShape.tally
                   (fun uid =>
                      Mover.moveUid toUpperCase serverCapabilities answer uid
                        folder dryRun)
                   uids 0 (sent ++ Mover.OpenBox source :: resolution)
                 = (count, sent ++ Mover.OpenBox source :: resolution ++ moves)
                 /\ run = (Returns count,
                           sent ++ Mover.OpenBox source :: resolution ++ moves)
                 /\ Forall (MoverShape.moving uids folder) moves
                 /\ (count <= length uids)%nat
                 /\ (dryRun = true -> moves = [] /\ count = length uids)
           end).
Proof.
  intros run. subst run. split; [| split].
  - intros ->. reflexivity.
  - intros Huids Hopen. destruct uids as [| uid rest]; [congruence |].
    apply MoverFacts.moveUidsToTrash_refused, Hopen.
  - intros Huids Hopen. destruct uids as [| uid rest]; [congruence |].
    apply MoverFacts.moveUidsToTrash_run, Hopen.
Qed.

(** ** Splitting, truncation and the command line *)

Module SplitFacts.

Lemma split_cons sep s : exists w ws, Search.split sep s = w :: ws.
Proof.
  induction s as [| c t (w & ws & IH)]; cbn [Search.split]; [eauto |].
  destruct (c =? sep); [eauto |]. rewrite IH. eauto.
Qed.

(** A text without the separator is one piece. *)
Lemma split_one sep s :
  Forall (fun c => c <> sep) s -> Search.split sep s = [s].
Proof.
  induction 1 as [| c t Hc _ IH]; [reflexivity |].
  cbn [Search.split]. apply N.eqb_neq in Hc. rewrite Hc, IH. reflexivity.
Qed.

(** The text up to the first separator is the first piece. *)
Lemma split_app sep a b :
  Forall (fun c => c <> sep) a ->
  Search.split sep (a ++ sep :: b) = a :: Search.split sep b.
Proof.
  induction 1 as [| c t Hc _ IH]; cbn [app Search.split].
  - rewrite N.eqb_refl. reflexivity.
  - apply N.eqb_neq in Hc. rewrite Hc, IH. reflexivity.
Qed.

(** No piece holds the separator. *)
Lemma split_pieces sep s :
  Forall (Forall (fun c => c <> sep)) (Search.split sep s).
Proof.
  induction s as [| c t IH]; cbn [Search.split]; [repeat constructor |].
  destruct (N.eqb_spec c sep) as [-> | Hne]; [constructor; [constructor | exact IH] |].
  destruct (Search.split sep t) as [| w ws]; [repeat constructor; exact Hne |].
  apply Forall_cons in IH as [Hw Hws].
  constructor; [constructor; assumption | exact Hws].
Qed.

(** Joining the pieces with the separator gives the text back. *)
Lemma join_split sep s : Search.join [sep] (Search.split sep s) = s.
Proof.
  induction s as [| c t IH]; [reflexivity |].
  cbn [Search.split].
  destruct (N.eqb_spec c sep) as [-> | Hne].
  - destruct (split_cons sep t) as (w & ws & E). rewrite E in *.
    cbn [Search.join app]. f_equal. exact IH.
  - destruct (split_cons sep t) as (w & ws & E). rewrite E in *.
    destruct ws as [| w' ws]; cbn [Search.join app] in *; f_equal; exact IH.
Qed.

(** The pieces are blank exactly when the text is separators and white
    space. *)
Lemma split_blank sep s :
  Forall (Forall (fun c => isSpace c = true)) (Search.split sep s)
  <-> Forall (fun c => c = sep \/ isSpace c = true) s.
Proof.
  induction s as [| c t IH]; cbn [Search.split].
  - split; intros _; repeat constructor.
  - destruct (N.eqb_spec c sep) as [-> | Hne].
    + rewrite !Forall_cons, IH. split; [intros [_ H]; auto | intros [_ H]].
      split; [constructor | exact H].
    + destruct (split_cons sep t) as (w & ws & E). rewrite E in *.
      rewrite !Forall_cons in *. rewrite <- IH. split.
      * intros [[Hc Hw] Hws]. auto.
      * intros [[Hc | Hc] [Hw Hws]]; [contradiction | auto].
Qed.

Lemma dropSpaces_nil s :
  dropSpaces s = [] <-> Forall (fun c => isSpace c = true) s.
Proof.
  induction s as [| c t IH]; cbn [dropSpaces].
  - split; [constructor | reflexivity].
  - destruct (isSpace c) eqn:Hc.
    + rewrite IH, Forall_cons. tauto.
    + split; [discriminate | intros H; apply Forall_cons in H as [H _]; congruence].
Qed.

Lemma trim_nil s : trim s = [] <-> Forall (fun c => isSpace c = true) s.
Proof.
  unfold trim, trimStart, trimEnd. split.
  - intros H. apply (f_equal (@rev N)) in H. rewrite rev_involutive in H.
    cbn [rev] in H. apply dropSpaces_nil in H.
    apply Forall_rev in H. rewrite rev_involutive in H.
    destruct (JsStringFacts.dropSpaces_suffix s) as [pre E].
    destruct (dropSpaces s) as [| d rest] eqn:Ed; [apply dropSpaces_nil, Ed |].
    exfalso. pose proof (TextFacts.dropSpaces_head s) as Hhead.
    rewrite Ed in Hhead. apply Forall_cons in H as [H _]. congruence.
  - intros H. apply dropSpaces_nil in H. rewrite H. reflexivity.
Qed.

End SplitFacts.

Module CliFacts.

Lemma falsy_nil s : falsy s = true <-> s = [].
Proof. destruct s; split; (reflexivity || discriminate). Qed.

(** The UIDs read from a text. *)
Lemma uids_shape text :
  Forall (fun u => u <> [] /\ trim u = u /\ Forall (fun c => c <> Cli.comma) u)
         (List.filter (fun u => negb (falsy u))
                      (List.map trim (Search.split Cli.comma text))).
Proof.
  apply List.Forall_forall. intros u Hu.
  apply List.filter_In in Hu as [Hin Hne].
  apply List.in_map_iff in Hin as (w & <- & Hw).
  split; [| split].
  - intros E. rewrite E in Hne. discriminate.
  - apply TextFacts.trim_idem.
  - apply JsStringFacts.Forall_trim.
    pose proof (SplitFacts.split_pieces Cli.comma text) as Hall.
    rewrite List.Forall_forall in Hall. apply Hall, Hw.
Qed.

Lemma uids_none text :
  List.filter (fun u => negb (falsy u))
              (List.map trim (Search.split Cli.comma text)) = []
  <-> Forall (fun c => c = Cli.comma \/ isSpace c = true) text.
Proof.
  rewrite <- SplitFacts.split_blank.
  induction (Search.split Cli.comma text) as [| w ws IH]; cbn [List.map List.filter].
  - split; [constructor | reflexivity].
  - rewrite Forall_cons, <- IH, <- SplitFacts.trim_nil.
    destruct (trim w); cbn [falsy negb]; [tauto |].
    split; [discriminate | intros [? _]; discriminate].
Qed.

End CliFacts.

(** X22 [truncate] of the text utilities leaves a string within the limit
    as it is. A longer string is cut so that the result, suffix included,
    has exactly [maxLength] code units, provided the suffix fits in the
    limit; when the suffix is longer than the limit the result is longer
    than [maxLength]. *)
Theorem text_truncate_respects_limit_when_suffix_fits
  (str : list N) (maxLength : Z) (suffix : list N) :
  ((Z.of_nat (length str) <= maxLength)%Z ->
   TextMore.truncate str maxLength suffix = str)
  /\ ((maxLength < Z.of_nat (length str))%Z ->
      (Z.of_nat (length suffix) <= maxLength)%Z ->
      TextMore.truncate str maxLength suffix
      = take (Z.to_nat maxLength - length suffix) str ++ suffix
      /\ Z.of_nat (length (TextMore.truncate str maxLength suffix)) = maxLength)
  /\ ((maxLength < Z.of_nat (length str))%Z ->
      (maxLength < Z.of_nat (length suffix))%Z ->
      (maxLength < Z.of_nat (length (TextMore.truncate str maxLength suffix)))%Z).
Proof.
  unfold TextMore.truncate. split; [| split].
  - intros Hle. destruct (Z.leb_spec (Z.of_nat (length str)) maxLength); [reflexivity | lia].
  - intros Hlong Hfits.
    destruct (Z.leb_spec (Z.of_nat (length str)) maxLength); [lia |].
    rewrite ArrayFacts.slice_forward by lia.
    change (Z.to_nat 0) with 0%nat. rewrite drop_0.
    replace (Z.to_nat (maxLength - Z.of_nat (length suffix)) - 0)%nat
      with (Z.to_nat maxLength - length suffix)%nat by lia.
    split; [reflexivity |].
    rewrite length_app, length_take. lia.
  - intros Hlong Hsuffix.
    destruct (Z.leb_spec (Z.of_nat (length str)) maxLength); [lia |].
    rewrite length_app. lia.
Qed.

Lemma text_truncate_respects_limit_when_suffix_fits_witness :
  ((Z.of_nat (length (js "In Rainbows")) <= 8)%Z ->
   TextMore.truncate (js "In Rainbows") 8 (js "...") = js "In Rainbows")
  /\ ((8 < Z.of_nat (length (js "In Rainbows")))%Z ->
      (Z.of_nat (length (js "...")) <= 8)%Z ->
      TextMore.truncate (js "In Rainbows") 8 (js "...")
      = take (Z.to_nat 8 - length (js "...")) (js "In Rainbows") ++ js "..."
      /\ Z.of_nat (length (TextMore.truncate (js "In Rainbows") 8 (js "..."))) = 8%Z)
  /\ ((8 < Z.of_nat (length (js "In Rainbows")))%Z ->
      (8 < Z.of_nat (length (js "...")))%Z ->
      (8 < Z.of_nat (length (TextMore.truncate (js "In Rainbows") 8 (js "..."))))%Z).
Proof.
  exact (text_truncate_respects_limit_when_suffix_fits (js "In Rainbows") 8 (js "...")).
Defined.

(** X23 The UID list of the command line: the command throws exactly when
    the option is missing or holds nothing but commas and white space;
    otherwise it goes on with at least one UID, and every UID is trimmed,
    not empty and free of commas. *)
Theorem cli_uids_are_trimmed_and_nonempty (uids : option (list N)) :
  (Cli.parseUids uids = Throws
   <-> match uids with
       | Some text => Forall (fun c => c = Cli.comma \/ isSpace c = true) text
       | None => True
       end)
  /\ (forall parsed, Cli.parseUids uids = Returns parsed ->
        parsed <> []
        /\ Forall (fun u => u <> [] /\ trim u = u
                            /\ Forall (fun c => c <> Cli.comma) u) parsed).
Proof.
  destruct uids as [text |]; cbn [Cli.parseUids];
    [| split; [tauto | discriminate]].
  destruct text as [| c t]; cbn [falsy];
    [split; [split; [constructor | reflexivity] | discriminate] |].
  pose proof (CliFacts.uids_shape (c :: t)) as Hshape.
  pose proof (CliFacts.uids_none (c :: t)) as Hnone.
  destruct (List.filter _ _) as [| u us].
  - split; [tauto | discriminate].
  - split.
    + split; [discriminate |]. intros H. apply Hnone in H. discriminate.
    + intros parsed [= <-]. split; [discriminate | exact Hshape].
Qed.

Module EnvFacts.

Example loadLine_sample :
  Cli.loadLine [] (js "SPOTIFY_SECRET = abc==")
  = [(js "SPOTIFY_SECRET", js "abc")].
Proof. vm_compute. reflexivity. Qed.

Example loadLine_bare :
  Cli.loadLine [] (js "EMAIL_USER") = [(js "EMAIL_USER", js "undefined")].
Proof. vm_compute. reflexivity. Qed.

Lemma loadLine_keeps env line key value :
  JsMap.get key env = Some value -> value <> [] ->
  JsMap.get key (Cli.loadLine env line) = Some value.
Proof.
  intros Hget Hne. unfold Cli.loadLine.
  set (k := nth 0 _ []). set (v := default _ _).
  destruct (negb (falsy k) && Cli.unset k env)%bool eqn:E; [| exact Hget].
  apply andb_prop in E as [_ Hunset].
  rewrite BucketFacts.get_set_other; [exact Hget |].
  intros ->. unfold Cli.unset in Hunset. rewrite Hget in Hunset.
  destruct value; [congruence | discriminate].
Qed.

Lemma loadEnv_keeps envContent env key value :
  JsMap.get key env = Some value -> value <> [] ->
  JsMap.get key (Cli.loadEnv envContent env) = Some value.
Proof.
  unfold Cli.loadEnv. revert env.
  induction (Search.split 10 envContent) as [| line rest IH]; intros env Hget Hne;
    [exact Hget |].
  cbn [fold_left]. apply IH; [apply loadLine_keeps; assumption | exact Hne].
Qed.

Lemma loadLine_sets env pieces line :
  List.map trim (Search.split Cli.equalsSign line) = pieces ->
  nth 0 pieces [] <> [] -> Cli.unset (nth 0 pieces []) env = true ->
  JsMap.get (nth 0 pieces []) (Cli.loadLine env line)
  = Some (default (js "undefined") (nth_error pieces 1)).
Proof.
  intros <- Hkey Hunset. unfold Cli.loadLine. rewrite Hunset.
  destruct (nth 0 _ []) eqn:E; [congruence |]. cbn [falsy negb andb].
  apply BucketFacts.get_set_same.
Qed.

End EnvFacts.

(** X24 The loading of the env file never changes a variable that already
    has a value. A line is cut at its equals signs: of [KEY=value=rest] the
    value stored for a variable not yet set is the trimmed text between the
    first and the second sign, and a line without sign stores the text
    [undefined]. *)
Theorem env_file_keeps_set_variables_and_cuts_values
  (env : list (list N * list N)) :
  (forall envContent key value,
     JsMap.get key env = Some value -> value <> [] ->
     JsMap.get key (Cli.loadEnv envContent env) = Some value)
  /\ (forall key value rest,
        Forall (fun c => c <> Cli.equalsSign) key ->
        Forall (fun c => c <> Cli.equalsSign) value ->
        trim key <> [] -> Cli.unset (trim key) env = true ->
        JsMap.get (trim key)
          (Cli.loadLine env (key ++ Cli.equalsSign :: value ++ Cli.equalsSign :: rest))
        = Some (trim value))
  /\ (forall key,
        Forall (fun c => c <> Cli.equalsSign) key ->
        trim key <> [] -> Cli.unset (trim key) env = true ->
        JsMap.get (trim key) (Cli.loadLine env key) = Some (js "undefined")).
Proof.
  split; [| split].
  - intros envContent key value. apply EnvFacts.loadEnv_keeps.
  - intros key value rest Hkey Hvalue Hne Hunset.
    pose proof (EnvFacts.loadLine_sets env
                  (trim key :: trim value
                   :: List.map trim (Search.split Cli.equalsSign rest))
                  (key ++ Cli.equalsSign :: value ++ Cli.equalsSign :: rest)) as H.
    cbn [nth nth_error default] in H. apply H; try assumption.
    rewrite SplitFacts.split_app by exact Hkey.
    rewrite SplitFacts.split_app by exact Hvalue. reflexivity.
  - intros key Hkey Hne Hunset.
    pose proof (EnvFacts.loadLine_sets env [trim key] key) as H.
    cbn [nth nth_error default] in H. apply H; try assumption.
    rewrite SplitFacts.split_one by exact Hkey. reflexivity.
Qed.

(** ** Retry with backoff *)

Module RetryChecks.

Example retry_sample :
  Retry.callWithRetry RetryShape.thirdTime (RetryShape.integer 3)
    (RetryShape.integer 1000) 3
  = Some (Retry.Ok (js "done"), [Retry.Finite 1000 0; Retry.Finite 1000 1])
  /\ Retry.callWithRetry RetryShape.never (RetryShape.integer 3)
       (RetryShape.integer 1000) 3
     = Some (Retry.Err (Some (js "timeout")),
             [Retry.Finite 1000 0; Retry.Finite 1000 1])
  /\ Retry.callWithRetry RetryShape.never (RetryShape.integer 0)
       (RetryShape.integer 1000) 1
     = Some (Retry.Err None, []).
Proof. repeat split. Qed.

(** With [maxRetries = 2.5] the loop sleeps after the second failure too. *)
Example fractional_sample :
  Retry.callWithRetry RetryShape.never (Retry.Finite 5 (-1))
    (RetryShape.integer 1000) 3
  = Some (Retry.Err (Some (js "timeout")),
          [Retry.Finite 1000 0; Retry.Finite 1000 1]).
Proof. reflexivity. Qed.

(** Delays beyond the doubles. *)
Example overflow_sample :
  Retry.delayMs (RetryShape.integer 1000) 1015 = Retry.Finite 1000 1014
  /\ Retry.delayMs (RetryShape.integer 1000) 1016 = Retry.Infinity false
  /\ Retry.delayMs (RetryShape.integer 0) 1024 = Retry.Finite 0 1023
  /\ Retry.delayMs (RetryShape.integer 0) 1025 = Retry.NaN.
Proof. repeat split. Qed.

End RetryChecks.

Module RetryFacts.

(** The comparisons with a number. *)
Lemma atMost_mono (a b : Z) (x : Retry.JsNumber) :
  Retry.atMost a x = true -> (b <= a)%Z -> Retry.atMost b x = true.
Proof.
  destruct x as [| negative | m e]; cbn [Retry.atMost]; [discriminate | tauto |].
  destruct (0 <=? e)%Z.
  - rewrite !Z.leb_le. lia.
  - rewrite !Z.leb_le. intros Ha Hb.
    assert (0 <= 2 ^ (- e))%Z by (apply Z.pow_nonneg; lia). nia.
Qed.

Lemma same_atMost (j a : Z) (x : Retry.JsNumber) :
  Retry.same j x = true -> (Retry.atMost a x = true <-> (a <= j)%Z).
Proof.
  destruct x as [| negative | m e]; cbn [Retry.same Retry.atMost];
    [discriminate | discriminate |].
  destruct (0 <=? e)%Z eqn:He.
  - rewrite Z.eqb_eq, Z.leb_le. intros ->. reflexivity.
  - rewrite Z.eqb_eq, Z.leb_le. intros <-.
    apply Z.leb_gt in He.
    assert (0 < 2 ^ (- e))%Z by (apply Z.pow_pos_nonneg; lia).
    split; intros; nia.
Qed.

Lemma below_not_same (j a : Z) (x : Retry.JsNumber) :
  Retry.atMost a x = true -> (j < a)%Z -> Retry.same j x = false.
Proof.
  intros Ha Hj. destruct (Retry.same j x) eqn:E; [| reflexivity].
  apply (same_atMost j a x E) in Ha. lia.
Qed.

(** When a product with a power of two stays below [2 ^ 1024]. *)
Lemma below_overflow (b k : Z) :
  (b <> 0)%Z -> (0 <= k)%Z ->
  ((Z.log2 (Z.abs b) + k < 1024)%Z <-> (Z.abs b * 2 ^ k < 2 ^ 1024)%Z).
Proof.
  intros Hb Hk.
  assert (Hpos : (0 < Z.abs b)%Z) by lia.
  destruct (Z.log2_spec (Z.abs b) Hpos) as [Hlow Hhigh].
  pose proof (Z.log2_nonneg (Z.abs b)) as Hlog.
  assert (H2k : (0 < 2 ^ k)%Z) by (apply Z.pow_pos_nonneg; lia).
  set (L := Z.log2 (Z.abs b)) in *.
  split.
  - intros Hsmall.
    apply Z.lt_le_trans with (2 ^ Z.succ L * 2 ^ k)%Z.
    + apply Z.mul_lt_mono_pos_r; assumption.
    + rewrite <- Z.pow_add_r by lia. apply Z.pow_le_mono_r; lia.
  - intros Hsmall.
    apply (Z.pow_lt_mono_r_iff 2); [lia | lia |].
    rewrite Z.pow_add_r by lia.
    apply Z.le_lt_trans with (Z.abs b * 2 ^ k)%Z; [| exact Hsmall].
    apply Z.mul_le_mono_nonneg_r; lia.
Qed.

Section RetryFacts.

Context {A E : Type}.
Variable fn : nat -> Retry.result A E.
Variable maxRetries : Retry.JsNumber.
Variable baseDelayMs : Retry.JsNumber.

Local Notation "'retryLoop'" := (Retry.retryLoop fn maxRetries baseDelayMs).

Lemma delays_cons (attempt : Z) (n : nat) :
  Retry.delayMs baseDelayMs attempt
  :: RetryShape.delays baseDelayMs (attempt + 1) n
  = RetryShape.delays baseDelayMs attempt (S n).
Proof.
  unfold RetryShape.delays. cbn [seq List.map]. f_equal.
  - f_equal. lia.
  - rewrite <- seq_shift, List.map_map. apply List.map_ext.
    intros i. f_equal. lia.
Qed.

(** [failures] turns of the loop that fail and go on. *)
Lemma retry_skip (failures : nat) :
  forall (fuel : nat) (attempt : Z) (calls : nat) (lastError : option E)
         (slept : list Retry.JsNumber),
    (1 <= attempt)%Z -> (attempt + Z.of_nat failures <= 2 ^ 53)%Z ->
    (forall i, (i < failures)%nat ->
               Retry.atMost (attempt + Z.of_nat i) maxRetries = true
               /\ Retry.same (attempt + Z.of_nat i) maxRetries = false
               /\ exists e, fn (calls + i)%nat = Retry.Err e) ->
    exists lastError',
      retryLoop (failures + fuel) attempt calls lastError slept
      = retryLoop fuel (attempt + Z.of_nat failures) (calls + failures)
                  lastError'
                  (slept ++ RetryShape.delays baseDelayMs attempt failures)
      /\ (failures = 0%nat -> lastError' = lastError)
      /\ (forall e, (0 < failures)%nat ->
                    fn (calls + failures - 1)%nat = Retry.Err e ->
                    lastError' = Some e).
Proof.
  induction failures as [| failures IH];
    intros fuel attempt calls lastError slept Hone Hmax Hfail.
  - exists lastError. rewrite Z.add_0_r, Nat.add_0_r, app_nil_r.
    split; [reflexivity |]. split; [reflexivity | lia].
  - destruct (Hfail 0%nat) as (Hle & Hne & e & He); [lia |].
    rewrite Z.add_0_r in Hle, Hne. rewrite Nat.add_0_r in He.
    cbn [Nat.add Retry.retryLoop]. rewrite Hle, He, Hne.
    assert (Hinc : Retry.increment attempt = (attempt + 1)%Z).
    { unfold Retry.increment. destruct (Z.ltb_spec attempt (2 ^ 53)); lia. }
    rewrite Hinc.
    destruct (IH fuel (attempt + 1)%Z (S calls) (Some e)
                (slept ++ [Retry.delayMs baseDelayMs attempt]))
      as (lastError' & Hrun & Hzero & Hlast); [lia | lia | |].
    { intros i Hi. destruct (Hfail (S i)) as (? & ? & ?); [lia |].
      replace (attempt + 1 + Z.of_nat i)%Z with (attempt + Z.of_nat (S i))%Z by lia.
      replace (S calls + i)%nat with (calls + S i)%nat by lia. auto. }
    exists lastError'. rewrite Hrun. split; [| split; [discriminate |]].
    + f_equal; [lia | lia |].
      rewrite <- app_assoc. cbn [app]. rewrite delays_cons. reflexivity.
    + intros e' _ He'. destruct failures as [| failures].
      * rewrite (Hzero eq_refl).
        replace (calls + 1 - 1)%nat with calls in He' by lia. congruence.
      * apply Hlast; [lia |].
        replace (S calls + S failures - 1)%nat
          with (calls + S (S failures) - 1)%nat by lia. exact He'.
Qed.

(** The run of [callWithRetry] up to a turn that ends it: [failures]
    failed attempts that go on, then the turn of attempt [failures + 1]. *)
Lemma retry_run (failures fuel : nat) :
  (failures < fuel)%nat -> (Z.of_nat failures < 2 ^ 53)%Z ->
  (forall i, (i < failures)%nat ->
             Retry.atMost (Z.of_nat (S i)) maxRetries = true
             /\ Retry.same (Z.of_nat (S i)) maxRetries = false
             /\ exists e, fn i = Retry.Err e) ->
  exists lastError,
    Retry.callWithRetry fn maxRetries baseDelayMs fuel
    = retryLoop (fuel - failures) (Z.of_nat (S failures)) failures lastError
                (RetryShape.delays baseDelayMs 1 failures)
    /\ (failures = 0%nat -> lastError = None)
    /\ (forall e, (0 < failures)%nat -> fn (failures - 1)%nat = Retry.Err e ->
                  lastError = Some e).
Proof.
  intros Hfuel Hmax Hfail. unfold Retry.callWithRetry.
  destruct (retry_skip failures (fuel - failures) 1 0 None [])
    as (lastError & Hrun & Hzero & Hlast); [lia | lia | |].
  { intros i Hi. destruct (Hfail i Hi) as (? & ? & ?).
    replace (1 + Z.of_nat i)%Z with (Z.of_nat (S i)) by lia. auto. }
  exists lastError.
  replace (failures + (fuel - failures))%nat with fuel in Hrun by lia.
  rewrite Hrun. split; [| split; [exact Hzero | exact Hlast]].
  f_equal. lia.
Qed.

End RetryFacts.
End RetryFacts.

(** X25 [callWithRetry] calls [fn] until it succeeds or the attempts are
    used up; the attempt counter is exact up to [2 ^ 53]. It returns the
    value of the first call that succeeds, having slept once after each
    failed call before it. When [maxRetries] is an integer of one at least
    and that many calls fail, it throws the error of the last one without
    sleeping after it; when [maxRetries] lies strictly between two
    integers it sleeps after the last failure as well and then throws that
    error. When [1 <= maxRetries] does not hold it never calls [fn] and
    throws [undefined]. The sleep after the k-th failure is
    [baseDelayMs * 2 ^ (k - 1)] computed on doubles: for an integer base
    it is exactly that value while it is below [2 ^ 1024] and k is at most
    1024, an infinity of the sign of the base once the value reaches
    [2 ^ 1024], and [NaN] for a base of zero from the 1025th failure on. *)
Theorem callWithRetry_backs_off_and_rethrows_last_error
  {A E : Type} (fn : nat -> Retry.result A E)
  (maxRetries baseDelayMs : Retry.JsNumber) (fuel : nat) :
  (forall (attempts : nat) (value : A),
     (1 <= attempts)%nat -> (Z.of_nat attempts <= 2 ^ 53)%Z ->
     Retry.atMost (Z.of_nat attempts) maxRetries = true ->
     (attempts <= fuel)%nat ->
     (forall i, (i < attempts - 1)%nat -> exists e, fn i = Retry.Err e) ->
     fn (attempts - 1)%nat = Retry.Ok value ->
     Retry.callWithRetry fn maxRetries baseDelayMs fuel
     = Some (Retry.Ok value, RetryShape.delays baseDelayMs 1 (attempts - 1)))
  /\ (forall (n : nat) (error : E),
        (1 <= n)%nat -> (Z.of_nat n <= 2 ^ 53)%Z ->
        Retry.same (Z.of_nat n) maxRetries = true ->
        (n <= fuel)%nat ->
        (forall i, (i < n)%nat -> exists e, fn i = Retry.Err e) ->
        fn (n - 1)%nat = Retry.Err error ->
        Retry.callWithRetry fn maxRetries baseDelayMs fuel
        = Some (Retry.Err (Some error),
                RetryShape.delays baseDelayMs 1 (n - 1)))
  /\ (forall (n : nat) (error : E),
        (1 <= n)%nat -> (Z.of_nat n < 2 ^ 53)%Z ->
        Retry.atMost (Z.of_nat n) maxRetries = true ->
        Retry.same (Z.of_nat n) maxRetries = false ->
        Retry.atMost (Z.of_nat n + 1) maxRetries = false ->
        (n < fuel)%nat ->
        (forall i, (i < n)%nat -> exists e, fn i = Retry.Err e) ->
        fn (n - 1)%nat = Retry.Err error ->
        Retry.callWithRetry fn maxRetries baseDelayMs fuel
        = Some (Retry.Err (Some error), RetryShape.delays baseDelayMs 1 n))
  /\ (Retry.atMost 1 maxRetries = false -> (1 <= fuel)%nat ->
      Retry.callWithRetry fn maxRetries baseDelayMs fuel
      = Some (Retry.Err None, []))
  /\ (forall b k : Z,
        (1 <= k <= 1024)%Z -> (Z.abs b * 2 ^ (k - 1) < 2 ^ 1024)%Z ->
        Retry.delayMs (RetryShape.integer b) k = Retry.Finite b (k - 1))
  /\ (forall b k : Z,
        (1 <= k)%Z -> (b <> 0)%Z -> (2 ^ 1024 <= Z.abs b * 2 ^ (k - 1))%Z ->
        Retry.delayMs (RetryShape.integer b) k = Retry.Infinity (b <? 0)%Z)
  /\ (forall k : Z,
        (1024 < k)%Z -> Retry.delayMs (RetryShape.integer 0) k = Retry.NaN).
Proof.
  split; [| split; [| split; [| split; [| split; [| split]]]]].
  - intros attempts value Hone Hmax Hle Hfuel Hfail Hok.
    destruct (RetryFacts.retry_run fn maxRetries baseDelayMs (attempts - 1) fuel)
      as (lastError & Hrun & _); [lia | lia | |].
    { intros i Hi. split; [| split; [| apply Hfail, Hi]].
      - apply (RetryFacts.atMost_mono _ _ _ Hle). lia.
      - apply (RetryFacts.below_not_same _ _ _ Hle). lia. }
    rewrite Hrun.
    replace (fuel - (attempts - 1))%nat with (S (fuel - attempts)) by lia.
    replace (S (attempts - 1)) with attempts by lia.
    cbn [Retry.retryLoop]. rewrite Hle, Hok. reflexivity.
  - intros n error Hone Hmax Hsame Hfuel Hfail Herr.
    assert (Hle : Retry.atMost (Z.of_nat n) maxRetries = true)
      by (apply (RetryFacts.same_atMost _ _ _ Hsame); lia).
    destruct (RetryFacts.retry_run fn maxRetries baseDelayMs (n - 1) fuel)
      as (lastError & Hrun & _); [lia | lia | |].
    { intros i Hi. split; [| split; [| apply Hfail; lia]].
      - apply (RetryFacts.atMost_mono _ _ _ Hle). lia.
      - apply (RetryFacts.below_not_same _ _ _ Hle). lia. }
    rewrite Hrun.
    replace (fuel - (n - 1))%nat with (S (fuel - n)) by lia.
    replace (S (n - 1)) with n by lia.
    cbn [Retry.retryLoop]. rewrite Hle, Herr, Hsame. reflexivity.
  - intros n error Hone Hmax Hle Hnot Hover Hfuel Hfail Herr.
    destruct (RetryFacts.retry_run fn maxRetries baseDelayMs n fuel)
      as (lastError & Hrun & _ & Hlast); [lia | lia | |].
    { intros i Hi. split; [| split; [| apply Hfail, Hi]].
      - apply (RetryFacts.atMost_mono _ _ _ Hle). lia.
      - destruct (decide (S i = n)) as [-> | Hi'].
        + exact Hnot.
        + apply (RetryFacts.below_not_same _ _ _ Hle). lia. }
    rewrite Hrun, (Hlast error) by (lia || assumption).
    replace (fuel - n)%nat with (S (fuel - n - 1)) by lia.
    replace (Z.of_nat (S n)) with (Z.of_nat n + 1)%Z by lia.
    cbn [Retry.retryLoop]. rewrite Hover. reflexivity.
  - intros Hnone Hfuel. unfold Retry.callWithRetry.
    destruct fuel as [| fuel]; [lia |]. cbn [Retry.retryLoop].
    rewrite Hnone. reflexivity.
  - intros b k Hk Hsmall. unfold Retry.delayMs, RetryShape.integer.
    destruct (Z.ltb_spec 1023 (k - 1)); [lia |].
    destruct (Z.eqb_spec b 0) as [-> | Hb]; [reflexivity |].
    cbn [orb]. rewrite Z.add_0_r.
    destruct (Z.ltb_spec (Z.log2 (Z.abs b) + (k - 1)) 1024) as [_ | Hbig];
      [reflexivity |].
    exfalso. apply Z.le_ngt in Hbig. apply Hbig.
    apply RetryFacts.below_overflow; [exact Hb | lia | exact Hsmall].
  - intros b k Hk Hb Hbig. unfold Retry.delayMs, RetryShape.integer.
    destruct (Z.eqb_spec b 0) as [| _]; [contradiction |].
    destruct (Z.ltb_spec 1023 (k - 1)); [reflexivity |].
    cbn [orb]. rewrite Z.add_0_r.
    destruct (Z.ltb_spec (Z.log2 (Z.abs b) + (k - 1)) 1024) as [Hsmall | _];
      [| reflexivity].
    exfalso. apply Z.le_ngt in Hbig. apply Hbig.
    apply RetryFacts.below_overflow; [exact Hb | lia | exact Hsmall].
  - intros k Hk. unfold Retry.delayMs, RetryShape.integer.
    destruct (Z.ltb_spec 1023 (k - 1)); [reflexivity | lia].
Qed.

Lemma callWithRetry_backs_off_and_rethrows_last_error_witness :
  Retry.callWithRetry RetryShape.thirdTime (RetryShape.integer 3)
    (RetryShape.integer 1000) 3
  = Some (Retry.Ok (js "done"),
          RetryShape.delays (RetryShape.integer 1000) 1 (3 - 1)).
Proof.
  apply (proj1 (callWithRetry_backs_off_and_rethrows_last_error
                  RetryShape.thirdTime (RetryShape.integer 3)
                  (RetryShape.integer 1000) 3) 3%nat (js "done")).
  - lia.
  - apply Z.leb_le. reflexivity.
  - reflexivity.
  - lia.
  - intros i Hi. exists (js "timeout"). unfold RetryShape.thirdTime.
    destruct (Nat.ltb_spec i 2); [reflexivity | lia].
  - reflexivity.
Defined.

(** ** The month of an email *)

Module DateFacts.

Lemma js_inj (s t : string) : js s = js t -> s = t.
Proof.
  unfold js. intros H.
  rewrite <- (string_of_list_ascii_of_string s), <- (string_of_list_ascii_of_string t).
  f_equal.
  apply (f_equal (List.map ascii_of_N)) in H.
  rewrite !List.map_map in H.
  rewrite !(List.map_ext _ (fun a => a) ascii_N_embedding), !List.map_id in H.
  exact H.
Qed.

Lemma to_int_proper (z : Z) :
  Z.to_int z <> Decimal.Pos Decimal.Nil /\ Z.to_int z <> Decimal.Neg Decimal.Nil.
Proof.
  destruct z as [| p | p]; cbn [Z.to_int]; split; try discriminate;
    intros [= H]; exact (DecimalPos.Unsigned.to_uint_nonnil p H).
Qed.

Lemma numberToString_inj (y z : Z) :
  Dates.numberToString y = Dates.numberToString z -> y = z.
Proof.
  unfold Dates.numberToString. intros H. apply js_inj in H.
  apply (f_equal NilZero.int_of_string) in H.
  destruct (to_int_proper y), (to_int_proper z).
  rewrite !NilZero.isi in H by assumption.
  injection H as H. apply (f_equal Z.of_int) in H.
  rewrite !DecimalZ.of_to in H. exact H.
Qed.

(** The twelve months. *)
Lemma month_cases (m : Z) :
  (0 <= m <= 11)%Z ->
  m = 0%Z \/ m = 1%Z \/ m = 2%Z \/ m = 3%Z \/ m = 4%Z \/ m = 5%Z \/ m = 6%Z
  \/ m = 7%Z \/ m = 8%Z \/ m = 9%Z \/ m = 10%Z \/ m = 11%Z.
Proof. lia. Qed.

Lemma month_length (m : Z) :
  (0 <= m <= 11)%Z ->
  length (Dates.padStart2 (Dates.numberToString (m + 1))) = 2%nat.
Proof.
  intros Hm. apply month_cases in Hm.
  repeat (destruct Hm as [-> | Hm]; [reflexivity |]). subst m. reflexivity.
Qed.

Lemma month_inj (m n : Z) :
  (0 <= m <= 11)%Z -> (0 <= n <= 11)%Z ->
  Dates.padStart2 (Dates.numberToString (m + 1))
  = Dates.padStart2 (Dates.numberToString (n + 1)) ->
  m = n.
Proof.
  intros Hm Hn. apply month_cases in Hm, Hn.
  repeat (destruct Hm as [-> | Hm]);
    repeat (destruct Hn as [-> | Hn]); subst;
    intros H; (reflexivity || (vm_compute in H; discriminate H)).
Qed.

End DateFacts.

(** X26 The month key of two valid dates is the same only when they have
    the same year and the same month, so emails of different months never
    share a bucket; and no valid date has the key [NaN-NaN] under which all
    emails with an invalid date are gathered. *)
Theorem month_key_separates_months (y1 m1 y2 m2 : Z) :
  (0 <= m1 <= 11)%Z -> (0 <= m2 <= 11)%Z ->
  (Dates.formatMonthYYYYMM (ValidDate y1 m1)
   = Dates.formatMonthYYYYMM (ValidDate y2 m2)
   <-> y1 = y2 /\ m1 = m2)
  /\ Dates.formatMonthYYYYMM (ValidDate y1 m1)
     <> Dates.formatMonthYYYYMM InvalidDate.
Proof.
  intros Hm1 Hm2. cbn [Dates.formatMonthYYYYMM]. split; [split |].
  - intros H. apply app_inj_2 in H as [Hy H].
    + apply DateFacts.numberToString_inj in Hy.
      apply app_inj_1 in H as [_ H]; [| reflexivity].
      apply DateFacts.month_inj in H; auto.
    + rewrite !length_app, !DateFacts.month_length by assumption. reflexivity.
  - intros [-> ->]. reflexivity.
  - change (js "NaN-NaN") with (js "NaN-" ++ js "NaN"). intros H.
    apply app_inj_2 in H as [_ H].
    + discriminate H.
    + rewrite length_app, DateFacts.month_length by assumption. reflexivity.
Qed.

Lemma month_key_separates_months_witness :
  (Dates.formatMonthYYYYMM (ValidDate 2024 0)
   = Dates.formatMonthYYYYMM (ValidDate 2024 11)
   <-> 2024%Z = 2024%Z /\ 0%Z = 11%Z)
  /\ Dates.formatMonthYYYYMM (ValidDate 2024 0)
     <> Dates.formatMonthYYYYMM InvalidDate.
Proof. apply (month_key_separates_months 2024 0 2024 11); lia. Defined.

(** ** Plain text and the line patterns *)

Module LineFacts.

Lemma firstSome_none {A B : Type} (f : A -> option B) (l : list A) :
  Forall (fun a => f a = None) l -> firstSome f l = None.
Proof.
  induction 1 as [| a l Ha _ IH]; [reflexivity |].
  cbn [firstSome]. rewrite Ha. exact IH.
Qed.

Lemma firstSome_first {A B : Type} (f : A -> option B) (pre : list A) (a : A)
    (post : list A) (b : B) :
  Forall (fun x => f x = None) pre -> f a = Some b ->
  firstSome f (pre ++ a :: post) = Some b.
Proof.
  intros Hpre Ha. induction Hpre as [| x pre Hx _ IH]; cbn [app firstSome].
  - rewrite Ha. reflexivity.
  - rewrite Hx. exact IH.
Qed.

Lemma dash_not_space c : Patterns.isDash c = true -> isSpace c = false.
Proof.
  unfold Patterns.isDash. intros H.
  apply orb_true_iff in H as [H | H]; apply N.eqb_eq in H; subst c; reflexivity.
Qed.

(** The remainders of a greedy run of white space: the rest after the whole
    run first, then remainders that begin with white space. *)
Lemma afterSpaces_head s :
  exists rest,
    Patterns.afterSpaces s = dropSpaces s :: rest
    /\ Forall (fun r => match r with
                        | c :: _ => isSpace c = true
                        | [] => False
                        end) rest.
Proof.
  induction s as [| c t (rest & IH & Hrest)]; cbn [Patterns.afterSpaces dropSpaces].
  - exists []. split; [reflexivity | constructor].
  - destruct (isSpace c) eqn:Hc.
    + exists (rest ++ [c :: t]). rewrite IH. split; [reflexivity |].
      apply Forall_app. split; [exact Hrest | repeat constructor; exact Hc].
    + exists []. split; [reflexivity | constructor].
Qed.

Lemma noLineTerminator_app a b :
  Patterns.noLineTerminator (a ++ b) = true ->
  Patterns.noLineTerminator a = true /\ Patterns.noLineTerminator b = true.
Proof.
  unfold Patterns.noLineTerminator. rewrite forallb_app.
  apply andb_prop.
Qed.

Lemma noLineTerminator_drop k s :
  Patterns.noLineTerminator s = true -> Patterns.noLineTerminator (drop k s) = true.
Proof.
  intros H. rewrite <- (take_drop k s) in H.
  apply noLineTerminator_app in H. tauto.
Qed.

Lemma noLineTerminator_dropSpaces s :
  Patterns.noLineTerminator s = true ->
  Patterns.noLineTerminator (dropSpaces s) = true.
Proof.
  intros H. destruct (JsStringFacts.dropSpaces_suffix s) as [pre E].
  rewrite E in H. apply noLineTerminator_app in H. tauto.
Qed.

Lemma dotRun_whole s :
  Patterns.noLineTerminator s = true -> Patterns.dotRun s = length s.
Proof.
  unfold Patterns.noLineTerminator.
  induction s as [| c t IH]; [reflexivity |].
  cbn [forallb Patterns.dotRun length]. intros H.
  apply andb_prop in H as [Hc Ht].
  destruct (isLineTerminator c); [discriminate |]. rewrite IH by exact Ht.
  reflexivity.
Qed.

Lemma restIs_whole s :
  Patterns.noLineTerminator s = true ->
  Patterns.restIs 0 (length s) s = Some s.
Proof.
  intros H. unfold Patterns.restIs. rewrite H, Nat.leb_refl. reflexivity.
Qed.

Lemma pattern_attempts line :
  Patterns.patternArtistDashAlbum line
  = firstSome (LineShape.attempt line)
              (Patterns.lengthsLazy 0 (Patterns.dotRun line)).
Proof. reflexivity. Qed.

Lemma attempt_eq line n1 :
  Patterns.noLineTerminator line = true ->
  LineShape.attempt line n1
  = match dropSpaces (drop n1 line) with
    | d :: r2 =>
        if Patterns.isDash d then Some (take n1 line, dropSpaces r2) else None
    | [] => None
    end.
Proof.
  intros Hline. unfold LineShape.attempt.
  destruct (afterSpaces_head (drop n1 line)) as (rest & -> & Hrest).
  assert (Hnone : firstSome
            (fun r1 =>
               match r1 with
               | c :: r2 =>
                   if Patterns.isDash c
                   then firstSome
                          (fun r3 => option_map (fun g2 => (take n1 line, g2))
                                       (Patterns.restIs 0 (List.length r3) r3))
                          (Patterns.afterSpaces r2)
                   else None
               | [] => None
               end) rest = None).
  { apply firstSome_none. eapply Forall_impl; [exact Hrest |].
    intros [| c r2]; [contradiction |]. cbn beta iota. intros Hc.
    destruct (Patterns.isDash c) eqn:Hd; [| reflexivity].
    apply dash_not_space in Hd. congruence. }
  cbn [firstSome]. rewrite Hnone.
  pose proof (noLineTerminator_dropSpaces _ (noLineTerminator_drop n1 _ Hline)) as Hsuffix.
  destruct (dropSpaces (drop n1 line)) as [| d r2]; [reflexivity |].
  destruct (Patterns.isDash d); [| reflexivity].
  destruct (afterSpaces_head r2) as (rest2 & -> & _).
  cbn [firstSome].
  change (d :: r2) with ([d] ++ r2) in Hsuffix.
  apply noLineTerminator_app in Hsuffix as [_ Hr2].
  rewrite (restIs_whole _ (noLineTerminator_dropSpaces _ Hr2)). reflexivity.
Qed.

(** Before the end of a text that ends in a code unit other than white
    space, the next code unit other than white space is one of the text. *)
Lemma dropSpaces_within u z w :
  isSpace z = false -> Forall (fun c => Patterns.isDash c = false) (u ++ [z]) ->
  exists c r, dropSpaces (u ++ z :: w) = c :: r /\ Patterns.isDash c = false.
Proof.
  intros Hz. induction u as [| x u IH]; cbn [app dropSpaces]; intros Hall.
  - rewrite Hz. apply Forall_cons in Hall as [Hd _]. eauto.
  - apply Forall_cons in Hall as [Hx Hall].
    destruct (isSpace x); [apply IH, Hall | eauto].
Qed.

(** A text is its trimmed part and the white space after it. *)
Lemma trimEnd_split s :
  exists spaces,
    s = trimEnd s ++ spaces
    /\ Forall (fun c => isSpace c = true) spaces
    /\ match rev (trimEnd s) with
       | z :: _ => isSpace z = false
       | [] => True
       end.
Proof.
  unfold trimEnd. rewrite rev_involutive.
  exists (rev (takeSpaces (rev s))). split; [| split].
  - rewrite <- rev_app_distr.
    rewrite <- (TextFacts.drop_takeSpaces (rev s)).
    assert (Htake : takeSpaces (rev s) = take (length (takeSpaces (rev s))) (rev s)).
    { induction (rev s) as [| c t IH]; [reflexivity |].
      cbn [takeSpaces]. destruct (isSpace c); [| reflexivity].
      cbn [length take]. f_equal. exact IH. }
    rewrite Htake at 1. rewrite take_drop, rev_involutive. reflexivity.
  - apply Forall_rev. induction (rev s) as [| c t IH]; [constructor |].
    cbn [takeSpaces]. destruct (isSpace c) eqn:Hc; constructor; assumption.
  - apply TextFacts.dropSpaces_head.
Qed.

Lemma dropSpaces_spaces spaces w :
  Forall (fun c => isSpace c = true) spaces ->
  dropSpaces (spaces ++ w) = dropSpaces w.
Proof.
  induction 1 as [| c t Hc _ IH]; [reflexivity |].
  cbn [app dropSpaces]. rewrite Hc. exact IH.
Qed.

Lemma split_at_first_dash pre d post :
  Patterns.noLineTerminator (pre ++ d :: post) = true ->
  Patterns.isDash d = true ->
  Forall (fun c => Patterns.isDash c = false) pre ->
  Patterns.patternArtistDashAlbum (pre ++ d :: post)
  = Some (trimEnd pre, dropSpaces post).
Proof.
  intros Hline Hd Hpre. rewrite pattern_attempts.
  rewrite (dotRun_whole _ Hline). unfold Patterns.lengthsLazy.
  destruct (trimEnd_split pre) as (spaces & Esplit & Hspaces & Hlast).
  set (T := trimEnd pre) in *. set (line := pre ++ d :: post) in *.
  assert (Eline : line = T ++ spaces ++ d :: post).
  { subst line. rewrite Esplit at 1. rewrite <- app_assoc. reflexivity. }
  assert (Hlen : (length T <= length line)%nat).
  { rewrite Eline, length_app. lia. }
  replace (S (length line) - 0)%nat
    with (length T + S (length line - length T))%nat by lia.
  rewrite seq_app. cbn [seq Nat.add].
  apply firstSome_first.
  - apply List.Forall_forall. intros k Hk. apply List.in_seq in Hk.
    rewrite (attempt_eq _ _ Hline).
    destruct (rev T) as [| z R] eqn:Erev.
    { apply (f_equal (@rev N)) in Erev. rewrite rev_involutive in Erev.
      rewrite Erev in Hk. simpl in Hk. lia. }
    assert (ET : T = rev R ++ [z]).
    { apply (f_equal (@rev N)) in Erev. rewrite rev_involutive in Erev.
      exact Erev. }
    assert (Hk' : (k <= length (rev R))%nat).
    { rewrite ET, length_app in Hk. simpl in Hk. lia. }
    rewrite Eline, ET, <- app_assoc. cbn [app].
    rewrite drop_app_le by exact Hk'.
    destruct (dropSpaces_within (drop k (rev R)) z (spaces ++ d :: post) Hlast)
      as (c & r & -> & Hc).
    + assert (HT : Forall (fun c => Patterns.isDash c = false) T).
      { rewrite Esplit in Hpre. apply Forall_app in Hpre. tauto. }
      rewrite ET in HT. apply Forall_app in HT as [HR Hz].
      apply Forall_app. split; [apply Forall_drop, HR | exact Hz].
    + rewrite Hc. reflexivity.
  - rewrite (attempt_eq _ _ Hline). rewrite Eline.
    rewrite drop_app_length.
    rewrite (dropSpaces_spaces spaces _ Hspaces). cbn [dropSpaces].
    rewrite (dash_not_space d Hd), Hd.
    rewrite take_app_length. reflexivity.
Qed.

Lemma no_dash_no_match line :
  Forall (fun c => Patterns.isDash c = false) line ->
  Patterns.patternArtistDashAlbum line = None.
Proof.
  intros Hline. rewrite pattern_attempts. apply firstSome_none.
  apply List.Forall_forall. intros n1 _. unfold LineShape.attempt.
  apply firstSome_none. apply List.Forall_forall. intros r1 Hr1.
  destruct r1 as [| c r2]; [reflexivity |].
  destruct (Patterns.isDash c) eqn:Hc; [| reflexivity]. exfalso.
  assert (Hsuffix : forall s r, In r (Patterns.afterSpaces s) ->
                      exists pre, s = pre ++ r).
  { clear. induction s as [| c t IH]; cbn [Patterns.afterSpaces]; intros r Hr.
    - destruct Hr as [<- | []]. exists []. reflexivity.
    - destruct (isSpace c).
      + apply in_app_or in Hr as [Hr | [<- | []]].
        * destruct (IH r Hr) as [pre ->]. exists (c :: pre). reflexivity.
        * exists []. reflexivity.
      + destruct Hr as [<- | []]. exists []. reflexivity. }
  destruct (Hsuffix _ _ Hr1) as [pre E].
  assert (Hall : Forall (fun c => Patterns.isDash c = false) (drop n1 line))
    by apply Forall_drop, Hline.
  rewrite E in Hall. apply Forall_app in Hall as [_ Hall].
  apply Forall_cons in Hall as [Hc' _]. congruence.
Qed.

End LineFacts.

(** X27 [stripHtml] returns normalized text: the only white space left in
    it is the space, no two spaces follow each other, and it neither
    begins nor ends with one; this holds for the function of the script and
    for the one of the text utilities. *)
Theorem stripHtml_result_is_normalized (input : option (list N)) :
  Monolith.stripHtml input = Text.stripHtml input
  /\ Forall Props.plain (Text.stripHtml input)
  /\ Props.collapsed (Text.stripHtml input)
  /\ trim (Text.stripHtml input) = Text.stripHtml input.
Proof.
  split; [reflexivity |]. split; [apply TextFacts.stripHtml_plain |].
  destruct input as [[| c t] |]; try (split; [exact Logic.I | reflexivity]).
  unfold Text.stripHtml, Text.normalizeSpaces. split.
  - apply TextFacts.collapsed_trim, TextFacts.collapsed_collapse.
  - apply TextFacts.trim_idem.
Qed.

(** X28 The pattern of the plain-text fallback for an artist, a dash and
    an album splits a line at its first dash, hyphen included: the artist
    is the text before that dash without the white space at its end, the
    album the text after it without the white space at its start. A line
    without a dash does not match. *)
Theorem artist_dash_album_splits_at_first_dash (line : list N) :
  (forall pre d post,
     line = pre ++ d :: post ->
     Patterns.noLineTerminator line = true ->
     Patterns.isDash d = true ->
     Forall (fun c => Patterns.isDash c = false) pre ->
     Patterns.patternArtistDashAlbum line = Some (trimEnd pre, dropSpaces post))
  /\ (Forall (fun c => Patterns.isDash c = false) line ->
      Patterns.patternArtistDashAlbum line = None).
Proof.
  split.
  - intros pre d post ->. apply LineFacts.split_at_first_dash.
  - apply LineFacts.no_dash_no_match.
Qed.

Lemma artist_dash_album_splits_at_first_dash_witness :
  Patterns.patternArtistDashAlbum (js "Jay-Z - The Blueprint")
  = Some (trimEnd (js "Jay"), dropSpaces (js "Z - The Blueprint")).
Proof.
  apply (proj1 (artist_dash_album_splits_at_first_dash (js "Jay-Z - The Blueprint"))
           (js "Jay") 45 (js "Z - The Blueprint")).
  - reflexivity.
  - reflexivity.
  - reflexivity.
  - repeat constructor.
Defined.

(** ** The shortening of a query *)

Module ShortenFacts.

Lemma takeClass_app inClass a c rest :
  Forall (fun x => inClass x = true) a -> inClass c = false ->
  Search.takeClass inClass (a ++ c :: rest) = a.
Proof.
  intros Ha Hc. induction Ha as [| x a Hx _ IH]; cbn [app Search.takeClass].
  - rewrite Hc. reflexivity.
  - rewrite Hx, IH. reflexivity.
Qed.

(** A template without dollar sign stands for itself. *)
Lemma expand_plain captures matched before after template :
  Forall (fun c => c <> Replace.dollar) template ->
  Replace.expand captures matched before after template = template.
Proof.
  induction 1 as [| c t Hc _ IH]; [reflexivity |].
  cbn [Replace.expand]. apply N.eqb_neq in Hc. rewrite Hc. cbn [negb].
  rewrite IH. reflexivity.
Qed.

Lemma matchAlbumQuoted_step before c t :
  Search.matchAlbumQuoted before (c :: t)
  = if isPrefix (js "album:" ++ [Search.quote]) (c :: t)
    then match drop (length (Search.takeClass (fun d => negb (Search.isQuote d))
                                              (drop 7 (c :: t))))
                    (drop 7 (c :: t)) with
         | _ :: after =>
             Some (rev before,
                   Search.takeClass (fun d => negb (Search.isQuote d))
                                    (drop 7 (c :: t)),
                   after)
         | [] => Search.matchAlbumQuoted (c :: before) t
         end
    else Search.matchAlbumQuoted (c :: before) t.
Proof. reflexivity. Qed.

(** The album of a query that begins with its album term. *)
Lemma matchAlbumQuoted_head album rest :
  Forall (fun c => c <> Search.quote) album ->
  Search.matchAlbumQuoted [] (Search.albumTerm album ++ rest)
  = Some ([], album, rest).
Proof.
  intros Halbum.
  assert (Eq : Search.albumTerm album ++ rest
               = 97 :: [108; 98; 117; 109; 58; Search.quote]
                       ++ album ++ Search.quote :: rest).
  { unfold Search.albumTerm. rewrite <- !app_assoc. reflexivity. }
  rewrite Eq, matchAlbumQuoted_step.
  assert (Hprefix : isPrefix (js "album:" ++ [Search.quote])
                      (97 :: [108; 98; 117; 109; 58; Search.quote]
                             ++ album ++ Search.quote :: rest) = true)
    by reflexivity.
  rewrite Hprefix.
  assert (Hbody : drop 7 (97 :: [108; 98; 117; 109; 58; Search.quote]
                             ++ album ++ Search.quote :: rest)
                  = album ++ Search.quote :: rest) by reflexivity.
  rewrite Hbody, takeClass_app.
  - rewrite drop_app_length. reflexivity.
  - eapply Forall_impl; [exact Halbum |]. intros c Hc. unfold Search.isQuote.
    apply N.eqb_neq in Hc. rewrite Hc. reflexivity.
  - reflexivity.
Qed.

Lemma albumTerm_length album :
  length (Search.albumTerm album) = (8 + length album)%nat.
Proof.
  unfold Search.albumTerm. rewrite !length_app. cbn [length js]. simpl. lia.
Qed.

Lemma albumTerm_plain album :
  Forall (fun c => c <> Replace.dollar) album ->
  Forall (fun c => c <> Replace.dollar) (Search.albumTerm album).
Proof.
  intros H. unfold Search.albumTerm.
  repeat (apply Forall_app; split); try exact H;
    repeat constructor; discriminate.
Qed.

End ShortenFacts.

(** X29 A query of an album and an artist that is longer than 230 code
    units is shortened in its album only, as long as the album can give
    way: when the album, free of quotes and dollar signs, is at least
    fifteen code units longer than the overflow, it is cut to its length
    less the overflow less five and trimmed, the artist stays whole, and
    the query sent has at most 225 code units. *)
Theorem long_query_gives_up_album_text_first (album artist : list N) :
  let q := Search.albumTerm album ++ [32] ++ Search.artistTerm artist in
  let target := (length album - (length q - 230) - 5)%nat in
  Forall (fun c => c <> Search.quote) album ->
  Forall (fun c => c <> Replace.dollar) album ->
  (230 < length q)%nat ->
  (length q - 230 + 15 <= length album)%nat ->
  Search.shorten q
  = Search.albumTerm (trim (take target album)) ++ [32] ++ Search.artistTerm artist
  /\ (length (Search.shorten q) <= 225)%nat.
Proof.
  intros q target Hquote Hdollar Hlong Hroom.
  assert (Hq : length q = (8 + length album + 1 + length (Search.artistTerm artist))%nat).
  { subst q. rewrite !length_app, ShortenFacts.albumTerm_length. cbn [length]. lia. }
  assert (Hreduced : Search.shortenAlbum q
            = Search.albumTerm (trim (take target album))
              ++ [32] ++ Search.artistTerm artist).
  { unfold Search.shortenAlbum.
    replace (Search.matchAlbumQuoted [] q)
      with (Some ([] : list N, album, [32] ++ Search.artistTerm artist))
      by (symmetry; apply ShortenFacts.matchAlbumQuoted_head, Hquote).
    cbv zeta. unfold Search.LIMIT.
    replace (Z.to_nat (Z.max 10 (Z.of_nat (length album)
                                 - (Z.of_nat (length q) - Z.of_nat 230) - 5)))
      with target by (subst target; lia).
    unfold Search.truncate.
    destruct (Nat.leb_spec (length album) target) as [Hle | _];
      [subst target; lia |].
    rewrite ShortenFacts.expand_plain; [reflexivity |].
    apply ShortenFacts.albumTerm_plain, JsStringFacts.Forall_trim, Forall_take, Hdollar. }
  assert (Hlen : Nat.le (length (Search.albumTerm (trim (take target album))
                                 ++ [32] ++ Search.artistTerm artist)) 225).
  { pose proof (SearchFacts.trim_length (take target album)) as Htrim.
    rewrite length_take in Htrim.
    rewrite !length_app, ShortenFacts.albumTerm_length. cbn [length].
    subst target. lia. }
  unfold Search.shorten, Search.LIMIT.
  destruct (Nat.ltb_spec 230 (length q)) as [_ | ?]; [| lia].
  rewrite Hreduced.
  destruct (Nat.ltb_spec 230 (length (Search.albumTerm (trim (take target album))
                                      ++ [32] ++ Search.artistTerm artist)))
    as [Hover | _]; [unfold Nat.le in Hlen; lia |].
  split; [reflexivity | exact Hlen].
Qed.

Lemma long_query_gives_up_album_text_first_witness :
  let album := repeat 97 240 in
  let artist := js "Radiohead" in
  let q := Search.albumTerm album ++ [32] ++ Search.artistTerm artist in
  let target := (length album - (length q - 230) - 5)%nat in
  Search.shorten q
  = Search.albumTerm (trim (take target album)) ++ [32] ++ Search.artistTerm artist
  /\ (length (Search.shorten q) <= 225)%nat.
Proof.
  intros album artist.
  apply (long_query_gives_up_album_text_first album artist).
  - apply List.Forall_forall. intros c Hc. apply repeat_spec in Hc.
    subst c. discriminate.
  - apply List.Forall_forall. intros c Hc. apply repeat_spec in Hc.
    subst c. discriminate.
  - apply Nat.ltb_lt. vm_compute. reflexivity.
  - apply Nat.leb_le. vm_compute. reflexivity.
Defined.

(** ** The cleaned search terms *)

Module CleanFacts.

Lemma classOne_map inClass x s :
  replaceAll (Search.classOne inClass [x]) s
  = List.map (fun c => if inClass c then x else c) s.
Proof.
  induction s as [| c t IH]; [reflexivity |].
  cbn [List.map]. destruct (inClass c) eqn:Hc.
  - rewrite (JsStringFacts.replaceAll_hit _ c t 1 [x]);
      [| unfold Search.classOne; rewrite Hc; reflexivity].
    cbn [Nat.pred]. rewrite drop_0, IH. reflexivity.
  - rewrite JsStringFacts.replaceAll_miss;
      [| unfold Search.classOne; rewrite Hc; reflexivity].
    rewrite IH. reflexivity.
Qed.

Lemma classRun_absent inClass rep s :
  Forall (fun c => inClass c = false) s ->
  replaceAll (Search.classRun inClass rep) s = s.
Proof.
  induction 1 as [| c t Hc _ IH]; [reflexivity |].
  rewrite JsStringFacts.replaceAll_miss;
    [| unfold Search.classRun; cbn [Search.takeClass]; rewrite Hc; reflexivity].
  rewrite IH. reflexivity.
Qed.

Lemma map_absent (inClass : N -> bool) (x : N) (s : list N) :
  Forall (fun c => inClass c = false) s ->
  List.map (fun c => if inClass c then x else c) s = s.
Proof.
  induction 1 as [| c t Hc _ IH]; [reflexivity |].
  cbn [List.map]. rewrite Hc, IH. reflexivity.
Qed.

(** Replacing code units that are not white space by others that are not
    leaves the white space as it is. *)
Lemma collapsed_map (inClass : N -> bool) (x : N) (s : list N) :
  isSpace x = false -> (forall c, inClass c = true -> isSpace c = false) ->
  Props.collapsed s ->
  Props.collapsed (List.map (fun c => if inClass c then x else c) s).
Proof.
  intros Hx Hclass.
  assert (Hsame : forall c, isSpace (if inClass c then x else c) = isSpace c).
  { intros c. destruct (inClass c) eqn:Hc; [| reflexivity].
    rewrite Hx, (Hclass c Hc). reflexivity. }
  induction s as [| c t IH]; [trivial |].
  cbn [List.map Props.collapsed]. rewrite Hsame.
  destruct (isSpace c) eqn:Hc; [| exact IH].
  intros (-> & Hnext & Ht). split; [| split; [| apply IH, Ht]].
  - destruct (inClass 32) eqn:E; [| reflexivity].
    apply Hclass in E. discriminate.
  - destruct t as [| d t']; [exact Logic.I |]. cbn [List.map].
    rewrite Hsame. exact Hnext.
Qed.

Lemma double_not_space c : Search.isDoubleCurly c = true -> isSpace c = false.
Proof.
  unfold Search.isDoubleCurly. intros H.
  apply orb_true_iff in H as [H | H]; apply N.eqb_eq in H; subst c; reflexivity.
Qed.

Lemma single_not_space c : Search.isSingleCurly c = true -> isSpace c = false.
Proof.
  unfold Search.isSingleCurly. intros H.
  apply orb_true_iff in H as [H | H]; apply N.eqb_eq in H; subst c; reflexivity.
Qed.

Lemma single_not_double c :
  Search.isSingleCurly c = true -> Search.isDoubleCurly c = false.
Proof.
  unfold Search.isSingleCurly. intros H.
  apply orb_true_iff in H as [H | H]; apply N.eqb_eq in H; subst c; reflexivity.
Qed.

Lemma plain_not_break c : Props.plain c -> Search.isBreak c = false.
Proof.
  intros Hc. destruct (Search.isBreak c) eqn:E; [| reflexivity].
  unfold Search.isBreak in E.
  repeat (apply orb_true_iff in E; destruct E as [E | E]);
    apply N.eqb_eq in E; subst c; destruct Hc as [Hc | Hc]; discriminate Hc.
Qed.

(** What the four replacements leave. *)
Lemma replaced_clean s :
  let quoted :=
    List.map (fun c => if Search.isSingleCurly c then 39 else c)
      (List.map (fun c => if Search.isDoubleCurly c then Search.quote else c)
         (replaceAll (spaceRun [32]) s)) in
  Forall CleanShape.clean quoted /\ Props.collapsed quoted.
Proof.
  intros quoted. split.
  - subst quoted. rewrite List.map_map.
    pose proof (JsStringFacts.collapsed_plain 0 s) as Hplain.
    change (replaceFrom (spaceRun [32]) 0 s) with (replaceAll (spaceRun [32]) s)
      in Hplain.
    induction Hplain as [| c t Hc _ IH]; [constructor |].
    cbn [List.map]. constructor; [| exact IH].
    unfold CleanShape.clean.
    destruct (Search.isDoubleCurly c) eqn:Hd.
    + split; [left; reflexivity | split; reflexivity].
    + destruct (Search.isSingleCurly c) eqn:Hs.
      * split; [left; reflexivity | split; reflexivity].
      * split; [exact Hc | split; assumption].
  - subst quoted.
    apply collapsed_map; [reflexivity | apply single_not_space |].
    apply collapsed_map; [reflexivity | apply double_not_space |].
    apply TextFacts.collapsed_collapse.
Qed.

End CleanFacts.

(** X30 [sanitize] of the catalog search returns text in which the only
    white space is the space, no two spaces follow each other, none begins
    or ends the text, and no curly quote is left; and cleaning a cleaned
    text changes nothing. *)
Theorem sanitize_result_is_clean_and_stable (input : list N) :
  Forall CleanShape.clean (Search.sanitize input)
  /\ Props.collapsed (Search.sanitize input)
  /\ trim (Search.sanitize input) = Search.sanitize input
  /\ Search.sanitize (Search.sanitize input) = Search.sanitize input.
Proof.
  assert (Hshape : Forall CleanShape.clean (Search.sanitize input)
                   /\ Props.collapsed (Search.sanitize input)
                   /\ trim (Search.sanitize input) = Search.sanitize input).
  { unfold Search.sanitize. cbv zeta. rewrite !CleanFacts.classOne_map.
    destruct (CleanFacts.replaced_clean
                (replaceAll (Search.classRun Search.isBreak [32]) input))
      as [Hclean Hcollapsed].
    split; [apply JsStringFacts.Forall_trim, Hclean |].
    split; [apply TextFacts.collapsed_trim, Hcollapsed | apply TextFacts.trim_idem]. }
  destruct Hshape as (Hclean & Hcollapsed & Htrim).
  repeat split; try assumption.
  set (r := Search.sanitize input) in *.
  unfold Search.sanitize at 1. cbv zeta.
  rewrite CleanFacts.classRun_absent.
  2:{ eapply Forall_impl; [exact Hclean |].
      intros c (Hc & _). apply CleanFacts.plain_not_break, Hc. }
  rewrite TextFacts.collapsed_fixed by exact Hcollapsed.
  rewrite !CleanFacts.classOne_map.
  rewrite (CleanFacts.map_absent Search.isDoubleCurly).
  2:{ eapply Forall_impl; [exact Hclean |]. intros c (_ & Hd & _). exact Hd. }
  rewrite (CleanFacts.map_absent Search.isSingleCurly).
  2:{ eapply Forall_impl; [exact Hclean |]. intros c (_ & _ & Hs). exact Hs. }
  exact Htrim.
Qed.
